(** * Sockets: pool, SPSC ring buffer, logger, multicast socket, reactor

    A shallow embedding of the C++ sources of the repository
    (lf_queue.h, the memory pool, the logger, socket_utils/macros.h,
    the multicast socket, tcp_server.cpp, time_utils.h and the thread
    affinity functions for macOS) together with the properties stated
    about them.

    Conventions.
    - [size_t] values are integers in [Z]; arithmetic on them wraps
      modulo [2^64] ([size_t_wrap]).
    - A call either returns ([Ok]), terminates the process through
      [ASSERT]/[FATAL] ([Aborted]: both print and call
      [exit(EXIT_FAILURE)]), or has no defined behaviour in C++
      ([Undefined]: an index past the end of a vector, a remainder by
      zero, a function that falls off its end). [OutOfFuel] belongs to
      the model only: a loop written with a step bound ran past it; the
      bounds used are shown to suffice.
    - A pointer into a [vector] is the index of the slot it points to. *)

From Stdlib Require Import ZArith Lia List Bool.
From Stdlib Require Import Ascii String DecimalString.
From stdpp Require Import base list.

Local Open Scope Z_scope.

(** ** Outcomes of a call *)

Inductive outcome (A : Type) : Type :=
| Ok (a : A)
| Aborted
| Undefined
| OutOfFuel.
Arguments Ok {A} a.
Arguments Aborted {A}.
Arguments Undefined {A}.
Arguments OutOfFuel {A}.

#[global] Instance outcome_bind : MBind outcome := fun A B k m =>
  match m with
  | Ok a => k a
  | Aborted => Aborted
  | Undefined => Undefined
  | OutOfFuel => OutOfFuel
  end.

#[global] Instance outcome_ret : MRet outcome := fun A a => Ok a.

(** [ASSERT(cond, msg)] of macros.h: returns when [cond] holds, exits otherwise. *)
Definition ASSERT (cond : bool) : outcome unit :=
  if cond then Ok tt else Aborted.

(** [FATAL(msg)] of macros.h: always exits. *)
Definition FATAL {A : Type} : outcome A := Aborted.

Definition size_t_wrap (z : Z) : Z := z mod 2 ^ 64.

(** ** lf_queue.h: [LFQueue<T>]

    The header spells one use of [next_read_index_] without its final
    underscore and the type of [num_elements_] as [atomix]; the member
    and the atomic counter are meant. *)

Module LFQueue.
Section WithElem.
Context {T : Type}.
(** [T()], the value the constructor fills the store with. *)
Variable T_default : T.

Record t : Type := mk {
  store_ : list T;
  next_write_index_ : Z;
  next_read_index_ : Z;
  num_elements_ : Z
}.

(** [explicit LFQueue(size_t num_elems) : store_(num_elems, T())] *)
Definition create (num_elems : Z) : t :=
  {| store_ := replicate (Z.to_nat num_elems) T_default;
     next_write_index_ := 0;
     next_read_index_ := 0;
     num_elements_ := 0 |}.

(** [store_.size()] *)
Definition capacity (q : t) : Z := Z.of_nat (length (store_ q)).

(** [return &store_[next_write_index_];] *)
Definition getNextToWrite (q : t) : Z := next_write_index_ q.

(** [*p = v] for a pointer [p] obtained from [getNextToWrite]. *)
Definition write_slot (q : t) (p : Z) (v : T) : outcome t :=
  if (0 <=? p) && (p <? capacity q) then
    Ok {| store_ := <[Z.to_nat p := v]> (store_ q);
          next_write_index_ := next_write_index_ q;
          next_read_index_ := next_read_index_ q;
          num_elements_ := num_elements_ q |}
  else Undefined.

(** [next_write_index_ = (next_write_index_ + 1) % store_.size(); num_elements_++;] *)
Definition updateWriteIndex (q : t) : outcome t :=
  if capacity q =? 0 then Undefined
  else
    Ok {| store_ := store_ q;
          next_write_index_ := size_t_wrap (next_write_index_ q + 1) mod capacity q;
          next_read_index_ := next_read_index_ q;
          num_elements_ := size_t_wrap (num_elements_ q + 1) |}.

(** [return num_elements_.load();] *)
Definition size (q : t) : Z := num_elements_ q.

(** [return (size() ? &store_[next_read_index_] : nullptr);] *)
Definition getNextToRead (q : t) : option Z :=
  if size q =? 0 then None else Some (next_read_index_ q).

(** [*p] for a pointer [p] obtained from [getNextToRead]. *)
Definition read_slot (q : t) (p : Z) : outcome T :=
  if 0 <=? p then
    match store_ q !! Z.to_nat p with
    | Some v => Ok v
    | None => Undefined
    end
  else Undefined.

(** [next_read_index_ = (next_read_index_ + 1) % store_.size();
     ASSERT(num_elements_ != 0, ...); num_elements_--;] *)
Definition updateReadIndex (q : t) : outcome t :=
  if capacity q =? 0 then Undefined
  else
    _ ← ASSERT (negb (num_elements_ q =? 0));
    Ok {| store_ := store_ q;
          next_write_index_ := next_write_index_ q;
          next_read_index_ := size_t_wrap (next_read_index_ q + 1) mod capacity q;
          num_elements_ := size_t_wrap (num_elements_ q - 1) |}.

(** The two sides as threads that take turns, one call or one access
    through a pointer per step.

    The producer runs, for each element [v] it has to write,
    [p = getNextToWrite(); *p = v; updateWriteIndex();]
    and the consumer runs
    [next = getNextToRead();] and, when [next] is not null,
    [x = *next; updateReadIndex();], again and again: the bodies of
    [Logger::pushValue] and of the loop of [Logger::flushQueue].
    A call is one step: each index is read and written by one side
    only, and the count is the one cell both sides touch, once per
    call. *)
Inductive producer_pc : Type :=
| PIdle
| PGot (p : Z)
| PStored.

Inductive consumer_pc : Type :=
| CIdle
| CGot (next : Z)
| CRead.

Record threads : Type := mkThreads {
  queue : t;
  (** what the producer has still to write, next element first *)
  todo : list T;
  ppc : producer_pc;
  cpc : consumer_pc;
  (** what the consumer has read, oldest first *)
  reads : list T
}.

Definition producer_step (c : threads) : outcome threads :=
  match todo c with
  | [] => Ok c
  | v :: rest =>
      match ppc c with
      | PIdle =>
          Ok (mkThreads (queue c) (todo c) (PGot (getNextToWrite (queue c))) (cpc c) (reads c))
      | PGot p =>
          q ← write_slot (queue c) p v;
          Ok (mkThreads q (todo c) PStored (cpc c) (reads c))
      | PStored =>
          q ← updateWriteIndex (queue c);
          Ok (mkThreads q rest PIdle (cpc c) (reads c))
      end
  end.

Definition consumer_step (c : threads) : outcome threads :=
  match cpc c with
  | CIdle =>
      match getNextToRead (queue c) with
      | None => Ok c
      | Some next => Ok (mkThreads (queue c) (todo c) (ppc c) (CGot next) (reads c))
      end
  | CGot next =>
      x ← read_slot (queue c) next;
      Ok (mkThreads (queue c) (todo c) (ppc c) CRead (reads c ++ [x]))
  | CRead =>
      q ← updateReadIndex (queue c);
      Ok (mkThreads q (todo c) (ppc c) CIdle (reads c))
  end.

Inductive thread : Type :=
| Producer
| Consumer.

Definition thread_step (th : thread) (c : threads) : outcome threads :=
  match th with
  | Producer => producer_step c
  | Consumer => consumer_step c
  end.

(** Runs the threads in the order the schedule gives. *)
Fixpoint run_threads (sched : list thread) (c : threads) : outcome threads :=
  match sched with
  | [] => Ok c
  | th :: sched' => c1 ← thread_step th c; run_threads sched' c1
  end.

(** A fresh queue of capacity [N], a producer that will write [vs], a
    consumer that has read nothing. *)
Definition start (N : Z) (vs : list T) : threads :=
  mkThreads (create N) vs PIdle CIdle [].

(** The four operations of the public interface, one call at a time. *)
Inductive call : Type :=
| GetNextToWrite
| UpdateWriteIndex
| GetNextToRead
| UpdateReadIndex.

Definition exec (c : call) (q : t) : outcome t :=
  match c with
  | GetNextToWrite => let _ := getNextToWrite q in Ok q
  | UpdateWriteIndex => updateWriteIndex q
  | GetNextToRead => let _ := getNextToRead q in Ok q
  | UpdateReadIndex => updateReadIndex q
  end.

Fixpoint exec_all (cs : list call) (q : t) : outcome t :=
  match cs with
  | [] => Ok q
  | c :: cs' => q1 ← exec c q; exec_all cs' q1
  end.

(** States reached from a fresh queue of capacity [N] when the producer
    never advances the write index of a full queue. *)
Inductive reachable_sized (N : Z) : t -> Prop :=
| reach_create : reachable_sized N (create N)
| reach_exec c q q' :
    reachable_sized N q ->
    (c = UpdateWriteIndex -> size q < N) ->
    exec c q = Ok q' ->
    reachable_sized N q'.

End WithElem.
Arguments t : clear implicits.
Arguments threads : clear implicits.
End LFQueue.

(** ** The memory pool: [MemPool<T>]

    The source spells one use of [next_free_index_] and one of
    [is_free_] without the final underscore; the members are meant. *)

Module MemPool.
Section WithElem.
Context {T : Type}.
(** [T()], the value the constructor fills the blocks with. *)
Variable T_default : T.

(** [struct ObjectBlock { T object_; bool is_free_ = true; };] *)
Record ObjectBlock : Type := mkBlock {
  object_ : T;
  is_free_ : bool
}.

Record t : Type := mk {
  store_ : list ObjectBlock;
  next_free_index_ : Z
}.

(** [explicit MemPool(size_t num_elems) : store_(num_elems, {T(), true})].
    The assertion of the constructor compares the address of the first
    block with the address of its object; it is about the layout of
    [ObjectBlock] and has no counterpart here. *)
Definition create (num_elems : Z) : t :=
  {| store_ := replicate (Z.to_nat num_elems) (mkBlock T_default true);
     next_free_index_ := 0 |}.

(** [store_.size()] *)
Definition capacity (p : t) : Z := Z.of_nat (length (store_ p)).

(** [store_[i]], read. *)
Definition block_at (p : t) (i : Z) : outcome ObjectBlock :=
  if 0 <=? i then
    match store_ p !! Z.to_nat i with
    | Some b => Ok b
    | None => Undefined
    end
  else Undefined.

Definition set_next_free_index (p : t) (i : Z) : t :=
  {| store_ := store_ p; next_free_index_ := i |}.

Definition set_block (p : t) (i : Z) (b : ObjectBlock) : t :=
  {| store_ := <[Z.to_nat i := b]> (store_ p);
     next_free_index_ := next_free_index_ p |}.

(** The loop of [updateNextFreeIndex]:
    [while (!store_[next_free_index_].is_free_) {
       ++next_free_index_;
       if (next_free_index_ == store_.size()) next_free_index_ = 0;
       if (initial_free_index == next_free_index_)
         ASSERT(initial_free_index != next_free_index_, "Memory Pool out of space.");
     }]
    [fuel] bounds the number of rounds. *)
Fixpoint updateNextFreeIndex_loop (fuel : nat) (initial_free_index : Z) (p : t)
  : outcome t :=
  b ← block_at p (next_free_index_ p);
  if is_free_ b then Ok p
  else
    match fuel with
    | O => OutOfFuel
    | S fuel' =>
        let i1 := size_t_wrap (next_free_index_ p + 1) in
        let i2 := if i1 =? capacity p then 0 else i1 in
        _ ← (if initial_free_index =? i2
             then ASSERT (negb (initial_free_index =? i2))
             else Ok tt);
        updateNextFreeIndex_loop fuel' initial_free_index (set_next_free_index p i2)
    end.

(** [updateNextFreeIndex()]: the loop comes back to its starting index
    after [store_.size()] rounds, where it exits the process. *)
Definition updateNextFreeIndex (p : t) : outcome t :=
  updateNextFreeIndex_loop (length (store_ p)) (next_free_index_ p) p.

(** [allocate(args...)]: [v] is the object [T(args...)] built in place.
    The result carries the pool and the pointer returned, the index of
    the block of the object. *)
Definition allocate (p : t) (v : T) : outcome (t * Z) :=
  let i := next_free_index_ p in
  obj_block ← block_at p i;
  _ ← ASSERT (is_free_ obj_block);
  let p1 := set_block p i (mkBlock v false) in
  p2 ← updateNextFreeIndex p1;
  Ok (p2, i).

(** [deallocate(elem)]: [elem_index] is the distance of the block of
    [elem] from [&store_[0]]. *)
Definition deallocate (p : t) (elem_index : Z) : outcome t :=
  _ ← ASSERT ((0 <=? elem_index) && (elem_index <? capacity p));
  b ← block_at p elem_index;
  _ ← ASSERT (negb (is_free_ b));
  Ok (set_block p elem_index (mkBlock (object_ b) true)).

(** Number of free blocks. *)
Definition free_blocks (p : t) : nat :=
  length (filter (fun b => is_free_ b = true) (store_ p)).

End WithElem.
Arguments t : clear implicits.
Arguments ObjectBlock : clear implicits.
End MemPool.

(** ** time_utils.h *)

Module TimeUtils.

Definition NUL : ascii := Ascii.zero.

(** [time_str->at(time_str->length() - 1) = '\0'] *)
Fixpoint replace_last_by_NUL (s : string) : string :=
  match s with
  | EmptyString => EmptyString
  | String c EmptyString => String NUL EmptyString
  | String c s' => String c (replace_last_by_NUL s')
  end.

(** [getCurrentTimeStr(time_str)]: [now] is what [ctime] returns for the
    current time; the result is also the new content of [*time_str]. *)
Definition getCurrentTimeStr (now : string) : string :=
  replace_last_by_NUL now.

End TimeUtils.

(** ** The logger *)

Module Logger.

(** [constexpr size_t LOG_QUEUE_SIZE = 8 * 1024 * 1024;] *)
Definition LOG_QUEUE_SIZE : Z := 8 * 1024 * 1024.

Inductive LogType : Type :=
| CHAR
| INTEGER
| LONG_INTEGER
| LONG_LONG_INTEGER
| UNSIGNED_INTEGER
| UNSIGNED_LONG_INTEGER
| UNSIGNED_LONG_LONG_INTEGER
| FLOAT
| DOUBLE.

(** The anonymous union [u_]: the constructor is the member last
    written (the active member) and carries its value. Integers are
    the values of their C types; a [float] or [double] is carried as
    its bit pattern. *)
Inductive LogUnion : Type :=
| U_c (c : ascii)
| U_i (i : Z)
| U_l (l : Z)
| U_ll (ll : Z)
| U_u (u : Z)
| U_ul (ul : Z)
| U_ull (ull : Z)
| U_f (f : Z)
| U_d (d : Z).

Record LogElement : Type := mkElement {
  type_ : LogType;
  u_ : LogUnion
}.

(** [LogElement()], the content of a slot never written. *)
Definition LogElement_default : LogElement := mkElement CHAR (U_c Ascii.zero).

(** Reading a member of the union; reading a member that is not the
    active one has no defined behaviour. *)
Definition get_c (u : LogUnion) : outcome ascii :=
  match u with U_c v => Ok v | _ => Undefined end.
Definition get_i (u : LogUnion) : outcome Z :=
  match u with U_i v => Ok v | _ => Undefined end.
Definition get_l (u : LogUnion) : outcome Z :=
  match u with U_l v => Ok v | _ => Undefined end.
Definition get_ll (u : LogUnion) : outcome Z :=
  match u with U_ll v => Ok v | _ => Undefined end.
Definition get_u (u : LogUnion) : outcome Z :=
  match u with U_u v => Ok v | _ => Undefined end.
Definition get_ul (u : LogUnion) : outcome Z :=
  match u with U_ul v => Ok v | _ => Undefined end.
Definition get_ull (u : LogUnion) : outcome Z :=
  match u with U_ull v => Ok v | _ => Undefined end.
Definition get_f (u : LogUnion) : outcome Z :=
  match u with U_f v => Ok v | _ => Undefined end.
Definition get_d (u : LogUnion) : outcome Z :=
  match u with U_d v => Ok v | _ => Undefined end.

(** The logger: its queue and what has been written to [file_] so far. *)
Record t : Type := mk {
  queue_ : LFQueue.t LogElement;
  file_ : string
}.

(** The constructor, once the file is open and the thread started. *)
Definition create : t :=
  {| queue_ := LFQueue.create LogElement_default LOG_QUEUE_SIZE;
     file_ := EmptyString |}.

(** [file_ << n] for the integer types. *)
Definition show_Z (n : Z) : string := NilZero.string_of_int (Z.to_int n).

(** [file_ << c] *)
Definition show_char (c : ascii) : string := String c EmptyString.

Section Flush.
(** [file_ << f] and [file_ << d] for a [float] and a [double]. *)
Variable show_float : Z -> string.
Variable show_double : Z -> string.

(** The [switch (next->type_)] of [flushQueue]: what is written to
    [file_] for one element. *)
Definition render (next : LogElement) : outcome string :=
  match type_ next with
  | CHAR => c ← get_c (u_ next); Ok (show_char c)
  | INTEGER => i ← get_i (u_ next); Ok (show_Z i)
  | LONG_INTEGER => l ← get_l (u_ next); Ok (show_Z l)
  | LONG_LONG_INTEGER => ll ← get_ll (u_ next); Ok (show_Z ll)
  | UNSIGNED_INTEGER => u ← get_u (u_ next); Ok (show_Z u)
  | UNSIGNED_LONG_INTEGER => ul ← get_ul (u_ next); Ok (show_Z ul)
  | UNSIGNED_LONG_LONG_INTEGER => ull ← get_ull (u_ next); Ok (show_Z ull)
  | FLOAT => f ← get_f (u_ next); Ok (show_float f)
  | DOUBLE => d ← get_d (u_ next); Ok (show_double d)
  end.

(** The inner loop of [flushQueue]:
    [for (auto next = queue_.getNextToRead(); queue_.size() && next;
          next = queue_.getNextToRead()) { switch ...; queue_.updateReadIndex(); }]
    [fuel] bounds the number of rounds. *)
Fixpoint flushQueue_loop (fuel : nat) (lg : t) : outcome t :=
  match LFQueue.getNextToRead (queue_ lg) with
  | None => Ok lg
  | Some next =>
      if LFQueue.size (queue_ lg) =? 0 then Ok lg
      else
        match fuel with
        | O => OutOfFuel
        | S fuel' =>
            e ← LFQueue.read_slot (queue_ lg) next;
            txt ← render e;
            q1 ← LFQueue.updateReadIndex (queue_ lg);
            flushQueue_loop fuel' {| queue_ := q1; file_ := String.append (file_ lg) txt |}
        end
  end.

(** One round of the [while (running_)] loop of [flushQueue], with no
    push in between: the elements present at its start are written. *)
Definition flushQueue_round (lg : t) : outcome t :=
  flushQueue_loop (Z.to_nat (LFQueue.size (queue_ lg))) lg.
End Flush.

(** [pushValue(const LogElement &log_element)] *)
Definition pushValue (lg : t) (log_element : LogElement) : outcome t :=
  q1 ← LFQueue.write_slot (queue_ lg) (LFQueue.getNextToWrite (queue_ lg)) log_element;
  q2 ← LFQueue.updateWriteIndex q1;
  Ok {| queue_ := q2; file_ := file_ lg |}.

(** The overloads of [pushValue] for the scalar types. *)
Definition pushValue_char (lg : t) (value : ascii) : outcome t :=
  pushValue lg (mkElement CHAR (U_c value)).
Definition pushValue_int (lg : t) (value : Z) : outcome t :=
  pushValue lg (mkElement INTEGER (U_i value)).
Definition pushValue_long (lg : t) (value : Z) : outcome t :=
  pushValue lg (mkElement LONG_INTEGER (U_l value)).
Definition pushValue_long_long (lg : t) (value : Z) : outcome t :=
  pushValue lg (mkElement LONG_LONG_INTEGER (U_ll value)).
Definition pushValue_unsigned (lg : t) (value : Z) : outcome t :=
  pushValue lg (mkElement UNSIGNED_INTEGER (U_u value)).
Definition pushValue_unsigned_long (lg : t) (value : Z) : outcome t :=
  pushValue lg (mkElement UNSIGNED_LONG_INTEGER (U_ul value)).
Definition pushValue_unsigned_long_long (lg : t) (value : Z) : outcome t :=
  pushValue lg (mkElement UNSIGNED_LONG_LONG_INTEGER (U_ull value)).
Definition pushValue_float (lg : t) (value : Z) : outcome t :=
  pushValue lg (mkElement FLOAT (U_f value)).
Definition pushValue_double (lg : t) (value : Z) : outcome t :=
  pushValue lg (mkElement DOUBLE (U_d value)).

(** [pushValue(const char *value)]: [while ( *value ) { pushValue( *value ); ++value; }].
    The characters of [value] are the memory at the pointer; the loop
    stops at the first NUL, or at the end of the string, where the
    terminating NUL is. *)
Fixpoint pushValue_cstr (lg : t) (value : string) : outcome t :=
  match value with
  | EmptyString => Ok lg
  | String c value' =>
      if Ascii.eqb c TimeUtils.NUL then Ok lg
      else
        lg1 ← pushValue_char lg c;
        pushValue_cstr lg1 value'
  end.

(** [pushValue(const string &value)]: [pushValue(value.c_str())]. *)
Definition pushValue_string (lg : t) (value : string) : outcome t :=
  pushValue_cstr lg value.

(** A value passed to a [pushValue] overload for a scalar, with its static type. *)
Inductive scalar : Type :=
| S_char (value : ascii)
| S_int (value : Z)
| S_long (value : Z)
| S_long_long (value : Z)
| S_unsigned (value : Z)
| S_unsigned_long (value : Z)
| S_unsigned_long_long (value : Z)
| S_float (value : Z)
| S_double (value : Z).

(** An argument of [log], with its static type. *)
Inductive arg : Type :=
| A_scalar (value : scalar)
| A_cstr (value : string)
| A_string (value : string).

(** Overload resolution of [pushValue(value)] on a scalar. *)
Definition pushValue_scalar (lg : t) (value : scalar) : outcome t :=
  match value with
  | S_char v => pushValue_char lg v
  | S_int v => pushValue_int lg v
  | S_long v => pushValue_long lg v
  | S_long_long v => pushValue_long_long lg v
  | S_unsigned v => pushValue_unsigned lg v
  | S_unsigned_long v => pushValue_unsigned_long lg v
  | S_unsigned_long_long v => pushValue_unsigned_long_long lg v
  | S_float v => pushValue_float lg v
  | S_double v => pushValue_double lg v
  end.

(** Overload resolution of [pushValue(value)] in [log]. *)
Definition pushValue_arg (lg : t) (value : arg) : outcome t :=
  match value with
  | A_scalar v => pushValue_scalar lg v
  | A_cstr v => pushValue_cstr lg v
  | A_string v => pushValue_string lg v
  end.

Definition percent : ascii := "%"%char.

(** [log(const char *s)], the overload without arguments. *)
Fixpoint log_noargs (s : string) (lg : t) {struct s} : outcome t :=
  match s with
  | EmptyString => Ok lg
  | String c s1 =>
      if Ascii.eqb c TimeUtils.NUL then Ok lg
      else if Ascii.eqb c percent then
        match s1 with
        | String c1 s2 =>
            if Ascii.eqb c1 percent then
              (* ++s; pushValue( *s++ ); *)
              lg1 ← pushValue_char lg c1;
              log_noargs s2 lg1
            else FATAL (* missing arguments to log() *)
        | EmptyString => FATAL (* missing arguments to log() *)
        end
      else
        lg1 ← pushValue_char lg c;
        log_noargs s1 lg1
  end.

(** [log(const char *s, const T &value, A... args)]. The call
    [log(s + 1, args...)] is the overload without arguments when
    [args] is empty and this one otherwise. *)
Fixpoint log_args (s : string) (value : arg) (args : list arg) (lg : t)
  {struct s} : outcome t :=
  match s with
  | EmptyString => FATAL (* extra arguments provided to log() *)
  | String c s1 =>
      if Ascii.eqb c TimeUtils.NUL then FATAL (* extra arguments provided to log() *)
      else if Ascii.eqb c percent then
        let substitute :=
          lg1 ← pushValue_arg lg value;
          match args with
          | [] => log_noargs s1 lg1
          | value' :: args' => log_args s1 value' args' lg1
          end in
        match s1 with
        | String c1 s2 =>
            if Ascii.eqb c1 percent then
              (* ++s; pushValue( *s++ ); *)
              lg1 ← pushValue_char lg c1;
              log_args s2 value args lg1
            else substitute
        | EmptyString => substitute
        end
      else
        lg1 ← pushValue_char lg c;
        log_args s1 value args lg1
  end.

(** A call [log(s, args...)]. *)
Definition log (s : string) (args : list arg) (lg : t) : outcome t :=
  match args with
  | [] => log_noargs s lg
  | value :: args' => log_args s value args' lg
  end.

(** *** The specification of [log]

    The definitions below follow the words of the specification, not
    the code: the format string is scanned left to right, each [%] is
    replaced by the text of the next argument and [%%] stands for one
    [%]. *)

(** The characters of a C string: those before its first NUL. *)
Fixpoint c_str (s : string) : string :=
  match s with
  | EmptyString => EmptyString
  | String c s' => if Ascii.eqb c TimeUtils.NUL then EmptyString else String c (c_str s')
  end.

(** Number of [%] of a format string that stand for an argument. *)
Fixpoint spec_placeholders (fmt : string) : nat :=
  match fmt with
  | EmptyString => O
  | String c fmt1 =>
      if Ascii.eqb c percent then
        match fmt1 with
        | String c1 fmt2 =>
            if Ascii.eqb c1 percent then spec_placeholders fmt2
            else S (spec_placeholders fmt1)
        | EmptyString => 1%nat
        end
      else spec_placeholders fmt1
  end.

(** The text a format string stands for, given the texts of the arguments. *)
Fixpoint spec_substitute (fmt : string) (texts : list string) : string :=
  match fmt with
  | EmptyString => EmptyString
  | String c fmt1 =>
      if Ascii.eqb c percent then
        let replaced :=
          match texts with
          | txt :: texts' => String.append txt (spec_substitute fmt1 texts')
          | [] => spec_substitute fmt1 []
          end in
        match fmt1 with
        | String c1 fmt2 =>
            if Ascii.eqb c1 percent then String percent (spec_substitute fmt2 texts)
            else replaced
        | EmptyString => replaced
        end
      else String c (spec_substitute fmt1 texts)
  end.

Section Texts.
Variable show_float : Z -> string.
Variable show_double : Z -> string.

(** The textual form of a value. *)
Definition scalar_text (value : scalar) : string :=
  match value with
  | S_char v => show_char v
  | S_int v | S_long v | S_long_long v => show_Z v
  | S_unsigned v | S_unsigned_long v | S_unsigned_long_long v => show_Z v
  | S_float v => show_float v
  | S_double v => show_double v
  end.

Definition arg_text (value : arg) : string :=
  match value with
  | A_scalar v => scalar_text v
  | A_cstr v | A_string v => c_str v
  end.
End Texts.

(** Number of elements a call of [log] can push at most. *)
Definition arg_elements (value : arg) : nat :=
  match value with
  | A_scalar _ => 1%nat
  | A_cstr v | A_string v => String.length v
  end.

Definition log_elements (s : string) (args : list arg) : nat :=
  (String.length s + list_sum (map arg_elements args))%nat.

End Logger.

(** ** socket_utils (the second half of macros.h) *)

Module SocketUtils.

(** [struct SocketCfg] *)
Record SocketCfg : Type := mkCfg {
  ip_ : string;
  iface_ : string;
  port_ : Z;
  is_udp_ : bool;
  is_listening_ : bool;
  needs_so_timestamp_ : bool
}.

(** [constexpr int MaxTCPServerBacklog = 1024;] *)
Definition MaxTCPServerBacklog : Z := 1024.

Definition show_bool (b : bool) : string := if b then "1" else "0".

(** [SocketCfg::toString()] *)
Definition toString (cfg : SocketCfg) : string :=
  String.concat EmptyString
    [ "SocketCfg[ip:]"; ip_ cfg;
      " iface:"; iface_ cfg;
      " port:"; Logger.show_Z (port_ cfg);
      " is_udp:"; show_bool (is_udp_ cfg);
      " is_listening:"; show_bool (is_listening_ cfg);
      " needs_SO_timestamp:"; show_bool (needs_so_timestamp_ cfg);
      "]" ]%string.

(** The options set with [setsockopt] in the sources. *)
Inductive sockopt : Type :=
| TCP_NODELAY
| SO_TIMESTAMP
| SO_REUSEADDR
| IP_ADD_MEMBERSHIP (group : string).

(** The fields of an [addrinfo] the code reads; [ai_addr] stands for
    the address the entry points to. *)
Record addrinfo : Type := mkAddrinfo {
  ai_family : Z;
  ai_socktype : Z;
  ai_protocol : Z;
  ai_addr : Z;
  ai_addrlen : Z
}.

(** The hints given to [getaddrinfo]: [AI_PASSIVE] is set for a
    listening socket ([AI_NUMERICHOST | AI_NUMERICSERV] always), the
    family is [AF_INET], and the type and protocol are those of
    datagrams or streams. *)
Record hints : Type := mkHints {
  hint_passive : bool;
  hint_datagram : bool
}.

(** The system calls of the sources, with the arguments that matter. *)
Inductive syscall : Type :=
| Sys_getifaddrs
| Sys_getaddrinfo (node service : string) (h : hints)
| Sys_socket (family socktype protocol : Z)
| Sys_fcntl_getfl (fd : Z)
| Sys_fcntl_setfl (fd flags : Z)
| Sys_setsockopt (fd : Z) (opt : sockopt)
| Sys_connect (fd addr addrlen : Z)
| Sys_bind (fd addr addrlen : Z)
| Sys_listen (fd backlog : Z)
| Sys_kqueue
| Sys_kevent_add_read (kq fd : Z).

(** The operating system as the code sees it: what a call returns
    after the calls made so far, the list [getaddrinfo] stores in
    [result], the address of an interface, the answer of [ctime], and
    the value of [O_NONBLOCK]. *)
Record OS : Type := mkOS {
  sys_ret : list syscall -> syscall -> Z;
  gai_result : list addrinfo;
  iface_ip : string -> string;
  ctime_now : string;
  O_NONBLOCK : Z
}.

(** A system call: its return value, and the trace with the call added. *)
Definition sys (os : OS) (c : syscall) (tr : list syscall) : Z * list syscall :=
  (sys_ret os tr c, tr ++ [c]).

(** [getIfaceIP(iface)] *)
Definition getIfaceIP (os : OS) (iface : string) (tr : list syscall)
  : string * list syscall :=
  let '(_, tr1) := sys os Sys_getifaddrs tr in
  (iface_ip os iface, tr1).

(** [setNonBlocking(fd)] *)
Definition setNonBlocking (os : OS) (fd : Z) (tr : list syscall)
  : bool * list syscall :=
  let '(flags, tr1) := sys os (Sys_fcntl_getfl fd) tr in
  if negb (Z.land flags (O_NONBLOCK os) =? 0) then (true, tr1)
  else
    let '(r, tr2) := sys os (Sys_fcntl_setfl fd (Z.lor flags (O_NONBLOCK os))) tr1 in
    (negb (r =? -1), tr2).

(** [disableNagle(fd)] *)
Definition disableNagle (os : OS) (fd : Z) (tr : list syscall)
  : bool * list syscall :=
  let '(r, tr1) := sys os (Sys_setsockopt fd TCP_NODELAY) tr in
  (negb (r =? -1), tr1).

(** [setSOTimestamp(fd)] *)
Definition setSOTimestamp (os : OS) (fd : Z) (tr : list syscall)
  : bool * list syscall :=
  let '(r, tr1) := sys os (Sys_setsockopt fd SO_TIMESTAMP) tr in
  (negb (r =? -1), tr1).

(** [join(fd, ip)] *)
Definition join (os : OS) (fd : Z) (ip : string) (tr : list syscall)
  : bool * list syscall :=
  let '(r, tr1) := sys os (Sys_setsockopt fd (IP_ADD_MEMBERSHIP ip)) tr in
  (negb (r =? -1), tr1).

Section CreateSocket.
(** [__FILE__] and [__LINE__] at the call of [logger.log]. *)
Variable source_file : string.
Variable source_line : Z.

(** The body of the loop [for (addrinfo *rp = result; rp; rp = rp->ai_next)];
    it ends with [return socket_fd;]. *)
Definition createSocket_body (os : OS) (socket_cfg : SocketCfg) (rp : addrinfo)
  (tr : list syscall) : outcome (Z * list syscall) :=
  let '(socket_fd, tr) :=
    sys os (Sys_socket (ai_family rp) (ai_socktype rp) (ai_protocol rp)) tr in
  _ ← ASSERT (negb (socket_fd =? -1));
  let '(nb, tr) := setNonBlocking os socket_fd tr in
  _ ← ASSERT nb;
  tr ← (if negb (is_udp_ socket_cfg) then
          let '(nd, tr) := disableNagle os socket_fd tr in
          _ ← ASSERT nd; Ok tr
        else Ok tr);
  tr ← (if negb (is_listening_ socket_cfg) then
          let '(r, tr) := sys os (Sys_connect socket_fd (ai_addr rp) (ai_addrlen rp)) tr in
          _ ← ASSERT (negb (r =? 1)); Ok tr
        else Ok tr);
  tr ← (if is_listening_ socket_cfg then
          let '(r, tr) := sys os (Sys_setsockopt socket_fd SO_REUSEADDR) tr in
          _ ← ASSERT (r =? 0); Ok tr
        else Ok tr);
  tr ← (if is_listening_ socket_cfg then
          (* const sockaddr_in addr{AF_INET, htons(port_), {htonl(INADDR_ANY)}, {}}; *)
          let '(r, tr) := sys os (Sys_listen socket_fd MaxTCPServerBacklog) tr in
          _ ← ASSERT (r =? 0); Ok tr
        else Ok tr);
  tr ← (if negb (is_udp_ socket_cfg) && is_listening_ socket_cfg then
          let '(r, tr) := sys os (Sys_listen socket_fd MaxTCPServerBacklog) tr in
          _ ← ASSERT (r =? 0); Ok tr
        else Ok tr);
  tr ← (if needs_so_timestamp_ socket_cfg then
          let '(ts, tr) := setSOTimestamp os socket_fd tr in
          _ ← ASSERT ts; Ok tr
        else Ok tr);
  Ok (socket_fd, tr).

(** [createSocket(logger, socket_cfg)]: the descriptor, the logger and
    the trace of system calls. With an empty [result] the loop body
    never runs and the function ends without a [return]. *)
Definition createSocket (os : OS) (logger : Logger.t) (socket_cfg : SocketCfg)
  (tr : list syscall) : outcome (Z * Logger.t * list syscall) :=
  let '(ip, tr) :=
    if String.eqb (ip_ socket_cfg) EmptyString
    then getIfaceIP os (iface_ socket_cfg) tr
    else (ip_ socket_cfg, tr) in
  let time_str := TimeUtils.getCurrentTimeStr (ctime_now os) in
  logger ← Logger.log "%:% %() % cfg:%
"
        [ Logger.A_cstr source_file;
          Logger.A_scalar (Logger.S_int source_line);
          Logger.A_cstr "createSocket";
          Logger.A_string time_str;
          Logger.A_string (toString socket_cfg) ] logger;
      let h := mkHints (is_listening_ socket_cfg) (is_udp_ socket_cfg) in
      let '(rc, tr) :=
        sys os (Sys_getaddrinfo ip (Logger.show_Z (port_ socket_cfg)) h) tr in
      _ ← ASSERT (rc =? 0);
      match gai_result os with
      | rp :: _ =>
          '(socket_fd, tr) ← createSocket_body os socket_cfg rp tr;
          Ok (socket_fd, logger, tr)
      | [] => Undefined
      end.
End CreateSocket.

End SocketUtils.

(** ** The multicast socket *)

Module McastSocket.
Import SocketUtils.

(** [constexpr size_t McastBufferSize = 64 * 1024 * 1024;] *)
Definition McastBufferSize : Z := 64 * 1024 * 1024.

Record t : Type := mk {
  socket_fd_ : Z;
  outbound_data_ : list Byte.byte;
  next_send_valid_index_ : Z;
  inbound_data_ : list Byte.byte;
  next_rcv_valid_index_ : Z;
  time_str_ : string
}.

(** The constructor: both buffers are resized to [McastBufferSize]. *)
Definition create : t :=
  {| socket_fd_ := -1;
     outbound_data_ := replicate (Z.to_nat McastBufferSize) Byte.x00;
     next_send_valid_index_ := 0;
     inbound_data_ := replicate (Z.to_nat McastBufferSize) Byte.x00;
     next_rcv_valid_index_ := 0;
     time_str_ := EmptyString |}.

(** The bytes [src] stored in [buf] from offset [at] on. *)
Definition store_bytes (buf : list Byte.byte) (at_ : Z) (src : list Byte.byte)
  : list Byte.byte :=
  take (Z.to_nat at_) buf ++ src ++ drop (Z.to_nat at_ + length src) buf.

(** [memcpy(buf.data() + at, data, len)]: defined when [data] holds
    [len] bytes and they fit the buffer from [at] on. *)
Definition memcpy_at (buf : list Byte.byte) (at_ : Z) (data : list Byte.byte) (len : Z)
  : outcome (list Byte.byte) :=
  if (0 <=? at_) && (0 <=? len) && (len <=? Z.of_nat (length data))
     && (at_ + len <=? Z.of_nat (length buf))
  then Ok (store_bytes buf at_ (take (Z.to_nat len) data))
  else Undefined.

(** [McastSocket::send(data, len)] *)
Definition send (s : t) (data : list Byte.byte) (len : Z) : outcome t :=
  out ← memcpy_at (outbound_data_ s) (next_send_valid_index_ s) data len;
  let next := size_t_wrap (next_send_valid_index_ s + len) in
  _ ← ASSERT (next <? McastBufferSize);
  Ok {| socket_fd_ := socket_fd_ s;
        outbound_data_ := out;
        next_send_valid_index_ := next;
        inbound_data_ := inbound_data_ s;
        next_rcv_valid_index_ := next_rcv_valid_index_ s;
        time_str_ := time_str_ s |}.

(** What the outside gives to one call of [sendAndRecv]: the return
    value of [recv] and the bytes it delivered, the return value of
    [::send], and the answers of [ctime] at the two log calls. *)
Record io : Type := mkIo {
  n_rcv : Z;
  rcv_bytes : list Byte.byte;
  n_sent : Z;
  now_at_read : string;
  now_at_send : string
}.

(** The type of [recv_callback_]: a callback sees the socket
    and the logger and may change both; [None] is the empty function. *)
Definition callback : Type := t -> Logger.t -> outcome (t * Logger.t).

Section SendAndRecv.
(** [__FILE__] in mcast_socket.cpp. *)
Variable source_file : string.

(** [McastSocket::sendAndRecv()]. [recv] stores the bytes it
    delivers at [inbound_data_.data() + next_rcv_valid_index_];
    calling an empty [recv_callback_] throws out of a [noexcept]
    function, which terminates the process. *)
Definition sendAndRecv (recv_callback_ : option callback) (env : io)
  (s : t) (logger_ : Logger.t) : outcome (bool * t * Logger.t) :=
  '(s, logger_) ←
    (if 0 <? n_rcv env then
       let next := size_t_wrap (next_rcv_valid_index_ s + n_rcv env) in
       let time_str := TimeUtils.getCurrentTimeStr (now_at_read env) in
       let s1 :=
         {| socket_fd_ := socket_fd_ s;
            outbound_data_ := outbound_data_ s;
            next_send_valid_index_ := next_send_valid_index_ s;
            inbound_data_ :=
              store_bytes (inbound_data_ s) (next_rcv_valid_index_ s)
                (take (Z.to_nat (n_rcv env)) (rcv_bytes env));
            next_rcv_valid_index_ := next;
            time_str_ := time_str |} in
       logger_ ← Logger.log "%:% %() % read socket:% len:%
"
             [ Logger.A_cstr source_file;
               Logger.A_scalar (Logger.S_int 23);
               Logger.A_cstr "sendAndRecv";
               Logger.A_string time_str;
               Logger.A_scalar (Logger.S_int (socket_fd_ s1));
               Logger.A_scalar (Logger.S_unsigned_long next) ] logger_;
           match recv_callback_ with
           | Some f => f s1 logger_
           | None => Aborted
           end
         else Ok (s, logger_));
      '(s, logger_) ←
        (if 0 <? next_send_valid_index_ s then
           let time_str := TimeUtils.getCurrentTimeStr (now_at_send env) in
           logger_ ← Logger.log "%:% %() % send socket:% len:%
"
             [ Logger.A_cstr source_file;
               Logger.A_scalar (Logger.S_int 31);
               Logger.A_cstr "sendAndRecv";
               Logger.A_string time_str;
               Logger.A_scalar (Logger.S_int (socket_fd_ s));
               Logger.A_scalar (Logger.S_long (n_sent env)) ] logger_;
           Ok ({| socket_fd_ := socket_fd_ s;
                  outbound_data_ := outbound_data_ s;
                  next_send_valid_index_ := next_send_valid_index_ s;
                  inbound_data_ := inbound_data_ s;
                  next_rcv_valid_index_ := next_rcv_valid_index_ s;
                  time_str_ := time_str |}, logger_)
         else Ok (s, logger_));
      Ok (0 <? n_rcv env,
          {| socket_fd_ := socket_fd_ s;
             outbound_data_ := outbound_data_ s;
             next_send_valid_index_ := 0;
             inbound_data_ := inbound_data_ s;
             next_rcv_valid_index_ := next_rcv_valid_index_ s;
             time_str_ := time_str_ s |},
          logger_).
End SendAndRecv.

End McastSocket.

(** ** The reactor: [TCPServer] *)

Module TCPServer.
Import SocketUtils.

(** A [TCPSocket *]. *)
Definition socket_ptr : Type := Z.

(** The fields of [TCPServer] the modelled functions use; the listener
    socket is its descriptor. *)
Record t : Type := mk {
  kqueue_fd_ : Z;
  listener_socket_fd_ : Z;
  receive_sockets_ : list socket_ptr;
  send_sockets_ : list socket_ptr
}.

(** What happens during one tick of [sendAndRecv], as noted by the
    functions it calls: a call of [TCPSocket::sendAndRecv] on a socket
    with the value it returned, a call of the batch-finished callback. *)
Inductive event : Type :=
| SocketSendAndRecv (socket : socket_ptr) (received : bool)
| RecvFinishedCallback.

Section Tick.
(** Everything the sockets and the callbacks act on: the sockets
    behind the pointers, the operating system, the application. *)
Context {World : Type}.
(** [TCPSocket::sendAndRecv()] on the socket behind a pointer: whether
    bytes were received and what the call did, unless it exits the
    process. Its definition (tcp_socket.cpp) is not part of the
    sources. *)
Variable socket_sendAndRecv : socket_ptr -> World -> outcome (bool * World).
(** [recv_finished_callback_], a [std::function<void()>] that is
    [nullptr] unless the application sets it: [None] is the empty
    function. *)
Variable recv_finished_callback_ : option (World -> outcome World).

(** [for_each(receive_sockets_.begin(), receive_sockets_.end(),
      [&recv](auto socket) { recv |= socket->sendAndRecv(); });]
    (the source has a blank inside the [|=]). *)
Fixpoint for_each_receive (sockets : list socket_ptr) (recv : bool) (w : World)
  : outcome (bool * World) :=
  match sockets with
  | [] => Ok (recv, w)
  | socket :: sockets' =>
      '(r, w1) ← socket_sendAndRecv socket w;
      for_each_receive sockets' (recv || r) w1
  end.

(** [for_each(send_sockets_.begin(), send_sockets_.end(),
      [](auto socket) { socket->sendAndRecv(); });] *)
Fixpoint for_each_send (sockets : list socket_ptr) (w : World) : outcome World :=
  match sockets with
  | [] => Ok w
  | socket :: sockets' =>
      '(_, w1) ← socket_sendAndRecv socket w;
      for_each_send sockets' w1
  end.

(** [if (recv) recv_finished_callback_();] Calling an empty
    [std::function] throws [std::bad_function_call] out of a
    [noexcept] function, which terminates the process. *)
Definition fire_if (recv : bool) (w : World) : outcome World :=
  if recv then
    match recv_finished_callback_ with
    | Some f => f w
    | None => Aborted
    end
  else Ok w.

(** [TCPServer::sendAndRecv()] *)
Definition sendAndRecv (srv : t) (w : World) : outcome World :=
  let recv := false in
  '(recv, w1) ← for_each_receive (receive_sockets_ srv) recv w;
  w2 ← fire_if recv w1;
  for_each_send (send_sockets_ srv) w2.

(** The same socket function and callback, each made to note its own
    invocation in a journal kept beside the world: what the journal
    holds after a tick is what the tick has called, in the order of the
    calls, with the values the socket calls returned. *)
Definition noting_socket (socket : socket_ptr) (wj : World * list event)
  : outcome (bool * (World * list event)) :=
  '(r, w1) ← socket_sendAndRecv socket (fst wj);
  Ok (r, (w1, snd wj ++ [SocketSendAndRecv socket r])).

Definition noting_callback : option (World * list event -> outcome (World * list event)) :=
  match recv_finished_callback_ with
  | Some f => Some (fun wj => w1 ← f (fst wj); Ok (w1, snd wj ++ [RecvFinishedCallback]))
  | None => None
  end.
End Tick.

Definition is_callback (e : event) : bool :=
  match e with
  | RecvFinishedCallback => true
  | SocketSendAndRecv _ _ => false
  end.

(** Number of times the batch-finished callback fired. *)
Definition callbacks_fired (evs : list event) : nat :=
  length (filter (fun e => is_callback e = true) evs).

(** The sockets [sendAndRecv] was invoked on, in order. *)
Definition invoked_on (evs : list event) : list socket_ptr :=
  omap (fun e => match e with
                 | SocketSendAndRecv s _ => Some s
                 | RecvFinishedCallback => None
                 end) evs.

(** The sockets that reported received bytes, in order. *)
Definition received_on (evs : list event) : list socket_ptr :=
  omap (fun e => match e with
                 | SocketSendAndRecv s true => Some s
                 | _ => None
                 end) evs.

Section Listen.
Variable source_file : string.
Variable source_line : Z.

(** Modelled from the spec: [TCPSocket::connect], which tcp_socket.h
    declares and whose definition (tcp_socket.cpp) is not part of the
    sources. Section 4.4: setup resolves an IP, creates a non-blocking
    descriptor, disables small-packet coalescing for stream sockets,
    and either binds and listens or connects, optionally requesting
    receive timestamps. That is [createSocket] on a stream
    configuration; [needs_so_timestamp] is the optional request. *)
Definition TCPSocket_connect (needs_so_timestamp : bool) (os : OS) (logger : Logger.t)
  (ip iface : string) (port : Z) (is_listening : bool) (tr : list syscall)
  : outcome (Z * Logger.t * list syscall) :=
  createSocket source_file source_line os logger
    (mkCfg ip iface port false is_listening needs_so_timestamp) tr.

(** [addToEpollList(socket)]: [return kevent(kqueue_fd_, &ev, 1, nullptr, 0, nullptr) != 1;] *)
Definition addToEpollList (os : OS) (srv : t) (socket_fd : Z) (tr : list syscall)
  : bool * list syscall :=
  let '(r, tr1) := sys os (Sys_kevent_add_read (kqueue_fd_ srv) socket_fd) tr in
  (negb (r =? 1), tr1).

(** [TCPServer::listen(iface, port)] *)
Definition listen (needs_so_timestamp : bool) (os : OS) (logger : Logger.t) (srv : t)
  (iface : string) (port : Z) (tr : list syscall)
  : outcome (t * Logger.t * list syscall) :=
  let '(kq, tr) := sys os Sys_kqueue tr in
  _ ← ASSERT (0 <=? kq);
  let srv := {| kqueue_fd_ := kq;
                listener_socket_fd_ := listener_socket_fd_ srv;
                receive_sockets_ := receive_sockets_ srv;
                send_sockets_ := send_sockets_ srv |} in
  '(fd, logger, tr) ←
    TCPSocket_connect needs_so_timestamp os logger EmptyString iface port true tr;
  _ ← ASSERT (0 <=? fd);
  let srv := {| kqueue_fd_ := kqueue_fd_ srv;
                listener_socket_fd_ := fd;
                receive_sockets_ := receive_sockets_ srv;
                send_sockets_ := send_sockets_ srv |} in
  let '(added, tr) := addToEpollList os srv fd tr in
  _ ← ASSERT added;
  Ok (srv, logger, tr).
End Listen.

End TCPServer.

(** ** The thread affinity helpers (cpu sets for macOS) *)

Module CpuAffinity.

Definition uint32_wrap (z : Z) : Z := z mod 2 ^ 32.

(** An [unsigned] value converted to [int]. *)
Definition int_of_uint32 (z : Z) : Z := if z <? 2 ^ 31 then z else z - 2 ^ 32.

(** [typedef struct cpu_set { uint32_t count; } cpu_set_t;] *)
Record cpu_set_t : Type := mkCpuSet {
  count : Z
}.

(** [(1 << num)] on [int], as the [unsigned] value the bit operations
    use: defined for a shift count from 0 to 31. *)
Definition bit_of (num : Z) : outcome Z :=
  if (0 <=? num) && (num <? 32) then Ok (Z.shiftl 1 num) else Undefined.

(** [CPU_ZERO(cs)]: [cs->count = 0;] *)
Definition CPU_ZERO (cs : cpu_set_t) : cpu_set_t := mkCpuSet 0.

(** [CPU_SET(num, cs)]: [cs->count |= (1 << num);] *)
Definition CPU_SET (num : Z) (cs : cpu_set_t) : outcome cpu_set_t :=
  b ← bit_of num;
  Ok (mkCpuSet (uint32_wrap (Z.lor (count cs) b))).

(** [CPU_ISSET(num, cs)]: [return (cs->count & (1 << num));] *)
Definition CPU_ISSET (num : Z) (cs : cpu_set_t) : outcome Z :=
  b ← bit_of num;
  Ok (int_of_uint32 (Z.land (count cs) b)).

(** The loop of [sched_getaffinity]:
    [for (int i = 0; i < core_count; i++) cpu_set->count |= (1 << i);]
    from [i] on, with [rounds] rounds left. *)
Fixpoint set_cores (rounds : nat) (i : Z) (cs : cpu_set_t) : outcome cpu_set_t :=
  match rounds with
  | O => Ok cs
  | S rounds' =>
      cs1 ← CPU_SET i cs;
      set_cores rounds' (i + 1) cs1
  end.

(** [sched_getaffinity(pid, cpu_size, cpu_set)]: [ret] and [core_count]
    are what [sysctlbyname] returns and stores. The result carries the
    value returned and the cpu set. *)
Definition sched_getaffinity (ret core_count : Z) (cpu_set : cpu_set_t)
  : outcome (Z * cpu_set_t) :=
  if negb (ret =? 0) then Ok (-1, cpu_set)
  else
    cs ← set_cores (Z.to_nat core_count) 0 (mkCpuSet 0);
    Ok (0, cs).

(** The loop of [pthread_setaffinity_np]:
    [for (core = 0; core < (8 * cpu_size); core++)
       if (CPU_ISSET(core, cpu_set)) break;]
    from [core] on, with [rounds] rounds left. *)
Fixpoint first_core (rounds : nat) (core : Z) (cpu_set : cpu_set_t) : outcome Z :=
  match rounds with
  | O => Ok core
  | S rounds' =>
      r ← CPU_ISSET core cpu_set;
      if negb (r =? 0) then Ok core
      else first_core rounds' (core + 1) cpu_set
  end.

(** [pthread_setaffinity_np(thread, cpu_size, cpu_set)]: the result
    carries the value returned and the core given to
    [thread_policy_set]. *)
Definition pthread_setaffinity_np (cpu_size : Z) (cpu_set : cpu_set_t)
  : outcome (Z * Z) :=
  core ← first_core (Z.to_nat (8 * cpu_size)) 0 cpu_set;
  Ok (0, core).

End CpuAffinity.

(** ** Sequences of calls on the queue and on the pool *)

Module LFQueueUse.
Section WithElem.
Context {T : Type}.

(** One push, the body of [Logger::pushValue(const LogElement &)]:
    [*(queue_.getNextToWrite()) = v; queue_.updateWriteIndex();] *)
Definition push (q : LFQueue.t T) (v : T) : outcome (LFQueue.t T) :=
  q1 ← LFQueue.write_slot q (LFQueue.getNextToWrite q) v;
  LFQueue.updateWriteIndex q1.

(** One read, a round of the loop of [Logger::flushQueue]:
    [next = queue_.getNextToRead()]; when it is not null the element is
    read through it and [queue_.updateReadIndex()] is called. *)
Definition pop (q : LFQueue.t T) : outcome (LFQueue.t T * option T) :=
  match LFQueue.getNextToRead q with
  | None => Ok (q, None)
  | Some next =>
      x ← LFQueue.read_slot q next;
      q1 ← LFQueue.updateReadIndex q;
      Ok (q1, Some x)
  end.

Inductive op : Type :=
| Push (v : T)
| Pop.

(** The elements pushed by a sequence of calls, in order. *)
Fixpoint pushes (ops : list op) : list T :=
  match ops with
  | [] => []
  | Push v :: ops' => v :: pushes ops'
  | Pop :: ops' => pushes ops'
  end.

(** Runs a sequence of calls; the list holds the elements read, in order. *)
Fixpoint run (ops : list op) (q : LFQueue.t T) : outcome (LFQueue.t T * list T) :=
  match ops with
  | [] => Ok (q, [])
  | Push v :: ops' =>
      q1 ← push q v;
      run ops' q1
  | Pop :: ops' =>
      '(q1, r) ← pop q;
      '(q2, rs) ← run ops' q1;
      Ok (q2, match r with Some x => x :: rs | None => rs end)
  end.

(** The caller's side of the contract: starting with [n] elements in a
    queue of capacity [N], no push of the sequence is made on a full
    queue. *)
Fixpoint never_overfull (N : Z) (n : Z) (ops : list op) : bool :=
  match ops with
  | [] => true
  | Push _ :: ops' => (n <? N) && never_overfull N (n + 1) ops'
  | Pop :: ops' => never_overfull N (Z.max 0 (n - 1)) ops'
  end.

End WithElem.
Arguments op : clear implicits.
End LFQueueUse.

Module MemPoolUse.
Section WithElem.
Context {T : Type}.

Inductive op : Type :=
| Allocate (v : T)
| Deallocate (elem_index : Z).

Definition is_allocate (o : op) : bool :=
  match o with Allocate _ => true | Deallocate _ => false end.

(** Runs a sequence of calls; the list holds the handles [allocate]
    returned, in order. *)
Fixpoint run (ops : list op) (p : MemPool.t T) : outcome (MemPool.t T * list Z) :=
  match ops with
  | [] => Ok (p, [])
  | Allocate v :: ops' =>
      '(p1, h) ← MemPool.allocate p v;
      '(p2, hs) ← run ops' p1;
      Ok (p2, h :: hs)
  | Deallocate i :: ops' =>
      p1 ← MemPool.deallocate p i;
      run ops' p1
  end.

(** Number of calls of [allocate] and of [deallocate] in a sequence. *)
Definition allocations (ops : list op) : nat :=
  length (List.filter is_allocate ops).
Definition deallocations (ops : list op) : nat :=
  length (List.filter (fun o => negb (is_allocate o)) ops).

End WithElem.
Arguments op : clear implicits.
End MemPoolUse.

(** ** Consecutive calls of the logger *)

Module LoggerUse.

(** Consecutive calls [log(s, args...)] on one logger, each given by
    its format string and its arguments. *)
Fixpoint log_all (calls : list (string * list Logger.arg)) (lg : Logger.t)
  : outcome Logger.t :=
  match calls with
  | [] => Ok lg
  | (s, args) :: calls' =>
      lg1 ← Logger.log s args lg;
      log_all calls' lg1
  end.

(** Number of elements the calls can push at most. *)
Definition calls_elements (calls : list (string * list Logger.arg)) : nat :=
  list_sum (map (fun c => Logger.log_elements (fst c) (snd c)) calls).

(** Every call has as many arguments as its format string has [%] that
    stand for one. *)
Definition calls_match (calls : list (string * list Logger.arg)) : Prop :=
  Forall (fun c => Logger.spec_placeholders (Logger.c_str (fst c)) = length (snd c)) calls.

Section Texts.
Variable show_float : Z -> string.
Variable show_double : Z -> string.

(** The text the calls stand for: the substitution of each, one after
    the other. *)
Fixpoint calls_text (calls : list (string * list Logger.arg)) : string :=
  match calls with
  | [] => EmptyString
  | (s, args) :: calls' =>
      String.append
        (Logger.spec_substitute (Logger.c_str s)
           (map (Logger.arg_text show_float show_double) args))
        (calls_text calls')
  end.
End Texts.

(** A step of the life of a logger, seen from outside: a call of [log]
    by the producer, or a round of the [while (running_)] loop of
    [flushQueue] on the logger thread. *)
Inductive step : Type :=
| Log (s : string) (args : list Logger.arg)
| Flush.

Section Steps.
Variable show_float : Z -> string.
Variable show_double : Z -> string.

Fixpoint run (steps : list step) (lg : Logger.t) : outcome Logger.t :=
  match steps with
  | [] => Ok lg
  | Log s args :: steps' =>
      lg1 ← Logger.log s args lg;
      run steps' lg1
  | Flush :: steps' =>
      lg1 ← Logger.flushQueue_round show_float show_double lg;
      run steps' lg1
  end.
End Steps.

(** The calls of [log] among the steps, in order. *)
Fixpoint calls_of (steps : list step) : list (string * list Logger.arg) :=
  match steps with
  | [] => []
  | Log s args :: steps' => (s, args) :: calls_of steps'
  | Flush :: steps' => calls_of steps'
  end.

(** The queue of capacity [N] can take what is pushed between two
    rounds of the flush task: [n] bounds the number of elements waiting
    at the start. *)
Fixpoint room_between_flushes (N : Z) (n : nat) (steps : list step) : Prop :=
  match steps with
  | [] => True
  | Log s args :: steps' =>
      Z.of_nat (n + Logger.log_elements s args) <= N /\
      room_between_flushes N (n + Logger.log_elements s args) steps'
  | Flush :: steps' => room_between_flushes N 0 steps'
  end.

End LoggerUse.

(** ** The system calls a trace holds *)

Module SyscallTrace.
Import SocketUtils.

Definition is_getaddrinfo (c : syscall) : bool :=
  match c with Sys_getaddrinfo _ _ _ => true | _ => false end.
Definition is_socket (c : syscall) : bool :=
  match c with Sys_socket _ _ _ => true | _ => false end.
Definition is_connect (c : syscall) : bool :=
  match c with Sys_connect _ _ _ => true | _ => false end.
Definition is_listen (c : syscall) : bool :=
  match c with Sys_listen _ _ => true | _ => false end.
Definition is_nodelay (c : syscall) : bool :=
  match c with Sys_setsockopt _ TCP_NODELAY => true | _ => false end.
Definition is_reuseaddr (c : syscall) : bool :=
  match c with Sys_setsockopt _ SO_REUSEADDR => true | _ => false end.
Definition is_timestamp (c : syscall) : bool :=
  match c with Sys_setsockopt _ SO_TIMESTAMP => true | _ => false end.
Definition is_kevent_add (c : syscall) : bool :=
  match c with Sys_kevent_add_read _ _ => true | _ => false end.

(** Number of calls of a kind in a trace. *)
Definition calls (kind : syscall -> bool) (tr : list syscall) : nat :=
  length (List.filter kind tr).

(** The descriptor a call acts on, for the calls that take one. *)
Definition descriptor (c : syscall) : option Z :=
  match c with
  | Sys_fcntl_getfl fd | Sys_fcntl_setfl fd _ | Sys_setsockopt fd _
  | Sys_connect fd _ _ | Sys_bind fd _ _ | Sys_listen fd _ => Some fd
  | _ => None
  end.

(** An operating system as [os_all_succeed] but for two answers: what
    [connect] returns and what [kevent] returns for a registration. *)
Definition os_answering (connect_ret kevent_ret : Z) : OS :=
  {| sys_ret := fun _ c =>
       match c with
       | Sys_socket _ _ _ => 7
       | Sys_kqueue => 5
       | Sys_connect _ _ _ => connect_ret
       | Sys_kevent_add_read _ _ => kevent_ret
       | _ => 0
       end;
     gai_result := [mkAddrinfo 2 1 6 100 16];
     iface_ip := fun _ => "127.0.0.1"%string;
     ctime_now := "Thu Sep 20 14:55:02 2023
"%string;
     O_NONBLOCK := 4 |}.

End SyscallTrace.

(** ** TCPServer::poll (tcp_server.cpp) *)

Module TCPServerPoll.
Import SocketUtils.

(** [event.filter], as far as the code tells filters apart. *)
Inductive filter_t : Type :=
| EVFILT_READ
| EVFILT_WRITE
| EVFILT_other.

(** The fields of a [struct kevent] the code reads: [filter],
    [flags & EV_ERROR] and [udata], the socket pointer stored at the
    registration. *)
Record kevent_t : Type := mkEvent {
  filter : filter_t;
  ev_error : bool;
  udata : TCPServer.socket_ptr
}.

(** The sockets made by [new TCPSocket], the newest first, each with
    its [socket_fd_]. *)
Definition heap : Type := list (TCPServer.socket_ptr * Z).

Fixpoint heap_lookup (h : heap) (socket : TCPServer.socket_ptr) : option Z :=
  match h with
  | [] => None
  | (p, fd) :: h' => if socket =? p then Some fd else heap_lookup h' socket
  end.

(** What [poll] acts on: the server, the sockets made by
    [new TCPSocket], the logger and the trace of the calls made through
    [OS]. *)
Record state : Type := mkState {
  server : TCPServer.t;
  heap_ : heap;
  logger_ : Logger.t;
  trace : list syscall
}.

(** [socket->socket_fd_] for a socket made by [new]; a pointer to none
    of them cannot be dereferenced. *)
Definition socket_fd_ (st : state) (socket : TCPServer.socket_ptr) : option Z :=
  heap_lookup (heap_ st) socket.

Definition is_read (f : filter_t) : bool :=
  match f with EVFILT_READ => true | _ => false end.
Definition is_write (f : filter_t) : bool :=
  match f with EVFILT_WRITE => true | _ => false end.

(** [if (find(v.begin(), v.end(), socket) == v.end()) v.push_back(socket);] *)
Definition push_back_if_absent (socket : TCPServer.socket_ptr)
  (v : list TCPServer.socket_ptr) : list TCPServer.socket_ptr :=
  if bool_decide (socket ∈ v) then v else v ++ [socket].

Definition set_logger (st : state) (lg : Logger.t) : state :=
  {| server := server st; heap_ := heap_ st; logger_ := lg; trace := trace st |}.

Definition add_receive (socket : TCPServer.socket_ptr) (st : state) : state :=
  {| server :=
       {| TCPServer.kqueue_fd_ := TCPServer.kqueue_fd_ (server st);
          TCPServer.listener_socket_fd_ := TCPServer.listener_socket_fd_ (server st);
          TCPServer.receive_sockets_ :=
            push_back_if_absent socket (TCPServer.receive_sockets_ (server st));
          TCPServer.send_sockets_ := TCPServer.send_sockets_ (server st) |};
     heap_ := heap_ st; logger_ := logger_ st; trace := trace st |}.

Definition add_send (socket : TCPServer.socket_ptr) (st : state) : state :=
  {| server :=
       {| TCPServer.kqueue_fd_ := TCPServer.kqueue_fd_ (server st);
          TCPServer.listener_socket_fd_ := TCPServer.listener_socket_fd_ (server st);
          TCPServer.receive_sockets_ := TCPServer.receive_sockets_ (server st);
          TCPServer.send_sockets_ :=
            push_back_if_absent socket (TCPServer.send_sockets_ (server st)) |};
     heap_ := heap_ st; logger_ := logger_ st; trace := trace st |}.

Section Poll.
(** [__FILE__] in tcp_server.cpp. *)
Variable source_file : string.
Variable os : OS.
(** [&listener_socket_] *)
Variable listener : TCPServer.socket_ptr.
(** The address [new TCPSocket(logger_)] returns, given the sockets
    made so far. *)
Variable new_socket : heap -> TCPServer.socket_ptr.

(** [socket->socket_fd_] *)
Definition deref_fd (st : state) (socket : TCPServer.socket_ptr) : outcome Z :=
  if socket =? listener then Ok (TCPServer.listener_socket_fd_ (server st))
  else
    match socket_fd_ st socket with
    | Some fd => Ok fd
    | None => Undefined
    end.

(** [logger_.log(fmt, __FILE__, __LINE__, __FUNCTION__,
                 Common::getCurrentTimeStr(&time_str_), fd);] *)
Definition log_fd (fmt : string) (line : Z) (fd : Z) (st : state) : outcome state :=
  lg ← Logger.log fmt
         [ Logger.A_cstr source_file;
           Logger.A_scalar (Logger.S_int line);
           Logger.A_cstr "poll";
           Logger.A_string (TimeUtils.getCurrentTimeStr (ctime_now os));
           Logger.A_scalar (Logger.S_int fd) ] (logger_ st);
  Ok (set_logger st lg).

(** The body of [for (int i = 0; i < n; ++i)] for the event
    [events_[i]]; the first branch is the one that ends in [continue]. *)
Definition poll_event (event : kevent_t) (st : state) (have_new_connection : bool)
  : outcome (state * bool) :=
  let socket := udata event in
  if is_read (filter event) && (socket =? listener) then
    fd ← deref_fd st socket;
    st ← log_fd "%:% %() % EVFILT_READ listener_socket:%
" 47 fd st;
        Ok (st, true)
      else
        st ← (if is_read (filter event) then
                fd ← deref_fd st socket;
                st ← log_fd "%:% %() % EVFILT_READ socket:%
" 53 fd st;
                    Ok (add_receive socket st)
                  else Ok st);
            st ← (if is_write (filter event) then
                    fd ← deref_fd st socket;
                    st ← log_fd "%:% %() % EVFILT_WRITE socket:%
" 62 fd st;
                        Ok (add_send socket st)
                      else Ok st);
                st ← (if ev_error event then
                        fd ← deref_fd st socket;
                        st ← log_fd "%:% %() % EV_ERROR socket:%
" 71 fd st;
                            Ok (add_receive socket st)
                          else Ok st);
                    Ok (st, have_new_connection).

(** The loop over [events_[0]], ..., [events_[n - 1]]. *)
Fixpoint poll_events (events : list kevent_t) (st : state) (have_new_connection : bool)
  : outcome (state * bool) :=
  match events with
  | [] => Ok (st, have_new_connection)
  | event :: events' =>
      '(st1, have1) ← poll_event event st have_new_connection;
      poll_events events' st1 have1
  end.

(** [ASSERT(setNonBlocking(fd) && disableNagle(fd), ...)]: the second
    call is made only when the first returned true. *)
Definition make_nonblocking_nodelay (fd : Z) (tr : list syscall) : bool * list syscall :=
  let '(nb, tr1) := setNonBlocking os fd tr in
  if nb then disableNagle os fd tr1 else (false, tr1).

(** [while (have_new_connection) { ... }]. [accepts] holds the values
    the calls of [accept] return, in order; a call made when they are
    used up returns -1 (nothing is waiting on the non-blocking
    listener). The loop is left when [accept] returns -1. *)
Fixpoint accept_loop (accepts : list Z) (st : state) : outcome state :=
  lg ← Logger.log "%:% %() % have_new_connection
"
         [ Logger.A_cstr source_file;
           Logger.A_scalar (Logger.S_int 80);
           Logger.A_cstr "poll";
           Logger.A_string (TimeUtils.getCurrentTimeStr (ctime_now os)) ] (logger_ st);
      let st := set_logger st lg in
      match accepts with
      | [] => Ok st
      | fd :: accepts' =>
          if fd =? -1 then Ok st
          else
            let '(ok, tr) := make_nonblocking_nodelay fd (trace st) in
            _ ← ASSERT ok;
            let st := {| server := server st; heap_ := heap_ st;
                         logger_ := logger_ st; trace := tr |} in
            st ← log_fd "%:% %() % accepted socket:%
" 88 fd st;
                let socket := new_socket (heap_ st) in
                let '(r, tr) :=
                  sys os (Sys_kevent_add_read (TCPServer.kqueue_fd_ (server st)) fd)
                    (trace st) in
                _ ← ASSERT (negb (r =? -1));
                let st := {| server := server st;
                             heap_ := (socket, fd) :: heap_ st;
                             logger_ := logger_ st; trace := tr |} in
                accept_loop accepts' (add_receive socket st)
      end.

(** [TCPServer::poll()]. [ready] holds the events waiting in the
    kernel queue, [None] when [kevent] fails and returns -1; the kernel
    stores the first [max_events] of them in [events_], which has room
    for 1024. *)
Definition poll (ready : option (list kevent_t)) (accepts : list Z) (st : state)
  : outcome state :=
  let max_events :=
    1 + Z.of_nat (length (TCPServer.send_sockets_ (server st)))
      + Z.of_nat (length (TCPServer.receive_sockets_ (server st))) in
  match ready with
  | None => Ok st
  | Some waiting =>
      let events := take (Z.to_nat max_events) waiting in
      if 1024 <? Z.of_nat (length events) then Undefined
      else
        '(st, have_new_connection) ← poll_events events st false;
        if (have_new_connection : bool) then accept_loop accepts st else Ok st
  end.

End Poll.

(** The sockets added to a list by an event of the loop. *)
Definition receive_candidates (listener : TCPServer.socket_ptr) (events : list kevent_t)
  : list TCPServer.socket_ptr :=
  map udata
    (List.filter (fun e => (is_read (filter e) || ev_error e)
                           && negb (is_read (filter e) && (udata e =? listener))) events).

Definition send_candidates (listener : TCPServer.socket_ptr) (events : list kevent_t)
  : list TCPServer.socket_ptr :=
  map udata
    (List.filter (fun e => is_write (filter e)
                           && negb (is_read (filter e) && (udata e =? listener))) events).

(** A read event on the listener is among the events. *)
Definition listener_readable (listener : TCPServer.socket_ptr) (events : list kevent_t)
  : bool :=
  existsb (fun e => is_read (filter e) && (udata e =? listener)) events.

End TCPServerPoll.

(** ** The buffers of the multicast socket over several calls *)

Module McastSocketUse.
Import McastSocket.

(** Consecutive calls [send(d.data(), d.size())], one for each [d]. *)
Fixpoint send_all (ds : list (list Byte.byte)) (s : t) : outcome t :=
  match ds with
  | [] => Ok s
  | d :: ds' =>
      s1 ← send s d (Z.of_nat (length d));
      send_all ds' s1
  end.

(** The bytes [sendAndRecv] hands to [::send]: the [next_send_valid_index_]
    bytes at [outbound_data_.data()]. *)
Definition outbound_pending (s : t) : list Byte.byte :=
  take (Z.to_nat (next_send_valid_index_ s)) (outbound_data_ s).

(** The bytes a receive callback finds: the [next_rcv_valid_index_]
    bytes at [inbound_data_.data()]. *)
Definition inbound_pending (s : t) : list Byte.byte :=
  take (Z.to_nat (next_rcv_valid_index_ s)) (inbound_data_ s).

End McastSocketUse.

(** ** Predicates used in the statements *)

(** The queue [q] of capacity [N] holds exactly the elements [pending],
    oldest first, in the slots from the read index on. *)
Record holds {T : Type} (N : Z) (q : LFQueue.t T) (pending : list T) : Prop := {
  holds_cap : LFQueue.capacity q = N;
  holds_N : 0 < N < 2 ^ 64;
  holds_r : 0 <= LFQueue.next_read_index_ q < N;
  holds_count : LFQueue.num_elements_ q = Z.of_nat (length pending);
  holds_le : Z.of_nat (length pending) <= N;
  holds_w : LFQueue.next_write_index_ q
            = (LFQueue.next_read_index_ q + LFQueue.num_elements_ q) mod N;
  holds_slots : forall i : nat, (i < length pending)%nat ->
    LFQueue.store_ q !! Z.to_nat ((LFQueue.next_read_index_ q + Z.of_nat i) mod N)
    = pending !! i
}.

(** What links the two threads to the sequence [vs] the producer
    writes: [vs] is what the consumer is done with, then what the queue
    holds, then what the producer has still to write; a producer
    between two of its steps holds the pointer to the slot at the write
    index, or has stored its element there; a consumer between two of
    its steps holds the pointer to the slot at the read index of a
    queue that is not empty, or has read the oldest element without
    having released it. *)
Definition threads_inv {T : Type} (N : Z) (vs : list T) (c : LFQueue.threads T) : Prop :=
  exists pending consumed : list T,
    holds N (LFQueue.queue c) pending /\
    vs = consumed ++ pending ++ LFQueue.todo c /\
    Z.of_nat (length vs) <= N /\
    match LFQueue.ppc c, LFQueue.todo c with
    | LFQueue.PIdle, _ => True
    | LFQueue.PGot p, _ :: _ => p = LFQueue.next_write_index_ (LFQueue.queue c)
    | LFQueue.PStored, v :: _ =>
        LFQueue.store_ (LFQueue.queue c)
          !! Z.to_nat (LFQueue.next_write_index_ (LFQueue.queue c)) = Some v
    | _, [] => False
    end /\
    match LFQueue.cpc c with
    | LFQueue.CIdle => LFQueue.reads c = consumed
    | LFQueue.CGot next =>
        LFQueue.reads c = consumed /\
        next = LFQueue.next_read_index_ (LFQueue.queue c) /\
        pending <> []
    | LFQueue.CRead =>
        exists x pending', pending = x :: pending' /\ LFQueue.reads c = consumed ++ [x]
    end.

(** Number of steps the producer still needs. *)
Definition producer_steps_left {T : Type} (c : LFQueue.threads T) : nat :=
  match LFQueue.todo c with
  | [] => O
  | _ :: _ =>
      3 * length (LFQueue.todo c)
      - match LFQueue.ppc c with
        | LFQueue.PIdle => 0
        | LFQueue.PGot _ => 1
        | LFQueue.PStored => 2
        end
  end.

(** Number of steps the consumer needs to empty the queue. *)
Definition consumer_steps_left {T : Type} (c : LFQueue.threads T) : nat :=
  3 * Z.to_nat (LFQueue.size (LFQueue.queue c))
  - match LFQueue.cpc c with
    | LFQueue.CIdle => 0
    | LFQueue.CGot _ => 1
    | LFQueue.CRead => 2
    end.

(** An empty queue whose indices are in range. *)
Definition LFQueue_idle {T : Type} (q : LFQueue.t T) : Prop :=
  LFQueue.num_elements_ q = 0 /\
  LFQueue.next_write_index_ q = LFQueue.next_read_index_ q /\
  0 <= LFQueue.next_read_index_ q < LFQueue.capacity q /\
  LFQueue.capacity q < 2 ^ 64.

(** A queue the producer can write to: its write index is in range. *)
Definition LFQueue_writable {T : Type} (q : LFQueue.t T) : Prop :=
  0 <= LFQueue.next_write_index_ q < LFQueue.capacity q /\
  LFQueue.capacity q < 2 ^ 64.

(** The kind tag of an element names the active member of its union. *)
Definition well_tagged (e : Logger.LogElement) : Prop :=
  match Logger.type_ e, Logger.u_ e with
  | Logger.CHAR, Logger.U_c _
  | Logger.INTEGER, Logger.U_i _
  | Logger.LONG_INTEGER, Logger.U_l _
  | Logger.LONG_LONG_INTEGER, Logger.U_ll _
  | Logger.UNSIGNED_INTEGER, Logger.U_u _
  | Logger.UNSIGNED_LONG_INTEGER, Logger.U_ul _
  | Logger.UNSIGNED_LONG_LONG_INTEGER, Logger.U_ull _
  | Logger.FLOAT, Logger.U_f _
  | Logger.DOUBLE, Logger.U_d _ => True
  | _, _ => False
  end.

(** The element each scalar overload of [pushValue] builds. *)
Definition scalar_element (value : Logger.scalar) : Logger.LogElement :=
  match value with
  | Logger.S_char v => Logger.mkElement Logger.CHAR (Logger.U_c v)
  | Logger.S_int v => Logger.mkElement Logger.INTEGER (Logger.U_i v)
  | Logger.S_long v => Logger.mkElement Logger.LONG_INTEGER (Logger.U_l v)
  | Logger.S_long_long v => Logger.mkElement Logger.LONG_LONG_INTEGER (Logger.U_ll v)
  | Logger.S_unsigned v => Logger.mkElement Logger.UNSIGNED_INTEGER (Logger.U_u v)
  | Logger.S_unsigned_long v => Logger.mkElement Logger.UNSIGNED_LONG_INTEGER (Logger.U_ul v)
  | Logger.S_unsigned_long_long v =>
      Logger.mkElement Logger.UNSIGNED_LONG_LONG_INTEGER (Logger.U_ull v)
  | Logger.S_float v => Logger.mkElement Logger.FLOAT (Logger.U_f v)
  | Logger.S_double v => Logger.mkElement Logger.DOUBLE (Logger.U_d v)
  end.

(** The element [pushValue(char)] builds. *)
Definition char_element (c : ascii) : Logger.LogElement :=
  Logger.mkElement Logger.CHAR (Logger.U_c c).

(** The text of the active member of an element. *)
Definition element_text (show_float show_double : Z -> string) (e : Logger.LogElement)
  : string :=
  match Logger.u_ e with
  | Logger.U_c v => Logger.show_char v
  | Logger.U_i v | Logger.U_l v | Logger.U_ll v => Logger.show_Z v
  | Logger.U_u v | Logger.U_ul v | Logger.U_ull v => Logger.show_Z v
  | Logger.U_f v => show_float v
  | Logger.U_d v => show_double v
  end.

Definition elements_text (show_float show_double : Z -> string)
  (es : list Logger.LogElement) : string :=
  fold_right (fun e txt => String.append (element_text show_float show_double e) txt)
    EmptyString es.

(** The four ways a format string can begin, as the loops of [log]
    tell them apart: at its end, at an escaped [%], at a [%] that stands
    for an argument, at any other character. *)
Inductive fmt_case (s : string) : Prop :=
| fmt_end :
    s = EmptyString \/ (exists s1, s = String TimeUtils.NUL s1) -> fmt_case s
| fmt_escape (s2 : string) :
    s = String Logger.percent (String Logger.percent s2) -> fmt_case s
| fmt_subst (s1 : string) :
    s = String Logger.percent s1 ->
    (forall s2, s1 <> String Logger.percent s2) -> fmt_case s
| fmt_char (c : ascii) (s1 : string) :
    s = String c s1 -> c <> TimeUtils.NUL -> c <> Logger.percent -> fmt_case s.

(** A trace without a call of [bind]. *)
Definition is_bind (c : SocketUtils.syscall) : bool :=
  match c with
  | SocketUtils.Sys_bind _ _ _ => true
  | _ => false
  end.

Definition no_bind (tr : list SocketUtils.syscall) : Prop :=
  Forall (fun c => is_bind c = false) tr.

(** An operating system on which every call succeeds: [socket] returns
    the descriptor 7, [kqueue] the descriptor 5, every other call 0;
    [getaddrinfo] finds one IPv4 stream address; [O_NONBLOCK] is 4. *)
Definition os_all_succeed : SocketUtils.OS :=
  {| SocketUtils.sys_ret := fun _ c =>
       match c with
       | SocketUtils.Sys_socket _ _ _ => 7
       | SocketUtils.Sys_kqueue => 5
       | _ => 0
       end;
     SocketUtils.gai_result := [SocketUtils.mkAddrinfo 2 1 6 100 16];
     SocketUtils.iface_ip := fun _ => "127.0.0.1"%string;
     SocketUtils.ctime_now := "Thu Sep 20 14:55:02 2023
"%string;
     SocketUtils.O_NONBLOCK := 4 |}.

(** A listening stream configuration on port 8080 of the loopback interface. *)
Definition listening_cfg : SocketUtils.SocketCfg :=
  SocketUtils.mkCfg EmptyString "lo" 8080 false true false.

(** The block [i] of the pool exists and is free. *)
Definition block_free {T : Type} (p : MemPool.t T) (i : Z) : Prop :=
  exists b, MemPool.block_at p i = Ok b /\ MemPool.is_free_ b = true.

(** The state of a pool between two calls: the next free index is in
    range and the block it names is free. *)
Definition pool_ready {T : Type} (p : MemPool.t T) : Prop :=
  0 <= MemPool.next_free_index_ p < MemPool.capacity p /\
  MemPool.capacity p < 2 ^ 64 /\
  block_free p (MemPool.next_free_index_ p).

(** Between [lg] and [lg'] exactly the elements [es] were pushed. *)
Definition pushed (lg lg' : Logger.t) (es : list Logger.LogElement) : Prop :=
  Logger.file_ lg' = Logger.file_ lg /\
  forall (N : Z) (pending : list Logger.LogElement),
    holds N (Logger.queue_ lg) pending ->
    Z.of_nat (length pending + length es) <= N ->
    holds N (Logger.queue_ lg') (pending ++ es).

(** Every socket of the receive list and every socket an event names
    can be dereferenced: it is the listener or was made by [new]. *)
Definition socket_known (listener : TCPServer.socket_ptr) (st : TCPServerPoll.state)
  (socket : TCPServer.socket_ptr) : Prop :=
  socket = listener \/ TCPServerPoll.socket_fd_ st socket <> None.

(** An allocator for the sockets [poll] makes: an address past the
    listener and past every socket made so far. *)
Definition fresh_socket (listener : TCPServer.socket_ptr) (h : TCPServerPoll.heap)
  : TCPServer.socket_ptr :=
  1 + fold_right Z.max listener (map fst h).

(* ================================================================== *)
(** * Properties *)
(* ================================================================== *)

(** ** Generic facts *)

Ltac split4 := split; [| split; [| split]].

Lemma bind_Ok_inv {A B : Type} (m : outcome A) (k : A -> outcome B) (b : B) :
  (m ≫= k) = Ok b -> exists a, m = Ok a /\ k a = Ok b.
Proof. destruct m as [a| | |]; simpl; intros H; try discriminate. exists a. auto. Qed.

Lemma bind_Ok_l {A B : Type} (a : A) (k : A -> outcome B) : (Ok a ≫= k) = k a.
Proof. reflexivity. Qed.

Lemma size_t_wrap_small (z : Z) : 0 <= z < 2 ^ 64 -> size_t_wrap z = z.
Proof. intros H. unfold size_t_wrap. apply Z.mod_small. exact H. Qed.

Lemma size_t_wrap_range (z : Z) : 0 <= size_t_wrap z < 2 ^ 64.
Proof. unfold size_t_wrap. apply Z.mod_pos_bound. lia. Qed.

Lemma mod_offset_neq (N r i j : Z) :
  0 < N -> 0 <= i < j -> j < i + N -> (r + i) mod N <> (r + j) mod N.
Proof.
  intros HN Hij Hj Heq.
  assert (Hd : ((r + j) - (r + i)) mod N = 0).
  { rewrite Zminus_mod, Heq, Z.sub_diag. apply Z.mod_0_l. lia. }
  replace (r + j - (r + i)) with (j - i) in Hd by lia.
  rewrite Z.mod_small in Hd; lia.
Qed.

(** ** The ring buffer *)

Section LFQueueFacts.
Context {T : Type}.
Variable d : T.

Import LFQueue.

Lemma holds_create (N : Z) : 0 < N < 2 ^ 64 -> holds N (create d N) [].
Proof.
  intros HN. split; simpl.
  - unfold capacity; simpl. rewrite length_replicate. lia.
  - exact HN.
  - lia.
  - reflexivity.
  - lia.
  - rewrite Z.mod_0_l; lia.
  - intros i Hi. lia.
Qed.

(** *** One access at a time *)

Lemma holds_write_slot (N : Z) (q : LFQueue.t T) (pending : list T) (v : T) :
  holds N q pending -> Z.of_nat (length pending) < N ->
  exists q', write_slot q (next_write_index_ q) v = Ok q' /\
             holds N q' pending /\
             store_ q' !! Z.to_nat (next_write_index_ q') = Some v /\
             next_write_index_ q' = next_write_index_ q /\
             next_read_index_ q' = next_read_index_ q.
Proof.
  intros [Hcap HN Hr Hc Hle Hw Hs] Hlt.
  assert (Hwr : 0 <= next_write_index_ q < N).
  { rewrite Hw. apply Z.mod_pos_bound. lia. }
  unfold write_slot. rewrite Hcap.
  replace ((0 <=? next_write_index_ q) && (next_write_index_ q <? N)) with true
    by (symmetry; apply andb_true_iff; split; [apply Z.leb_le | apply Z.ltb_lt]; lia).
  eexists; split; [reflexivity|]. cbn [store_ next_write_index_ next_read_index_].
  split; [|split; [|split; reflexivity]].
  - split; cbn [store_ next_write_index_ next_read_index_ num_elements_]; try assumption.
    + unfold capacity; cbn [store_]. rewrite length_insert. exact Hcap.
    + intros i Hi. rewrite list_lookup_insert_ne; [apply Hs; exact Hi|].
      rewrite Hw, Hc. intros Heq. apply Z2Nat.inj in Heq;
        [| apply Z.mod_pos_bound; lia | apply Z.mod_pos_bound; lia].
      symmetry in Heq. revert Heq. apply mod_offset_neq; lia.
  - apply list_lookup_insert_eq. unfold capacity in Hcap. lia.
Qed.

Lemma holds_publish (N : Z) (q : LFQueue.t T) (pending : list T) (v : T) :
  holds N q pending -> Z.of_nat (length pending) < N ->
  store_ q !! Z.to_nat (next_write_index_ q) = Some v ->
  exists q', updateWriteIndex q = Ok q' /\
             holds N q' (pending ++ [v]) /\
             next_read_index_ q' = next_read_index_ q.
Proof.
  intros [Hcap HN Hr Hc Hle Hw Hs] Hlt Hv.
  assert (Hwr : 0 <= next_write_index_ q < N).
  { rewrite Hw. apply Z.mod_pos_bound. lia. }
  unfold updateWriteIndex. rewrite Hcap.
  destruct (Z.eqb_spec N 0) as [?|_]; [lia|].
  eexists; split; [reflexivity|]. split; [|reflexivity].
  split; cbn [store_ next_write_index_ next_read_index_ num_elements_].
  - exact Hcap.
  - exact HN.
  - exact Hr.
  - rewrite Hc, length_app; simpl. rewrite size_t_wrap_small; lia.
  - rewrite length_app; simpl. lia.
  - rewrite (size_t_wrap_small (next_write_index_ q + 1)) by lia.
    rewrite (size_t_wrap_small (num_elements_ q + 1)) by lia.
    rewrite Hw, Z.add_mod_idemp_l by lia. f_equal. lia.
  - intros i Hi. rewrite length_app in Hi; simpl in Hi.
    destruct (decide (i = length pending)) as [->|Hne].
    + rewrite <- Hc, <- Hw, Hv.
      rewrite lookup_app_r by lia. rewrite Nat.sub_diag. reflexivity.
    + rewrite lookup_app_l by lia. apply Hs. lia.
Qed.

Lemma holds_read_head (N : Z) (q : LFQueue.t T) (x : T) (pending : list T) :
  holds N q (x :: pending) -> read_slot q (next_read_index_ q) = Ok x.
Proof.
  intros [Hcap HN Hr Hc Hle Hw Hs]. unfold read_slot.
  destruct (Z.leb_spec 0 (next_read_index_ q)) as [_|?]; [|lia].
  pose proof (Hs 0%nat ltac:(simpl; lia)) as H0. simpl in H0.
  rewrite Z.add_0_r, Z.mod_small in H0 by lia.
  rewrite H0. reflexivity.
Qed.

Lemma holds_pop (N : Z) (q : LFQueue.t T) (x : T) (pending : list T) :
  holds N q (x :: pending) ->
  exists q', updateReadIndex q = Ok q' /\
             holds N q' pending /\
             store_ q' = store_ q /\
             next_write_index_ q' = next_write_index_ q.
Proof.
  intros [Hcap HN Hr Hc Hle Hw Hs]. simpl length in *.
  unfold updateReadIndex. rewrite Hcap.
  destruct (Z.eqb_spec N 0) as [?|_]; [lia|].
  destruct (Z.eqb_spec (num_elements_ q) 0) as [?|_]; [lia|]. simpl.
  eexists; split; [reflexivity|]. split; [|split; reflexivity].
  rewrite (size_t_wrap_small (next_read_index_ q + 1)) by lia.
  rewrite (size_t_wrap_small (num_elements_ q - 1)) by lia.
  split; simpl.
  - exact Hcap.
  - exact HN.
  - apply Z.mod_pos_bound. lia.
  - lia.
  - lia.
  - rewrite Hw, Z.add_mod_idemp_l by lia. f_equal. lia.
  - intros i Hi.
    rewrite Z.add_mod_idemp_l by lia.
    specialize (Hs (S i) ltac:(lia)). simpl in Hs. rewrite <- Hs.
    do 3 f_equal. lia.
Qed.

(** *** The two threads *)

Lemma threads_inv_start (N : Z) (vs : list T) :
  0 < N < 2 ^ 64 -> Z.of_nat (length vs) <= N -> threads_inv N vs (start d N vs).
Proof.
  intros HN Hlen. exists [], []. simpl.
  split; [apply holds_create; exact HN|]. auto.
Qed.

Lemma producer_step_inv (N : Z) (vs : list T) (c : LFQueue.threads T) :
  threads_inv N vs c ->
  exists c', producer_step c = Ok c' /\ threads_inv N vs c' /\
             reads c' = reads c /\ cpc c' = cpc c /\
             size (queue c') = (size (queue c)
                                + match todo c, ppc c with
                                  | _ :: _, PStored => 1
                                  | _, _ => 0
                                  end) /\
             producer_steps_left c' = pred (producer_steps_left c).
Proof.
  intros (pending & consumed & Hq & Hvs & Hlen & Hp & Hc).
  destruct c as [q td pp cp rd]. simpl in *.
  unfold producer_step, producer_steps_left. simpl.
  destruct td as [|v rest].
  - exists (mkThreads q [] pp cp rd). simpl.
    split; [reflexivity|]. split; [|repeat split; lia].
    exists pending, consumed. simpl. auto.
  - assert (Hroom : Z.of_nat (length pending) < N).
    { rewrite Hvs, !length_app in Hlen. simpl in Hlen. lia. }
    destruct pp as [|p|].
    + eexists. split; [reflexivity|]. simpl. split; [|repeat split; lia].
      exists pending, consumed. simpl. auto.
    + subst p.
      destruct (holds_write_slot N q pending v Hq Hroom)
        as (q' & Hw & Hq' & Hv & Hwi & Hri).
      rewrite Hw. simpl. eexists. split; [reflexivity|]. simpl.
      split; [|repeat split;
               [unfold size; unfold write_slot in Hw;
                destruct (_ && _) in Hw; [injection Hw as <-; simpl; lia | discriminate]
               | lia]].
      exists pending, consumed. simpl. split4; auto.
      split; [exact Hv|].
      destruct cp as [|next|]; auto.
      destruct Hc as (Hrd & Hnext & Hne). rewrite Hri. auto.
    + destruct (holds_publish N q pending v Hq Hroom Hp) as (q' & Hu & Hq' & Hri).
      rewrite Hu. simpl. eexists. split; [reflexivity|]. simpl.
      split; [|repeat split;
               [unfold size; rewrite (holds_count _ _ _ Hq'), (holds_count _ _ _ Hq),
                  length_app; simpl; lia
               | destruct rest; simpl; lia]].
      exists (pending ++ [v]), consumed. simpl. split4.
      * exact Hq'.
      * rewrite Hvs, <- !app_assoc. reflexivity.
      * exact Hlen.
      * split; [exact I|].
        destruct cp as [|next|].
        -- exact Hc.
        -- destruct Hc as (Hrd & Hnext & Hne). rewrite Hri.
           split; [exact Hrd|]. split; [exact Hnext|].
           destruct pending; discriminate.
        -- destruct Hc as (x & pending' & -> & Hrd).
           exists x, (pending' ++ [v]). auto.
Qed.

Lemma consumer_step_inv (N : Z) (vs : list T) (c : LFQueue.threads T) :
  threads_inv N vs c ->
  exists c', consumer_step c = Ok c' /\ threads_inv N vs c' /\
             todo c' = todo c /\ ppc c' = ppc c /\
             consumer_steps_left c' = pred (consumer_steps_left c).
Proof.
  intros (pending & consumed & Hq & Hvs & Hlen & Hp & Hc).
  destruct c as [q td pp cp rd]. simpl in *.
  unfold consumer_step, consumer_steps_left. simpl.
  destruct cp as [|next|].
  - pose proof (holds_count _ _ _ Hq) as Hcnt.
    unfold getNextToRead, size.
    destruct (Z.eqb_spec (num_elements_ q) 0) as [H0|Hn0].
    + eexists. split; [reflexivity|]. simpl.
      split; [|repeat split; lia].
      exists pending, consumed. simpl. auto.
    + eexists. split; [reflexivity|]. simpl. split; [|repeat split; lia].
      exists pending, consumed. simpl. split4; auto.
      split; [exact Hp|]. split; [exact Hc|]. split; [reflexivity|].
      intros ->. simpl in Hcnt. lia.
  - destruct Hc as (Hrd & -> & Hne).
    destruct pending as [|x pending]; [contradiction|].
    rewrite (holds_read_head N q x pending Hq). simpl.
    eexists. split; [reflexivity|]. simpl. split; [|repeat split; lia].
    exists (x :: pending), consumed. simpl. split4; auto.
    split; [exact Hp|]. exists x, pending. rewrite Hrd. auto.
  - destruct Hc as (x & pending' & -> & Hrd).
    destruct (holds_pop N q x pending' Hq) as (q' & Hu & Hq' & Hst & Hwi).
    rewrite Hu. simpl. eexists. split; [reflexivity|]. simpl.
    split; [|repeat split;
             unfold size; rewrite (holds_count _ _ _ Hq'), (holds_count _ _ _ Hq);
             simpl length; lia].
    exists pending', (consumed ++ [x]). simpl. split4.
    + exact Hq'.
    + rewrite Hvs, <- !app_assoc. reflexivity.
    + exact Hlen.
    + split; [|exact Hrd].
      destruct pp as [|p|], td as [|v rest]; auto.
      * rewrite Hwi. exact Hp.
      * rewrite Hst, Hwi. exact Hp.
Qed.

Lemma thread_step_inv (N : Z) (vs : list T) (th : thread) (c : LFQueue.threads T) :
  threads_inv N vs c ->
  exists c', thread_step th c = Ok c' /\ threads_inv N vs c'.
Proof.
  intros Hinv. destruct th; simpl.
  - destruct (producer_step_inv N vs c Hinv) as (c' & H & Hinv' & _). eauto.
  - destruct (consumer_step_inv N vs c Hinv) as (c' & H & Hinv' & _). eauto.
Qed.

Lemma run_threads_inv (N : Z) (vs : list T) (sched : list thread) :
  forall c : LFQueue.threads T,
  threads_inv N vs c ->
  exists c', run_threads sched c = Ok c' /\ threads_inv N vs c'.
Proof.
  induction sched as [|th sched IH]; intros c Hinv; simpl.
  - eauto.
  - destruct (thread_step_inv N vs th c Hinv) as (c1 & H1 & Hinv1).
    rewrite H1. simpl. apply IH. exact Hinv1.
Qed.

Lemma run_threads_app (s1 s2 : list thread) : forall c : LFQueue.threads T,
  run_threads (s1 ++ s2) c = (run_threads s1 c ≫= run_threads s2).
Proof.
  induction s1 as [|th s1 IH]; intros c; simpl; [reflexivity|].
  destruct (thread_step th c) as [c1| | |]; simpl; auto.
Qed.

Lemma threads_inv_prefix (N : Z) (vs : list T) (c : LFQueue.threads T) :
  threads_inv N vs c -> exists rest, reads c ++ rest = vs.
Proof.
  intros (pending & consumed & Hq & Hvs & Hlen & Hp & Hc).
  destruct (cpc c) as [|next|].
  - rewrite Hc, Hvs. eauto.
  - destruct Hc as (-> & _). rewrite Hvs. eauto.
  - destruct Hc as (x & pending' & -> & ->). rewrite Hvs.
    exists (pending' ++ todo c). rewrite <- !app_assoc. reflexivity.
Qed.

Lemma threads_inv_steps_left (N : Z) (vs : list T) (c : LFQueue.threads T) :
  threads_inv N vs c ->
  (producer_steps_left c <= 3 * length vs)%nat /\
  (consumer_steps_left c <= 3 * length vs)%nat.
Proof.
  intros (pending & consumed & Hq & Hvs & Hlen & Hp & Hc).
  unfold producer_steps_left, consumer_steps_left, size.
  rewrite (holds_count _ _ _ Hq), Nat2Z.id.
  rewrite Hvs, !length_app. split.
  - destruct (todo c); simpl; lia.
  - lia.
Qed.

Lemma threads_done (N : Z) (vs : list T) (c : LFQueue.threads T) :
  threads_inv N vs c -> todo c = [] -> consumer_steps_left c = O -> reads c = vs.
Proof.
  intros (pending & consumed & Hq & Hvs & Hlen & Hp & Hc) Htodo Hleft.
  unfold consumer_steps_left, size in Hleft.
  rewrite (holds_count _ _ _ Hq), Nat2Z.id in Hleft.
  rewrite Htodo, app_nil_r in Hvs.
  destruct (cpc c) as [|next|].
  - destruct pending; [|simpl in Hleft; lia].
    rewrite app_nil_r in Hvs. congruence.
  - destruct Hc as (_ & _ & Hne). destruct pending; [contradiction | simpl in Hleft; lia].
  - destruct Hc as (x & pending' & -> & _). simpl in Hleft. lia.
Qed.

Lemma run_producer_alone (N : Z) (vs : list T) (n : nat) :
  forall c : LFQueue.threads T,
  threads_inv N vs c -> (producer_steps_left c <= n)%nat ->
  exists c', run_threads (replicate n Producer) c = Ok c' /\
             threads_inv N vs c' /\ todo c' = [].
Proof.
  induction n as [|n IH]; intros c Hinv Hleft; simpl.
  - exists c. split; [reflexivity|]. split; [exact Hinv|].
    unfold producer_steps_left in Hleft.
    destruct (todo c) as [|v rest]; [reflexivity|].
    destruct (ppc c); simpl in Hleft; lia.
  - destruct (producer_step_inv N vs c Hinv) as (c1 & H1 & Hinv1 & _ & _ & _ & Hdec).
    rewrite H1. simpl. apply IH; [exact Hinv1 | lia].
Qed.

Lemma run_consumer_alone (N : Z) (vs : list T) (n : nat) :
  forall c : LFQueue.threads T,
  threads_inv N vs c -> todo c = [] -> (consumer_steps_left c <= n)%nat ->
  exists c', run_threads (replicate n Consumer) c = Ok c' /\ reads c' = vs.
Proof.
  induction n as [|n IH]; intros c Hinv Htodo Hleft; simpl.
  - exists c. split; [reflexivity|].
    apply (threads_done N vs c Hinv Htodo). lia.
  - destruct (consumer_step_inv N vs c Hinv) as (c1 & H1 & Hinv1 & Htd & _ & Hdec).
    rewrite H1. simpl. apply IH; [exact Hinv1 | congruence | lia].
Qed.

(** Whatever the schedule so far, letting the producer and then the
    consumer run to their ends leaves all of [vs] read, in order. *)
Lemma threads_finish (N : Z) (vs : list T) (c : LFQueue.threads T) :
  threads_inv N vs c ->
  exists c',
    run_threads (replicate (3 * length vs) Producer
                 ++ replicate (3 * length vs) Consumer) c = Ok c' /\
    reads c' = vs.
Proof.
  intros Hinv. rewrite run_threads_app.
  destruct (run_producer_alone N vs (3 * length vs) c Hinv) as (c1 & H1 & Hinv1 & Htd).
  { apply (threads_inv_steps_left N vs c Hinv). }
  rewrite H1. simpl.
  apply (run_consumer_alone N vs); [exact Hinv1 | exact Htd|].
  apply (threads_inv_steps_left N vs c1 Hinv1).
Qed.

End LFQueueFacts.

Section LFQueueClaims.
Context {T : Type}.
Variable d : T.

Import LFQueue.

Lemma run_threads_nothing_to_do (sched : list thread) :
  run_threads sched (start d 0 []) = Ok (start d 0 []).
Proof. induction sched as [|[|] sched IH]; simpl; auto. Qed.

(** C1. Strict FIFO: a producer writes the sequence [vs], of length at
    most the capacity [N], into a fresh ring buffer (getNextToWrite,
    the store into the slot, updateWriteIndex), while a consumer reads
    from it (getNextToRead, the load from the slot, updateReadIndex),
    the steps of the two interleaved in any order [sched]. Then no step
    fails, the sequence read so far is a leading part of [vs], and once
    both sides have run to their ends the sequence read is [vs]. *)
Theorem LFQueue_fifo (N : Z) (vs : list T) (sched : list thread) :
  0 <= N < 2 ^ 64 ->
  Z.of_nat (length vs) <= N ->
  exists c,
    run_threads sched (start d N vs) = Ok c /\
    (exists rest, reads c ++ rest = vs) /\
    exists c',
      run_threads (replicate (3 * length vs) Producer
                   ++ replicate (3 * length vs) Consumer) c = Ok c' /\
      reads c' = vs.
Proof.
  intros HN Hk. destruct (Z.eq_dec N 0) as [->|Hpos].
  - destruct vs as [|v vs']; [|simpl in Hk; lia].
    exists (start d 0 []). rewrite run_threads_nothing_to_do.
    split; [reflexivity|]. split; [exists []; reflexivity|].
    exists (start d 0 []). split; reflexivity.
  - destruct (run_threads_inv N vs sched (start d N vs)) as (c & Hrun & Hinv).
    { apply threads_inv_start; [lia | exact Hk]. }
    exists c. split; [exact Hrun|]. split.
    + apply (threads_inv_prefix N vs c Hinv).
    + apply (threads_finish N vs c Hinv).
Qed.

(** C9, as the code has it. In every state reached from a fresh ring
    buffer of capacity [N] by getNextToWrite, updateWriteIndex,
    getNextToRead and updateReadIndex, where updateWriteIndex is only
    called while count < N, the count satisfies 0 <= count <= N.
    updateWriteIndex itself does not look at the count. *)
Theorem LFQueue_count_bounded (N : Z) (q : LFQueue.t T) :
  0 <= N < 2 ^ 64 -> reachable_sized d N q -> 0 <= size q <= N.
Proof.
  intros HN Hr. induction Hr as [|c q q' Hr IH Hguard Hex].
  - unfold size; simpl. lia.
  - unfold size in *. destruct c; simpl in Hex.
    + injection Hex as <-. exact IH.
    + unfold updateWriteIndex in Hex.
      destruct (capacity q =? 0); [discriminate|].
      injection Hex as <-. simpl.
      specialize (Hguard eq_refl). rewrite size_t_wrap_small; lia.
    + injection Hex as <-. exact IH.
    + unfold updateReadIndex in Hex.
      destruct (capacity q =? 0); [discriminate|].
      destruct (Z.eqb_spec (num_elements_ q) 0) as [|Hnz]; simpl in Hex; [discriminate|].
      injection Hex as <-. simpl. rewrite size_t_wrap_small; lia.
Qed.

End LFQueueClaims.

Lemma LFQueue_fifo_witness :
  exists c,
    LFQueue.run_threads
      [LFQueue.Producer; LFQueue.Consumer; LFQueue.Producer; LFQueue.Producer;
       LFQueue.Consumer; LFQueue.Producer; LFQueue.Consumer; LFQueue.Consumer]
      (LFQueue.start 0 2 [7; 8]) = Ok c /\
    (exists rest, LFQueue.reads c ++ rest = [7; 8]) /\
    exists c',
      LFQueue.run_threads
        (replicate (3 * length [7; 8]) LFQueue.Producer
         ++ replicate (3 * length [7; 8]) LFQueue.Consumer) c = Ok c' /\
      LFQueue.reads c' = [7; 8].
Proof.
  apply (LFQueue_fifo 0 2 [7; 8]).
  - lia.
  - simpl. lia.
Defined.

(** C9 as stated fails: on a buffer of capacity 1, two calls of
    updateWriteIndex in a row leave count = 2. *)
Lemma LFQueue_count_exceeds_capacity :
  exists q : LFQueue.t Z,
    LFQueue.exec_all [LFQueue.UpdateWriteIndex; LFQueue.UpdateWriteIndex]
                     (LFQueue.create 0 1) = Ok q /\
    LFQueue.capacity q = 1 /\
    ~ (0 <= LFQueue.size q <= LFQueue.capacity q).
Proof.
  eexists. split; [reflexivity|]. split; [reflexivity|].
  intros [_ H]. vm_compute in H. apply H. reflexivity.
Qed.

Lemma LFQueue_count_bounded_witness :
  0 <= LFQueue.size
         {| LFQueue.store_ := [0; 0];
            LFQueue.next_write_index_ := 1;
            LFQueue.next_read_index_ := 0;
            LFQueue.num_elements_ := 1 |} <= 2.
Proof.
  apply (LFQueue_count_bounded 0 2).
  - lia.
  - apply (LFQueue.reach_exec 0 2 LFQueue.UpdateWriteIndex (LFQueue.create 0 2)).
    + apply LFQueue.reach_create.
    + intros _. simpl. lia.
    + reflexivity.
Defined.

(** The bound on the number of elements written is needed: a producer
    that writes two elements into a buffer of capacity 1 before the
    consumer runs overwrites the first, and the consumer reads the
    second one twice. *)
Example LFQueue_overrun_loses_elements :
  exists c,
    LFQueue.run_threads (replicate 6 LFQueue.Producer ++ replicate 6 LFQueue.Consumer)
      (LFQueue.start 0 1 [7; 8]) = Ok c /\
    LFQueue.reads c = [8; 8].
Proof. eexists. split; [vm_compute; reflexivity | reflexivity]. Qed.

(** ** The logger *)

Lemma string_app_nil_r (s : string) : String.append s EmptyString = s.
Proof. induction s as [|c s IH]; simpl; [reflexivity | now rewrite IH]. Qed.

Lemma string_app_assoc (s1 s2 s3 : string) :
  String.append (String.append s1 s2) s3 = String.append s1 (String.append s2 s3).
Proof. induction s1 as [|c s1 IH]; simpl; [reflexivity | now rewrite IH]. Qed.

Lemma idle_holds {T : Type} (q : LFQueue.t T) :
  LFQueue_idle q -> holds (LFQueue.capacity q) q [].
Proof.
  intros (Hc & Hw & Hr & Hcap). split; simpl.
  - reflexivity.
  - lia.
  - exact Hr.
  - exact Hc.
  - lia.
  - rewrite Hw, Hc, Z.add_0_r, Z.mod_small; lia.
  - intros i Hi. lia.
Qed.

Lemma holds_writable {T : Type} (N : Z) (q : LFQueue.t T) (pending : list T) :
  holds N q pending -> LFQueue_writable q.
Proof.
  intros [Hcap HN Hr Hc Hle Hw Hs]. unfold LFQueue_writable.
  rewrite Hcap, Hw. split; [apply Z.mod_pos_bound|]; lia.
Qed.

Lemma write_then_update_writable {T : Type} (q : LFQueue.t T) (v : T) :
  LFQueue_writable q ->
  exists q1 q2,
    LFQueue.write_slot q (LFQueue.getNextToWrite q) v = Ok q1 /\
    LFQueue.updateWriteIndex q1 = Ok q2 /\
    LFQueue_writable q2.
Proof.
  intros [Hw Hcap].
  unfold LFQueue.getNextToWrite, LFQueue.write_slot.
  replace ((0 <=? LFQueue.next_write_index_ q)
           && (LFQueue.next_write_index_ q <? LFQueue.capacity q)) with true
    by (symmetry; apply andb_true_iff; split; [apply Z.leb_le | apply Z.ltb_lt]; lia).
  set (q1 := {| LFQueue.store_ :=
                  <[Z.to_nat (LFQueue.next_write_index_ q) := v]> (LFQueue.store_ q);
                LFQueue.next_write_index_ := LFQueue.next_write_index_ q;
                LFQueue.next_read_index_ := LFQueue.next_read_index_ q;
                LFQueue.num_elements_ := LFQueue.num_elements_ q |}).
  assert (Hcap1 : LFQueue.capacity q1 = LFQueue.capacity q).
  { unfold LFQueue.capacity, q1. cbn [LFQueue.store_]. apply f_equal, length_insert. }
  exists q1. unfold LFQueue.updateWriteIndex. rewrite Hcap1.
  destruct (Z.eqb_spec (LFQueue.capacity q) 0) as [?|_]; [lia|].
  eexists. split; [reflexivity|]. split; [reflexivity|].
  unfold LFQueue_writable, LFQueue.capacity.
  cbn [LFQueue.store_ LFQueue.next_write_index_].
  fold (LFQueue.capacity q1). rewrite Hcap1.
  split; [apply Z.mod_pos_bound|]; lia.
Qed.

Section LoggerFacts.
Variable show_float : Z -> string.
Variable show_double : Z -> string.

Import Logger.

Local Abbreviation text := (elements_text show_float show_double).

Lemma text_app (es1 es2 : list LogElement) :
  text (es1 ++ es2) = String.append (text es1) (text es2).
Proof.
  induction es1 as [|e es1 IH]; simpl; [reflexivity|].
  rewrite IH, string_app_assoc. reflexivity.
Qed.

Lemma render_well_tagged (e : LogElement) :
  well_tagged e -> render show_float show_double e = Ok (element_text show_float show_double e).
Proof.
  destruct e as [[] []]; simpl; intros H; try contradiction; reflexivity.
Qed.

Lemma render_Ok_well_tagged (e : LogElement) (txt : string) :
  render show_float show_double e = Ok txt -> well_tagged e.
Proof.
  destruct e as [[] []]; simpl; intros H; try discriminate; exact I.
Qed.

Lemma scalar_element_well_tagged (v : scalar) : well_tagged (scalar_element v).
Proof. destruct v; exact I. Qed.

Lemma scalar_element_text (v : scalar) :
  element_text show_float show_double (scalar_element v)
  = scalar_text show_float show_double v.
Proof. destruct v; reflexivity. Qed.

Lemma pushValue_scalar_element (lg : Logger.t) (v : scalar) :
  pushValue_scalar lg v = pushValue lg (scalar_element v).
Proof. destruct v; reflexivity. Qed.

Lemma pushValue_Ok (lg : Logger.t) (e : LogElement) :
  LFQueue_writable (queue_ lg) ->
  exists lg', pushValue lg e = Ok lg' /\ LFQueue_writable (queue_ lg').
Proof.
  intros Hw.
  destruct (write_then_update_writable (queue_ lg) e Hw) as (q1 & q2 & H1 & H2 & Hw').
  unfold pushValue. rewrite H1. simpl. rewrite H2. simpl.
  eexists; split; [reflexivity|]. exact Hw'.
Qed.

Lemma pushValue_pushed (lg lg' : Logger.t) (e : LogElement) :
  pushValue lg e = Ok lg' -> pushed lg lg' [e].
Proof.
  unfold pushValue, LFQueue.getNextToWrite. intros H.
  apply bind_Ok_inv in H as (q1 & H1 & H).
  apply bind_Ok_inv in H as (q2 & H2 & H).
  injection H as <-. split; [reflexivity|].
  intros N pending Hq Hlen. simpl in *.
  destruct (holds_write_slot N (queue_ lg) pending e Hq) as (q1' & Hw & Hq1 & Hv & _);
    [lia|].
  rewrite H1 in Hw. injection Hw as <-.
  destruct (holds_publish N q1 pending e Hq1) as (q2' & Hu & Hq2 & _); [lia | exact Hv|].
  rewrite H2 in Hu. injection Hu as <-. exact Hq2.
Qed.

Lemma pushed_refl (lg : Logger.t) : pushed lg lg [].
Proof.
  split; [reflexivity|]. intros N pending Hq _. rewrite app_nil_r. exact Hq.
Qed.

Lemma pushed_trans (lg1 lg2 lg3 : Logger.t) (es1 es2 : list LogElement) :
  pushed lg1 lg2 es1 -> pushed lg2 lg3 es2 -> pushed lg1 lg3 (es1 ++ es2).
Proof.
  intros [Hf1 H1] [Hf2 H2]. split; [congruence|].
  intros N pending Hq Hlen. rewrite length_app in Hlen.
  rewrite app_assoc. apply H2.
  - apply H1; [exact Hq | lia].
  - rewrite length_app. lia.
Qed.

(** *** Pushing text *)

Lemma pushValue_cstr_Ok (s : string) : forall lg : Logger.t,
  LFQueue_writable (queue_ lg) ->
  exists lg', pushValue_cstr lg s = Ok lg' /\ LFQueue_writable (queue_ lg').
Proof.
  induction s as [|c s IH]; intros lg Hw; simpl.
  - exists lg. split; [reflexivity | exact Hw].
  - destruct (Ascii.eqb c TimeUtils.NUL); [exists lg; split; [reflexivity | exact Hw]|].
    destruct (pushValue_Ok lg (char_element c) Hw) as (lg1 & H1 & Hw1).
    unfold pushValue_char. fold (char_element c). rewrite H1. simpl.
    apply IH. exact Hw1.
Qed.

Lemma pushValue_cstr_pushed (s : string) : forall lg lg' : Logger.t,
  pushValue_cstr lg s = Ok lg' ->
  exists es, pushed lg lg' es /\ Forall well_tagged es /\
             text es = c_str s /\ (length es <= String.length s)%nat.
Proof.
  induction s as [|c s IH]; intros lg lg' H; simpl in H.
  - injection H as <-. exists []. split4.
    + apply pushed_refl.
    + constructor.
    + reflexivity.
    + simpl; lia.
  - simpl. destruct (Ascii.eqb c TimeUtils.NUL).
    + injection H as <-. exists []. split4.
      * apply pushed_refl.
      * constructor.
      * reflexivity.
      * simpl; lia.
    + apply bind_Ok_inv in H as (lg1 & H1 & H).
      apply pushValue_pushed in H1.
      destruct (IH lg1 lg' H) as (es & Hp & Hwt & Htxt & Hlen).
      exists (char_element c :: es). split4.
      * apply (pushed_trans lg lg1 lg' [char_element c] es H1 Hp).
      * constructor; [exact I | exact Hwt].
      * simpl. rewrite Htxt. reflexivity.
      * simpl. lia.
Qed.

Lemma pushValue_arg_Ok (a : arg) (lg : Logger.t) :
  LFQueue_writable (queue_ lg) ->
  exists lg', pushValue_arg lg a = Ok lg' /\ LFQueue_writable (queue_ lg').
Proof.
  intros Hw. destruct a as [v|s|s]; simpl.
  - rewrite pushValue_scalar_element. apply pushValue_Ok. exact Hw.
  - apply pushValue_cstr_Ok. exact Hw.
  - apply pushValue_cstr_Ok. exact Hw.
Qed.

Lemma pushValue_arg_pushed (a : arg) (lg lg' : Logger.t) :
  pushValue_arg lg a = Ok lg' ->
  exists es, pushed lg lg' es /\ Forall well_tagged es /\
             text es = arg_text show_float show_double a /\
             (length es <= arg_elements a)%nat.
Proof.
  destruct a as [v|s|s]; simpl; intros H.
  - rewrite pushValue_scalar_element in H. apply pushValue_pushed in H.
    exists [scalar_element v]. split4.
    + exact H.
    + constructor; [apply scalar_element_well_tagged | constructor].
    + simpl. rewrite string_app_nil_r. apply scalar_element_text.
    + simpl. lia.
  - apply pushValue_cstr_pushed. exact H.
  - apply pushValue_cstr_pushed. exact H.
Qed.

(** *** The cases of a format string *)

Lemma fmt_cases (s : string) : fmt_case s.
Proof.
  destruct s as [|c s1]; [apply fmt_end; auto|].
  destruct (Ascii.eqb_spec c TimeUtils.NUL) as [->|Hn]; [apply fmt_end; eauto|].
  destruct (Ascii.eqb_spec c percent) as [->|Hp]; [|eapply fmt_char; eauto].
  destruct s1 as [|c1 s2].
  - eapply fmt_subst; [reflexivity|]. intros s2 H; discriminate.
  - destruct (Ascii.eqb_spec c1 percent) as [->|Hp1].
    + eapply fmt_escape; reflexivity.
    + eapply fmt_subst; [reflexivity|]. intros s3 H. injection H as H _. contradiction.
Qed.

Lemma not_percent_eqb (c1 : ascii) (s2 : string) :
  (forall s3, String c1 s2 <> String percent s3) -> Ascii.eqb c1 percent = false.
Proof.
  intros H. destruct (Ascii.eqb_spec c1 percent) as [->|]; [|reflexivity].
  exfalso. apply (H s2). reflexivity.
Qed.

Lemma eqb_false (c c' : ascii) : c <> c' -> Ascii.eqb c c' = false.
Proof. intros H. destruct (Ascii.eqb_spec c c'); [contradiction | reflexivity]. Qed.

(** [c_str] *)

Lemma c_str_char (c : ascii) (s1 : string) :
  c <> TimeUtils.NUL -> c_str (String c s1) = String c (c_str s1).
Proof. intros H. simpl. rewrite (eqb_false _ _ H). reflexivity. Qed.

Lemma c_str_not_percent (s1 : string) :
  (forall s2, s1 <> String percent s2) -> forall s2, c_str s1 <> String percent s2.
Proof.
  intros H s2. destruct s1 as [|c1 s1']; simpl; [discriminate|].
  destruct (Ascii.eqb c1 TimeUtils.NUL); [discriminate|].
  intros Heq. injection Heq as -> _. apply (H s1'). reflexivity.
Qed.

(** [spec_placeholders] *)

Lemma placeholders_subst (t : string) :
  (forall t2, t <> String percent t2) ->
  spec_placeholders (String percent t) = S (spec_placeholders t).
Proof.
  intros H. destruct t as [|c1 t2]; [reflexivity|].
  simpl. rewrite (not_percent_eqb c1 t2 H). reflexivity.
Qed.

Lemma placeholders_char (c : ascii) (t : string) :
  c <> percent -> spec_placeholders (String c t) = spec_placeholders t.
Proof. intros H. simpl. rewrite (eqb_false _ _ H). reflexivity. Qed.

(** [spec_substitute] *)

Lemma substitute_subst (t txt : string) (texts : list string) :
  (forall t2, t <> String percent t2) ->
  spec_substitute (String percent t) (txt :: texts)
  = String.append txt (spec_substitute t texts).
Proof.
  intros H. destruct t as [|c1 t2]; [reflexivity|].
  cbn [spec_substitute]. rewrite Ascii.eqb_refl.
  rewrite (not_percent_eqb c1 t2 H). reflexivity.
Qed.

Lemma substitute_char (c : ascii) (t : string) (texts : list string) :
  c <> percent ->
  spec_substitute (String c t) texts = String c (spec_substitute t texts).
Proof. intros H. simpl. rewrite (eqb_false _ _ H). reflexivity. Qed.

(** [log_noargs] *)

Lemma log_noargs_end (s : string) (lg : Logger.t) :
  s = EmptyString \/ (exists s1, s = String TimeUtils.NUL s1) ->
  log_noargs s lg = Ok lg.
Proof. intros [->|[s1 ->]]; reflexivity. Qed.

Lemma log_noargs_subst (s1 : string) (lg : Logger.t) :
  (forall s2, s1 <> String percent s2) ->
  log_noargs (String percent s1) lg = Aborted.
Proof.
  intros H. destruct s1 as [|c1 s2]; [reflexivity|].
  simpl. rewrite (not_percent_eqb c1 s2 H). reflexivity.
Qed.

Lemma log_noargs_char (c : ascii) (s1 : string) (lg : Logger.t) :
  c <> TimeUtils.NUL -> c <> percent ->
  log_noargs (String c s1) lg = (pushValue_char lg c ≫= log_noargs s1).
Proof.
  intros Hn Hp. simpl. rewrite (eqb_false _ _ Hn), (eqb_false _ _ Hp). reflexivity.
Qed.

(** [log_args] *)

Lemma log_args_end (s : string) (v : arg) (args : list arg) (lg : Logger.t) :
  s = EmptyString \/ (exists s1, s = String TimeUtils.NUL s1) ->
  log_args s v args lg = Aborted.
Proof. intros [->|[s1 ->]]; reflexivity. Qed.

Lemma log_args_subst (s1 : string) (v : arg) (args : list arg) (lg : Logger.t) :
  (forall s2, s1 <> String percent s2) ->
  log_args (String percent s1) v args lg
  = (pushValue_arg lg v ≫= fun lg1 =>
       match args with
       | [] => log_noargs s1 lg1
       | v' :: args' => log_args s1 v' args' lg1
       end).
Proof.
  intros H. destruct s1 as [|c1 s2]; [reflexivity|].
  cbn [log_args]. rewrite Ascii.eqb_refl.
  change (Ascii.eqb percent TimeUtils.NUL) with false. cbv iota.
  rewrite (not_percent_eqb c1 s2 H). reflexivity.
Qed.

Lemma log_args_char (c : ascii) (s1 : string) (v : arg) (args : list arg) (lg : Logger.t) :
  c <> TimeUtils.NUL -> c <> percent ->
  log_args (String c s1) v args lg = (pushValue_char lg c ≫= log_args s1 v args).
Proof.
  intros Hn Hp. simpl. rewrite (eqb_false _ _ Hn), (eqb_false _ _ Hp). reflexivity.
Qed.

(** *** When [log] returns *)

Lemma c_str_end (s : string) :
  s = EmptyString \/ (exists s1, s = String TimeUtils.NUL s1) -> c_str s = EmptyString.
Proof. intros [->|[s1 ->]]; reflexivity. Qed.

Lemma log_noargs_outcome (n : nat) : forall (s : string) (lg : Logger.t),
  (String.length s < n)%nat ->
  LFQueue_writable (queue_ lg) ->
  (spec_placeholders (c_str s) = O ->
     exists lg', log_noargs s lg = Ok lg' /\ LFQueue_writable (queue_ lg')) /\
  (spec_placeholders (c_str s) <> O -> log_noargs s lg = Aborted).
Proof.
  induction n as [|n IH]; intros s lg Hlen Hw; [lia|].
  destruct (fmt_cases s) as [Hend|s2 ->|s1 -> Hnp|c s1 -> Hn Hp].
  - rewrite (c_str_end s Hend), (log_noargs_end s lg Hend). simpl.
    split; [intros _; exists lg; auto | congruence].
  - rewrite !c_str_char by discriminate.
    change (spec_placeholders (String percent (String percent (c_str s2))))
      with (spec_placeholders (c_str s2)).
    change (log_noargs (String percent (String percent s2)) lg)
      with (pushValue_char lg percent ≫= log_noargs s2).
    destruct (pushValue_Ok lg (char_element percent) Hw) as (lg1 & H1 & Hw1).
    unfold pushValue_char. fold (char_element percent). rewrite H1. simpl.
    apply IH; [simpl in Hlen; lia | exact Hw1].
  - rewrite c_str_char by discriminate.
    rewrite placeholders_subst by (apply c_str_not_percent; exact Hnp).
    rewrite log_noargs_subst by exact Hnp.
    split; [discriminate | reflexivity].
  - rewrite c_str_char by exact Hn.
    rewrite placeholders_char by exact Hp.
    rewrite log_noargs_char by assumption.
    destruct (pushValue_Ok lg (char_element c) Hw) as (lg1 & H1 & Hw1).
    unfold pushValue_char. fold (char_element c). rewrite H1. simpl.
    apply IH; [simpl in Hlen; lia | exact Hw1].
Qed.

Lemma log_args_outcome (n : nat) :
  forall (s : string) (v : arg) (args : list arg) (lg : Logger.t),
  (String.length s < n)%nat ->
  LFQueue_writable (queue_ lg) ->
  (spec_placeholders (c_str s) = S (length args) ->
     exists lg', log_args s v args lg = Ok lg' /\ LFQueue_writable (queue_ lg')) /\
  (spec_placeholders (c_str s) <> S (length args) -> log_args s v args lg = Aborted).
Proof.
  induction n as [|n IH]; intros s v args lg Hlen Hw; [lia|].
  destruct (fmt_cases s) as [Hend|s2 ->|s1 -> Hnp|c s1 -> Hn Hp].
  - rewrite (c_str_end s Hend), (log_args_end s v args lg Hend). simpl.
    split; [discriminate | reflexivity].
  - rewrite !c_str_char by discriminate.
    change (spec_placeholders (String percent (String percent (c_str s2))))
      with (spec_placeholders (c_str s2)).
    change (log_args (String percent (String percent s2)) v args lg)
      with (pushValue_char lg percent ≫= log_args s2 v args).
    destruct (pushValue_Ok lg (char_element percent) Hw) as (lg1 & H1 & Hw1).
    unfold pushValue_char. fold (char_element percent). rewrite H1. simpl.
    apply IH; [simpl in Hlen; lia | exact Hw1].
  - rewrite c_str_char by discriminate.
    rewrite placeholders_subst by (apply c_str_not_percent; exact Hnp).
    rewrite log_args_subst by exact Hnp.
    destruct (pushValue_arg_Ok v lg Hw) as (lg1 & H1 & Hw1).
    rewrite H1. simpl.
    destruct args as [|v' args'].
    + destruct (log_noargs_outcome (S (String.length s1)) s1 lg1 ltac:(lia) Hw1)
        as [Hok Hab].
      simpl. split; intros H; [apply Hok | apply Hab]; lia.
    + destruct (IH s1 v' args' lg1 ltac:(simpl in Hlen; lia) Hw1) as [Hok Hab].
      simpl. split; intros H; [apply Hok | apply Hab]; lia.
  - rewrite c_str_char by exact Hn.
    rewrite placeholders_char by exact Hp.
    rewrite log_args_char by assumption.
    destruct (pushValue_Ok lg (char_element c) Hw) as (lg1 & H1 & Hw1).
    unfold pushValue_char. fold (char_element c). rewrite H1. simpl.
    apply IH; [simpl in Hlen; lia | exact Hw1].
Qed.

Lemma log_outcome (s : string) (args : list arg) (lg : Logger.t) :
  LFQueue_writable (queue_ lg) ->
  (spec_placeholders (c_str s) = length args ->
     exists lg', log s args lg = Ok lg' /\ LFQueue_writable (queue_ lg')) /\
  (spec_placeholders (c_str s) <> length args -> log s args lg = Aborted).
Proof.
  intros Hw. destruct args as [|v args]; simpl.
  - apply (log_noargs_outcome (S (String.length s))); [lia | exact Hw].
  - apply (log_args_outcome (S (String.length s))); [lia | exact Hw].
Qed.

(** *** What [log] pushes *)

Lemma log_noargs_pushed (n : nat) : forall (s : string) (lg lg' : Logger.t),
  (String.length s < n)%nat ->
  log_noargs s lg = Ok lg' ->
  exists es, pushed lg lg' es /\ Forall well_tagged es /\
             text es = spec_substitute (c_str s) [] /\
             (length es <= String.length s)%nat.
Proof.
  induction n as [|n IH]; intros s lg lg' Hlen H; [lia|].
  destruct (fmt_cases s) as [Hend|s2 ->|s1 -> Hnp|c s1 -> Hn Hp].
  - rewrite (log_noargs_end s lg Hend) in H. injection H as <-.
    rewrite (c_str_end s Hend). exists []. split4.
    + apply pushed_refl.
    + constructor.
    + reflexivity.
    + simpl; lia.
  - change (log_noargs (String percent (String percent s2)) lg)
      with (pushValue_char lg percent ≫= log_noargs s2) in H.
    apply bind_Ok_inv in H as (lg1 & H1 & H).
    apply pushValue_pushed in H1.
    destruct (IH s2 lg1 lg' ltac:(simpl in Hlen; lia) H) as (es & Hp & Hwt & Htxt & Hle).
    exists (char_element percent :: es). split4.
    + apply (pushed_trans lg lg1 lg' [char_element percent] es H1 Hp).
    + constructor; [exact I | exact Hwt].
    + rewrite !c_str_char by discriminate.
      change (spec_substitute (String percent (String percent (c_str s2))) [])
        with (String percent (spec_substitute (c_str s2) [])).
      simpl. rewrite Htxt. reflexivity.
    + simpl. lia.
  - rewrite log_noargs_subst in H by exact Hnp. discriminate.
  - rewrite log_noargs_char in H by assumption.
    apply bind_Ok_inv in H as (lg1 & H1 & H).
    apply pushValue_pushed in H1.
    destruct (IH s1 lg1 lg' ltac:(simpl in Hlen; lia) H) as (es & Hpu & Hwt & Htxt & Hle).
    exists (char_element c :: es). split4.
    + apply (pushed_trans lg lg1 lg' [char_element c] es H1 Hpu).
    + constructor; [exact I | exact Hwt].
    + rewrite c_str_char by exact Hn. rewrite substitute_char by exact Hp.
      simpl. rewrite Htxt. reflexivity.
    + simpl. lia.
Qed.

Lemma log_args_pushed (n : nat) :
  forall (s : string) (v : arg) (args : list arg) (lg lg' : Logger.t),
  (String.length s < n)%nat ->
  log_args s v args lg = Ok lg' ->
  exists es, pushed lg lg' es /\ Forall well_tagged es /\
             text es = spec_substitute (c_str s)
                         (map (arg_text show_float show_double) (v :: args)) /\
             (length es <= log_elements s (v :: args))%nat.
Proof.
  unfold log_elements.
  induction n as [|n IH]; intros s v args lg lg' Hlen H; [lia|].
  destruct (fmt_cases s) as [Hend|s2 ->|s1 -> Hnp|c s1 -> Hn Hp].
  - rewrite (log_args_end s v args lg Hend) in H. discriminate.
  - change (log_args (String percent (String percent s2)) v args lg)
      with (pushValue_char lg percent ≫= log_args s2 v args) in H.
    apply bind_Ok_inv in H as (lg1 & H1 & H).
    apply pushValue_pushed in H1.
    destruct (IH s2 v args lg1 lg' ltac:(simpl in Hlen; lia) H)
      as (es & Hp & Hwt & Htxt & Hle).
    exists (char_element percent :: es). split4.
    + apply (pushed_trans lg lg1 lg' [char_element percent] es H1 Hp).
    + constructor; [exact I | exact Hwt].
    + rewrite !c_str_char by discriminate.
      change (spec_substitute (String percent (String percent (c_str s2)))
                (map (arg_text show_float show_double) (v :: args)))
        with (String percent (spec_substitute (c_str s2)
                (map (arg_text show_float show_double) (v :: args)))).
      cbn [elements_text fold_right]. rewrite <- Htxt. reflexivity.
    + simpl in *. lia.
  - rewrite log_args_subst in H by exact Hnp.
    apply bind_Ok_inv in H as (lg1 & H1 & H).
    apply pushValue_arg_pushed in H1 as (es1 & Hp1 & Hwt1 & Htxt1 & Hle1).
    rewrite c_str_char by discriminate.
    cbn [map]. rewrite substitute_subst by (apply c_str_not_percent; exact Hnp).
    destruct args as [|v' args'].
    + apply (log_noargs_pushed (S (String.length s1))) in H
        as (es & Hp & Hwt & Htxt & Hle); [|lia].
      exists (es1 ++ es). split4.
      * apply (pushed_trans lg lg1 lg' es1 es Hp1 Hp).
      * apply Forall_app. split; assumption.
      * rewrite text_app, Htxt1, Htxt. reflexivity.
      * rewrite length_app. simpl in *. lia.
    + apply IH in H as (es & Hp & Hwt & Htxt & Hle); [|simpl in Hlen; lia].
      exists (es1 ++ es). split4.
      * apply (pushed_trans lg lg1 lg' es1 es Hp1 Hp).
      * apply Forall_app. split; assumption.
      * rewrite text_app, Htxt1, Htxt. reflexivity.
      * rewrite length_app. simpl in *. lia.
  - rewrite log_args_char in H by assumption.
    apply bind_Ok_inv in H as (lg1 & H1 & H).
    apply pushValue_pushed in H1.
    destruct (IH s1 v args lg1 lg' ltac:(simpl in Hlen; lia) H)
      as (es & Hpu & Hwt & Htxt & Hle).
    exists (char_element c :: es). split4.
    + apply (pushed_trans lg lg1 lg' [char_element c] es H1 Hpu).
    + constructor; [exact I | exact Hwt].
    + rewrite c_str_char by exact Hn. rewrite substitute_char by exact Hp.
      cbn [elements_text fold_right]. rewrite <- Htxt. reflexivity.
    + simpl in *. lia.
Qed.

Lemma log_pushed (s : string) (args : list arg) (lg lg' : Logger.t) :
  log s args lg = Ok lg' ->
  exists es, pushed lg lg' es /\ Forall well_tagged es /\
             text es = spec_substitute (c_str s)
                         (map (arg_text show_float show_double) args) /\
             (length es <= log_elements s args)%nat.
Proof.
  destruct args as [|v args]; simpl; intros H.
  - apply (log_noargs_pushed (S (String.length s))) in H
      as (es & Hp & Hwt & Htxt & Hle); [|lia].
    exists es. split4; try assumption. unfold log_elements. simpl. lia.
  - apply (log_args_pushed (S (String.length s))) in H; [exact H | lia].
Qed.

(** *** The flush task *)

Lemma flushQueue_loop_holds (N : Z) (es : list LogElement) : forall lg : Logger.t,
  holds N (queue_ lg) es -> Forall well_tagged es ->
  exists lg', flushQueue_loop show_float show_double (length es) lg = Ok lg' /\
              file_ lg' = String.append (file_ lg) (text es) /\
              holds N (queue_ lg') [].
Proof.
  induction es as [|e es IH]; intros lg Hq Hwt.
  - exists lg. simpl. unfold LFQueue.getNextToRead, LFQueue.size.
    rewrite (holds_count _ _ _ Hq). simpl.
    rewrite string_app_nil_r. auto.
  - cbn [flushQueue_loop length]. unfold LFQueue.getNextToRead, LFQueue.size.
    pose proof (holds_count _ _ _ Hq) as Hcnt. simpl length in Hcnt.
    destruct (Z.eqb_spec (LFQueue.num_elements_ (queue_ lg)) 0) as [?|_]; [lia|].
    rewrite (holds_read_head N (queue_ lg) e es Hq).
    destruct (holds_pop N (queue_ lg) e es Hq) as (q1 & Hu & Hq1 & _).
    inversion Hwt as [|? ? Hwe Hwes]; subst.
    cbv beta iota delta [mbind outcome_bind].
    rewrite (render_well_tagged e Hwe), Hu.
    cbv beta iota delta [mbind outcome_bind].
    destruct (IH {| queue_ := q1;
                    file_ := String.append (file_ lg)
                               (element_text show_float show_double e) |} Hq1 Hwes)
      as (lg' & Hl & Hf & Hq').
    exists lg'. split; [exact Hl|]. split; [|exact Hq'].
    rewrite Hf. simpl. apply string_app_assoc.
Qed.

Lemma flushQueue_round_holds (N : Z) (es : list LogElement) (lg : Logger.t) :
  holds N (queue_ lg) es -> Forall well_tagged es ->
  exists lg', flushQueue_round show_float show_double lg = Ok lg' /\
              file_ lg' = String.append (file_ lg) (text es) /\
              holds N (queue_ lg') [].
Proof.
  intros Hq Hwt. unfold flushQueue_round, LFQueue.size.
  rewrite (holds_count _ _ _ Hq), Nat2Z.id.
  apply flushQueue_loop_holds; assumption.
Qed.

(** A call of [log] on a logger whose queue is empty, followed by one
    round of the flush task. *)
Lemma log_then_flush (s : string) (args : list arg) (lg : Logger.t) :
  LFQueue_idle (queue_ lg) ->
  Z.of_nat (log_elements s args) <= LFQueue.capacity (queue_ lg) ->
  spec_placeholders (c_str s) = length args ->
  exists lg1 lg2,
    log s args lg = Ok lg1 /\
    flushQueue_round show_float show_double lg1 = Ok lg2 /\
    file_ lg2 = String.append (file_ lg)
                  (spec_substitute (c_str s) (map (arg_text show_float show_double) args)) /\
    LFQueue_idle (queue_ lg2).
Proof.
  intros Hidle Hfit Hcount.
  pose proof (idle_holds _ Hidle) as Hq.
  destruct (log_outcome s args lg (holds_writable _ _ _ Hq)) as [Hok _].
  destruct (Hok Hcount) as (lg1 & Hlog & _).
  destruct (log_pushed s args lg lg1 Hlog) as (es & [Hfile Hp] & Hwt & Htxt & Hle).
  specialize (Hp _ [] Hq ltac:(simpl; lia)). simpl in Hp.
  destruct (flushQueue_round_holds _ es lg1 Hp Hwt) as (lg2 & Hfl & Hf2 & Hq2).
  exists lg1, lg2. split4; try assumption.
  - rewrite Hf2, Hfile, Htxt. reflexivity.
  - destruct Hq2 as [Hcap HN Hr Hc Hle' Hw _]. simpl in *.
    unfold LFQueue_idle. rewrite Hcap, Hw, Hc, Z.add_0_r, Z.mod_small by lia.
    repeat split; lia.
Qed.

Lemma idle_of_holds_nil (N : Z) (q : LFQueue.t LogElement) :
  holds N q [] -> LFQueue_idle q.
Proof.
  intros [Hcap HN Hr Hc Hle' Hw _]. simpl in *.
  unfold LFQueue_idle. rewrite Hcap, Hw, Hc, Z.add_0_r, Z.mod_small by lia.
  repeat split; lia.
Qed.

(** A push on a logger whose queue is empty, followed by one round of
    the flush task. *)
Lemma push_then_flush (a : arg) (lg : Logger.t) :
  LFQueue_idle (queue_ lg) ->
  Z.of_nat (arg_elements a) <= LFQueue.capacity (queue_ lg) ->
  exists lg1 lg2,
    pushValue_arg lg a = Ok lg1 /\
    flushQueue_round show_float show_double lg1 = Ok lg2 /\
    file_ lg2 = String.append (file_ lg) (arg_text show_float show_double a) /\
    LFQueue_idle (queue_ lg2).
Proof.
  intros Hidle Hfit.
  pose proof (idle_holds _ Hidle) as Hq.
  destruct (pushValue_arg_Ok a lg (holds_writable _ _ _ Hq)) as (lg1 & Hpush & _).
  destruct (pushValue_arg_pushed a lg lg1 Hpush) as (es & [Hfile Hp] & Hwt & Htxt & Hle).
  specialize (Hp _ [] Hq ltac:(simpl; lia)). simpl in Hp.
  destruct (flushQueue_round_holds _ es lg1 Hp Hwt) as (lg2 & Hfl & Hf2 & Hq2).
  exists lg1, lg2. split4; try assumption.
  - rewrite Hf2, Hfile, Htxt. reflexivity.
  - apply (idle_of_holds_nil _ _ Hq2).
Qed.

Lemma create_idle : LFQueue_idle (queue_ Logger.create).
Proof.
  unfold LFQueue_idle, Logger.create, LFQueue.create, LFQueue.capacity.
  cbn [queue_ LFQueue.num_elements_ LFQueue.next_write_index_
       LFQueue.next_read_index_ LFQueue.store_].
  rewrite length_replicate, Z2Nat.id by (unfold LOG_QUEUE_SIZE; lia).
  unfold LOG_QUEUE_SIZE. repeat split; lia.
Qed.

Lemma create_capacity : LFQueue.capacity (queue_ Logger.create) = LOG_QUEUE_SIZE.
Proof.
  unfold Logger.create, LFQueue.create, LFQueue.capacity.
  cbn [queue_ LFQueue.store_].
  rewrite length_replicate, Z2Nat.id by (unfold LOG_QUEUE_SIZE; lia).
  reflexivity.
Qed.

(** C4. [log(format, args...)] scans the format string left to right,
    replaces each [%] by the text of the next argument, in order, and
    writes one [%] for [%%]: when the number of [%] that stand for an
    argument equals the number of arguments, a call on a logger with a
    drained queue that can take the pushed elements returns, and the
    next round of the flush task appends to the file exactly the text
    obtained by that substitution. In particular, on a new logger,
    [log("a=% b=%", 1, "x")] gives the file content [a=1 b=x] and
    [log("100%% done")] gives [100% done]. *)
Theorem Logger_log_substitutes :
  (forall (fmt : string) (args : list arg) (lg : Logger.t),
      LFQueue_idle (queue_ lg) ->
      Z.of_nat (log_elements fmt args) <= LFQueue.capacity (queue_ lg) ->
      spec_placeholders (c_str fmt) = length args ->
      exists lg1 lg2,
        log fmt args lg = Ok lg1 /\
        flushQueue_round show_float show_double lg1 = Ok lg2 /\
        file_ lg2 = String.append (file_ lg)
                      (spec_substitute (c_str fmt)
                         (map (arg_text show_float show_double) args))) /\
  (exists lg1 lg2,
      log "a=% b=%" [A_scalar (S_int 1); A_cstr "x"] Logger.create = Ok lg1 /\
      flushQueue_round show_float show_double lg1 = Ok lg2 /\
      file_ lg2 = "a=1 b=x"%string) /\
  (exists lg1 lg2,
      log "100%% done" [] Logger.create = Ok lg1 /\
      flushQueue_round show_float show_double lg1 = Ok lg2 /\
      file_ lg2 = "100% done"%string).
Proof.
  split; [|split].
  - intros fmt args lg Hidle Hfit Hcount.
    destruct (log_then_flush fmt args lg Hidle Hfit Hcount)
      as (lg1 & lg2 & H1 & H2 & H3 & _).
    exists lg1, lg2. auto.
  - destruct (log_then_flush "a=% b=%" [A_scalar (S_int 1); A_cstr "x"] Logger.create
                create_idle)
      as (lg1 & lg2 & H1 & H2 & H3 & _).
    + rewrite create_capacity. vm_compute. discriminate.
    + reflexivity.
    + exists lg1, lg2. split; [exact H1|]. split; [exact H2|]. rewrite H3. reflexivity.
  - destruct (log_then_flush "100%% done" [] Logger.create create_idle)
      as (lg1 & lg2 & H1 & H2 & H3 & _).
    + rewrite create_capacity. vm_compute. discriminate.
    + reflexivity.
    + exists lg1, lg2. split; [exact H1|]. split; [exact H2|]. rewrite H3. reflexivity.
Qed.

(** C5. A call of [log] exits the process whenever the format string
    and the arguments do not match, in either direction: with fewer [%]
    that stand for an argument than arguments (the format string ends
    while arguments remain) and with more of them (a [%] is reached with
    no argument left). When the two numbers agree the call returns. *)
Theorem Logger_log_aborts_on_mismatch (fmt : string) (args : list arg) (lg : Logger.t) :
  LFQueue_writable (queue_ lg) ->
  ((spec_placeholders (c_str fmt) < length args)%nat -> log fmt args lg = Aborted) /\
  ((spec_placeholders (c_str fmt) > length args)%nat -> log fmt args lg = Aborted) /\
  (spec_placeholders (c_str fmt) = length args -> exists lg', log fmt args lg = Ok lg').
Proof.
  intros Hw. destruct (log_outcome fmt args lg Hw) as [Hok Hab].
  split; [|split].
  - intros H. apply Hab. lia.
  - intros H. apply Hab. lia.
  - intros H. destruct (Hok H) as (lg' & Hl & _). exists lg'. exact Hl.
Qed.

(** C10. Every push enqueues elements whose kind tag names the union
    member that was written, with the text of the pushed value; the
    flush task reads exactly the member its [switch] selects from the
    tag, so it renders an element if and only if the tag names the
    member written, and then as the text of that member; pushed on a
    drained queue and flushed, a value appears in the file as its own
    text. *)
Theorem Logger_tag_selects_member :
  (forall (lg : Logger.t) (v : scalar),
      pushValue_scalar lg v = pushValue lg (scalar_element v) /\
      well_tagged (scalar_element v) /\
      element_text show_float show_double (scalar_element v)
      = scalar_text show_float show_double v) /\
  (forall (a : arg) (lg lg' : Logger.t),
      pushValue_arg lg a = Ok lg' ->
      exists es, pushed lg lg' es /\ Forall well_tagged es /\
                 text es = arg_text show_float show_double a) /\
  (forall (e : LogElement) (txt : string),
      render show_float show_double e = Ok txt <->
      well_tagged e /\ txt = element_text show_float show_double e) /\
  (forall (a : arg) (lg : Logger.t),
      LFQueue_idle (queue_ lg) ->
      Z.of_nat (arg_elements a) <= LFQueue.capacity (queue_ lg) ->
      exists lg1 lg2,
        pushValue_arg lg a = Ok lg1 /\
        flushQueue_round show_float show_double lg1 = Ok lg2 /\
        file_ lg2 = String.append (file_ lg) (arg_text show_float show_double a)).
Proof.
  split4.
  - intros lg v. split; [|split].
    + apply pushValue_scalar_element.
    + apply scalar_element_well_tagged.
    + apply scalar_element_text.
  - intros a lg lg' H.
    destruct (pushValue_arg_pushed a lg lg' H) as (es & Hp & Hwt & Htxt & _).
    exists es. auto.
  - intros e txt. split.
    + intros H. pose proof (render_Ok_well_tagged e txt H) as Hwt.
      rewrite (render_well_tagged e Hwt) in H. injection H as <-. auto.
    + intros [Hwt ->]. apply render_well_tagged. exact Hwt.
  - intros a lg Hidle Hfit.
    destruct (push_then_flush a lg Hidle Hfit) as (lg1 & lg2 & H1 & H2 & H3 & _).
    exists lg1, lg2. auto.
Qed.

End LoggerFacts.

Lemma create_writable : LFQueue_writable (Logger.queue_ Logger.create).
Proof. exact (holds_writable _ _ _ (idle_holds _ create_idle)). Qed.

Lemma Logger_log_substitutes_witness :
  exists lg1 lg2,
    Logger.log "port:% ok" [Logger.A_scalar (Logger.S_int 8080)] Logger.create = Ok lg1 /\
    Logger.flushQueue_round (fun _ => EmptyString) (fun _ => EmptyString) lg1 = Ok lg2 /\
    Logger.file_ lg2
    = String.append (Logger.file_ Logger.create)
        (Logger.spec_substitute (Logger.c_str "port:% ok")
           (map (Logger.arg_text (fun _ => EmptyString) (fun _ => EmptyString))
              [Logger.A_scalar (Logger.S_int 8080)])).
Proof.
  apply (proj1 (Logger_log_substitutes (fun _ => EmptyString) (fun _ => EmptyString))).
  - exact create_idle.
  - rewrite create_capacity. vm_compute. discriminate.
  - reflexivity.
Defined.

Lemma Logger_log_aborts_on_mismatch_witness :
  Logger.log "a=%" [Logger.A_scalar (Logger.S_int 1); Logger.A_cstr "x"] Logger.create
  = Aborted /\
  Logger.log "a=% b=%" [Logger.A_scalar (Logger.S_int 1)] Logger.create = Aborted /\
  exists lg', Logger.log "a=% b=%" [Logger.A_scalar (Logger.S_int 1); Logger.A_cstr "x"]
                Logger.create = Ok lg'.
Proof.
  split; [|split].
  - apply (proj1 (Logger_log_aborts_on_mismatch "a=%"
             [Logger.A_scalar (Logger.S_int 1); Logger.A_cstr "x"] Logger.create
             create_writable)).
    vm_compute. lia.
  - apply (proj1 (proj2 (Logger_log_aborts_on_mismatch "a=% b=%"
             [Logger.A_scalar (Logger.S_int 1)] Logger.create create_writable))).
    vm_compute. lia.
  - apply (proj2 (proj2 (Logger_log_aborts_on_mismatch "a=% b=%"
             [Logger.A_scalar (Logger.S_int 1); Logger.A_cstr "x"] Logger.create
             create_writable))).
    reflexivity.
Defined.

Lemma Logger_tag_selects_member_witness :
  exists lg1 lg2,
    Logger.pushValue_arg Logger.create (Logger.A_scalar (Logger.S_unsigned_long 42)) = Ok lg1 /\
    Logger.flushQueue_round (fun _ => EmptyString) (fun _ => EmptyString) lg1 = Ok lg2 /\
    Logger.file_ lg2
    = String.append (Logger.file_ Logger.create)
        (Logger.arg_text (fun _ => EmptyString) (fun _ => EmptyString)
           (Logger.A_scalar (Logger.S_unsigned_long 42))).
Proof.
  apply (Logger_tag_selects_member (fun _ => EmptyString) (fun _ => EmptyString)).
  - exact create_idle.
  - rewrite create_capacity. vm_compute. discriminate.
Defined.

(** ** The multicast socket *)

Section McastSocketFacts.
Import McastSocket.

Lemma memcpy_at_Ok (buf data : list Byte.byte) (at_ len : Z) :
  0 <= at_ -> 0 <= len <= Z.of_nat (length data) ->
  at_ + len <= Z.of_nat (length buf) ->
  memcpy_at buf at_ data len = Ok (store_bytes buf at_ (take (Z.to_nat len) data)).
Proof.
  intros Hat Hlen Hfit. unfold memcpy_at.
  replace ((0 <=? at_) && (0 <=? len) && (len <=? Z.of_nat (length data))
           && (at_ + len <=? Z.of_nat (length buf))) with true; [reflexivity|].
  symmetry. rewrite !andb_true_iff, !Z.leb_le. lia.
Qed.

Lemma create_outbound_length :
  Z.of_nat (length (outbound_data_ McastSocket.create)) = McastBufferSize.
Proof.
  unfold McastSocket.create. cbn [outbound_data_].
  rewrite length_replicate, Z2Nat.id by (unfold McastBufferSize; lia).
  reflexivity.
Qed.

Lemma McastBufferSize_range : 0 < McastBufferSize < 2 ^ 64.
Proof. unfold McastBufferSize. lia. Qed.

Lemma send_in_bounds (s : McastSocket.t) (data : list Byte.byte) (len : Z) :
  0 <= next_send_valid_index_ s ->
  Z.of_nat (length (outbound_data_ s)) = McastBufferSize ->
  0 <= len <= Z.of_nat (length data) ->
  next_send_valid_index_ s + len <= McastBufferSize ->
  send s data len =
    if next_send_valid_index_ s + len <? McastBufferSize then
      Ok {| socket_fd_ := socket_fd_ s;
            outbound_data_ :=
              store_bytes (outbound_data_ s) (next_send_valid_index_ s)
                (take (Z.to_nat len) data);
            next_send_valid_index_ := next_send_valid_index_ s + len;
            inbound_data_ := inbound_data_ s;
            next_rcv_valid_index_ := next_rcv_valid_index_ s;
            time_str_ := time_str_ s |}
    else Aborted.
Proof.
  intros Hidx Hbuf Hlen Hfit. pose proof McastBufferSize_range as HM.
  unfold send. rewrite memcpy_at_Ok by lia.
  rewrite size_t_wrap_small by lia.
  cbv beta iota delta [mbind outcome_bind].
  destruct (next_send_valid_index_ s + len <? McastBufferSize); reflexivity.
Qed.

(** C7, as the code has it. For a socket whose outbound buffer has its
    [McastBufferSize] bytes and a call [send(data, length)] whose bytes
    fit the buffer past the high-water mark (mark + length <= capacity),
    the call exits the process if and only if mark + length reaches the
    capacity (the assertion is mark + length < capacity, so a buffer
    filled exactly also exits); otherwise it returns, the [length] bytes
    are in the buffer from the former mark on, the bytes before and
    after them are unchanged, and the mark has advanced by [length]. *)
Theorem McastSocket_send_appends (s : McastSocket.t) (data : list Byte.byte) (len : Z) :
  0 <= next_send_valid_index_ s ->
  Z.of_nat (length (outbound_data_ s)) = McastBufferSize ->
  0 <= len <= Z.of_nat (length data) ->
  next_send_valid_index_ s + len <= McastBufferSize ->
  (send s data len = Aborted <-> McastBufferSize <= next_send_valid_index_ s + len) /\
  (next_send_valid_index_ s + len < McastBufferSize ->
   exists s',
     send s data len = Ok s' /\
     next_send_valid_index_ s' = next_send_valid_index_ s + len /\
     outbound_data_ s'
     = take (Z.to_nat (next_send_valid_index_ s)) (outbound_data_ s)
       ++ take (Z.to_nat len) data
       ++ drop (Z.to_nat (next_send_valid_index_ s + len)) (outbound_data_ s) /\
     length (outbound_data_ s') = length (outbound_data_ s)).
Proof.
  intros Hidx Hbuf Hlen Hfit.
  rewrite (send_in_bounds s data len Hidx Hbuf Hlen Hfit).
  destruct (Z.ltb_spec (next_send_valid_index_ s + len) McastBufferSize) as [Hlt|Hge].
  - split; [split; [discriminate | lia]|].
    intros _. eexists; split; [reflexivity|]. cbn [next_send_valid_index_ outbound_data_].
    split; [reflexivity|].
    assert (Htake : length (take (Z.to_nat len) data) = Z.to_nat len)
      by (rewrite length_take; lia).
    unfold store_bytes. rewrite Htake.
    replace (Z.to_nat (next_send_valid_index_ s) + Z.to_nat len)%nat
      with (Z.to_nat (next_send_valid_index_ s + len)) by lia.
    split; [reflexivity|].
    rewrite !length_app, length_take, length_drop, Htake. lia.
  - split; [split; [lia | reflexivity]|]. lia.
Qed.

End McastSocketFacts.

(** C7 as stated fails: on a new socket, a [send] whose length is
    exactly the capacity of the buffer does not exceed it, and the call
    exits the process all the same. *)
Lemma McastSocket_send_exact_fill_aborts :
  let s := McastSocket.create in
  let data := replicate (Z.to_nat McastSocket.McastBufferSize) Byte.x00 in
  let len := McastSocket.McastBufferSize in
  ~ (McastSocket.send s data len = Aborted <->
     McastSocket.next_send_valid_index_ s + len
     > Z.of_nat (length (McastSocket.outbound_data_ s))).
Proof.
  intros s data len [Hab _].
  pose proof McastBufferSize_range as HM.
  assert (Hs : McastSocket.send s data len = Aborted).
  { rewrite send_in_bounds.
    - subst s len. cbn [McastSocket.create McastSocket.next_send_valid_index_].
      destruct (Z.ltb_spec (0 + McastSocket.McastBufferSize) McastSocket.McastBufferSize);
        [lia | reflexivity].
    - subst s. cbn [McastSocket.create McastSocket.next_send_valid_index_]. lia.
    - apply create_outbound_length.
    - subst data len. rewrite length_replicate. lia.
    - subst s len. cbn [McastSocket.create McastSocket.next_send_valid_index_]. lia. }
  specialize (Hab Hs). subst s len. rewrite create_outbound_length in Hab.
  cbn [McastSocket.create McastSocket.next_send_valid_index_] in Hab. lia.
Qed.

Lemma McastSocket_send_appends_witness :
  (McastSocket.send McastSocket.create [Byte.x01; Byte.x02; Byte.x03] 3 = Aborted <->
   McastSocket.McastBufferSize
   <= McastSocket.next_send_valid_index_ McastSocket.create + 3) /\
  (McastSocket.next_send_valid_index_ McastSocket.create + 3 < McastSocket.McastBufferSize ->
   exists s',
     McastSocket.send McastSocket.create [Byte.x01; Byte.x02; Byte.x03] 3 = Ok s' /\
     McastSocket.next_send_valid_index_ s'
     = McastSocket.next_send_valid_index_ McastSocket.create + 3 /\
     McastSocket.outbound_data_ s'
     = take (Z.to_nat (McastSocket.next_send_valid_index_ McastSocket.create))
         (McastSocket.outbound_data_ McastSocket.create)
       ++ take (Z.to_nat 3) [Byte.x01; Byte.x02; Byte.x03]
       ++ drop (Z.to_nat (McastSocket.next_send_valid_index_ McastSocket.create + 3))
            (McastSocket.outbound_data_ McastSocket.create) /\
     length (McastSocket.outbound_data_ s')
     = length (McastSocket.outbound_data_ McastSocket.create)).
Proof.
  apply (McastSocket_send_appends McastSocket.create [Byte.x01; Byte.x02; Byte.x03] 3).
  - cbn [McastSocket.create McastSocket.next_send_valid_index_]. lia.
  - apply create_outbound_length.
  - cbn [length]. lia.
  - cbn [McastSocket.create McastSocket.next_send_valid_index_].
    unfold McastSocket.McastBufferSize. lia.
Defined.

Section McastSendAndRecvFacts.
Import McastSocket.
Variable source_file : string.

Lemma sendAndRecv_Ok_inv (cb : option callback) (env : io) (s : McastSocket.t)
  (lg : Logger.t) (b : bool) (s' : McastSocket.t) (lg' : Logger.t) :
  sendAndRecv source_file cb env s lg = Ok (b, s', lg') ->
  next_send_valid_index_ s' = 0 /\ b = (0 <? n_rcv env).
Proof.
  unfold sendAndRecv. intros H.
  apply bind_Ok_inv in H as ([s1 lg1] & _ & H).
  apply bind_Ok_inv in H as ([s2 lg2] & _ & H).
  injection H as <- <- _. split; reflexivity.
Qed.

Lemma sendAndRecv_returns (cb : callback) (env : io) (s : McastSocket.t) (lg : Logger.t) :
  LFQueue_writable (Logger.queue_ lg) ->
  (forall s1 lg1, LFQueue_writable (Logger.queue_ lg1) ->
     exists s2 lg2, cb s1 lg1 = Ok (s2, lg2) /\ LFQueue_writable (Logger.queue_ lg2)) ->
  exists s' lg', sendAndRecv source_file (Some cb) env s lg = Ok (0 <? n_rcv env, s', lg').
Proof.
  intros Hw Hcb. unfold sendAndRecv.
  destruct (0 <? n_rcv env).
  - cbv zeta.
    match goal with |- context [Logger.log ?f ?a lg] =>
      destruct (proj1 (log_outcome f a lg Hw) eq_refl) as (lg0 & Hl & Hw0);
      rewrite Hl
    end.
    cbv beta iota delta [mbind outcome_bind].
    match goal with |- context [cb ?s1 lg0] =>
      destruct (Hcb s1 lg0 Hw0) as (s2 & lg2 & Hc & Hw2); rewrite Hc
    end.
    cbv beta iota.
    destruct (0 <? next_send_valid_index_ s2).
    + match goal with |- context [Logger.log ?f ?a lg2] =>
        destruct (proj1 (log_outcome f a lg2 Hw2) eq_refl) as (lg3 & Hl3 & Hw3);
        rewrite Hl3
      end.
      cbv beta iota delta [mbind outcome_bind]. eauto.
    + eauto.
  - cbv beta iota delta [mbind outcome_bind].
    destruct (0 <? next_send_valid_index_ s).
    + match goal with |- context [Logger.log ?f ?a lg] =>
        destruct (proj1 (log_outcome f a lg Hw) eq_refl) as (lg3 & Hl3 & Hw3);
        rewrite Hl3
      end.
      cbv beta iota delta [mbind outcome_bind]. eauto.
    + eauto.
Qed.

(** C8. Whenever a call of [sendAndRecv] on a socket returns, the
    outbound high-water mark is zero, whatever it was before, whatever
    [::send] reported as sent and whatever the receive callback did, and
    the value returned tells whether bytes were received. The call does
    return when the logger can be written to and the receive callback
    returns. *)
Theorem McastSocket_sendAndRecv_resets_mark (cb : option callback) (env : io)
  (s : McastSocket.t) (lg : Logger.t) :
  (forall b s' lg',
      sendAndRecv source_file cb env s lg = Ok (b, s', lg') ->
      next_send_valid_index_ s' = 0 /\ b = (0 <? n_rcv env)) /\
  (forall f : callback,
      cb = Some f ->
      LFQueue_writable (Logger.queue_ lg) ->
      (forall s1 lg1, LFQueue_writable (Logger.queue_ lg1) ->
         exists s2 lg2, f s1 lg1 = Ok (s2, lg2) /\ LFQueue_writable (Logger.queue_ lg2)) ->
      exists s' lg',
        sendAndRecv source_file cb env s lg = Ok (0 <? n_rcv env, s', lg') /\
        next_send_valid_index_ s' = 0).
Proof.
  split.
  - intros b s' lg'. apply sendAndRecv_Ok_inv.
  - intros f -> Hw Hf.
    destruct (sendAndRecv_returns f env s lg Hw Hf) as (s' & lg' & H).
    exists s', lg'. split; [exact H|].
    apply (sendAndRecv_Ok_inv _ _ _ _ _ _ _ H).
Qed.

End McastSendAndRecvFacts.

Lemma McastSocket_sendAndRecv_resets_mark_witness :
  let s :=
    {| McastSocket.socket_fd_ := 3;
       McastSocket.outbound_data_ := McastSocket.outbound_data_ McastSocket.create;
       McastSocket.next_send_valid_index_ := 5;
       McastSocket.inbound_data_ := McastSocket.inbound_data_ McastSocket.create;
       McastSocket.next_rcv_valid_index_ := 0;
       McastSocket.time_str_ := EmptyString |} in
  let env := McastSocket.mkIo 2 [Byte.x01; Byte.x02] 3 "Thu Sep 20 14:55:02 2023
" "Thu Sep 20 14:55:02 2023
" in
  let cb : McastSocket.callback := fun s1 lg1 => Ok (s1, lg1) in
  exists s' lg',
    McastSocket.sendAndRecv "mcast_socket.cpp" (Some cb) env s Logger.create
    = Ok (0 <? McastSocket.n_rcv env, s', lg') /\
    McastSocket.next_send_valid_index_ s' = 0.
Proof.
  intros s env cb.
  apply (proj2 (McastSocket_sendAndRecv_resets_mark "mcast_socket.cpp" (Some cb) env s
                  Logger.create) cb eq_refl create_writable).
  intros s1 lg1 Hw. exists s1, lg1. split; [reflexivity | exact Hw].
Defined.

(** ** The reactor *)

Section TCPServerFacts.
Import TCPServer.
Context {World : Type}.
Variable socket_sendAndRecv : socket_ptr -> World -> outcome (bool * World).
Variable recv_finished_callback_ : option (World -> outcome World).

Local Abbreviation noting := (noting_socket socket_sendAndRecv).
Local Abbreviation noting_cb := (noting_callback recv_finished_callback_).

Lemma callbacks_fired_app (evs1 evs2 : list event) :
  callbacks_fired (evs1 ++ evs2) = (callbacks_fired evs1 + callbacks_fired evs2)%nat.
Proof. unfold callbacks_fired. rewrite filter_app, length_app. reflexivity. Qed.

Lemma invoked_on_app (evs1 evs2 : list event) :
  invoked_on (evs1 ++ evs2) = invoked_on evs1 ++ invoked_on evs2.
Proof. unfold invoked_on. apply omap_app. Qed.

Lemma invoked_on_cons (socket : socket_ptr) (r : bool) (evs : list event) :
  invoked_on (SocketSendAndRecv socket r :: evs) = socket :: invoked_on evs.
Proof. reflexivity. Qed.

Lemma callbacks_fired_cons (socket : socket_ptr) (r : bool) (evs : list event) :
  callbacks_fired (SocketSendAndRecv socket r :: evs) = callbacks_fired evs.
Proof. reflexivity. Qed.

Lemma received_on_cons (socket : socket_ptr) (r : bool) (evs : list event) :
  received_on (SocketSendAndRecv socket r :: evs)
  = if r then socket :: received_on evs else received_on evs.
Proof. destruct r; reflexivity. Qed.

Lemma noting_socket_eq (socket : socket_ptr) (w : World) (journal : list event) :
  noting socket (w, journal)
  = match socket_sendAndRecv socket w with
    | Ok (r, w1) => Ok (r, (w1, journal ++ [SocketSendAndRecv socket r]))
    | Aborted => Aborted
    | Undefined => Undefined
    | OutOfFuel => OutOfFuel
    end.
Proof.
  unfold noting_socket. cbn [fst snd].
  destruct (socket_sendAndRecv socket w) as [[r w1]| | |]; reflexivity.
Qed.

(** The pass over the read-interest sockets, with and without the
    journal: the same outcome, and when it returns the journal has
    gained one entry for each socket, in order, with the value its call
    returned; [recv] is set as soon as one of them is true. *)
Lemma for_each_receive_noted (sockets : list socket_ptr) :
  forall (recv : bool) (w : World) (journal : list event),
  match for_each_receive socket_sendAndRecv sockets recv w with
  | Ok (recv', w') =>
      exists evs,
        for_each_receive noting sockets recv (w, journal)
        = Ok (recv', (w', journal ++ evs)) /\
        invoked_on evs = sockets /\
        callbacks_fired evs = O /\
        recv' = recv || bool_decide (received_on evs <> [])
  | Aborted => for_each_receive noting sockets recv (w, journal) = Aborted
  | Undefined => for_each_receive noting sockets recv (w, journal) = Undefined
  | OutOfFuel => for_each_receive noting sockets recv (w, journal) = OutOfFuel
  end.
Proof.
  induction sockets as [|socket sockets IH]; intros recv w journal;
    cbn [for_each_receive].
  - exists []. rewrite app_nil_r, orb_false_r. auto.
  - rewrite noting_socket_eq.
    destruct (socket_sendAndRecv socket w) as [[r w1]| | |]; try reflexivity.
    rewrite !bind_Ok_l. cbv beta iota.
    specialize (IH (recv || r) w1 (journal ++ [SocketSendAndRecv socket r])).
    destruct (for_each_receive socket_sendAndRecv sockets (recv || r) w1)
      as [[recv' w']| | |]; try exact IH.
    destruct IH as (evs & E & Hinv & Hcb & Hrecv).
    exists (SocketSendAndRecv socket r :: evs).
    rewrite E, <- app_assoc.
    rewrite invoked_on_cons, callbacks_fired_cons, received_on_cons, Hinv.
    split; [reflexivity|]. split; [reflexivity|]. split; [exact Hcb|].
    rewrite Hrecv. destruct r.
    + rewrite (bool_decide_eq_true_2 (socket :: received_on evs <> [])) by discriminate.
      destruct recv; reflexivity.
    + rewrite orb_false_r. reflexivity.
Qed.

Lemma for_each_send_noted (sockets : list socket_ptr) :
  forall (w : World) (journal : list event),
  match for_each_send socket_sendAndRecv sockets w with
  | Ok w' =>
      exists evs,
        for_each_send noting sockets (w, journal) = Ok (w', journal ++ evs) /\
        invoked_on evs = sockets /\
        callbacks_fired evs = O
  | Aborted => for_each_send noting sockets (w, journal) = Aborted
  | Undefined => for_each_send noting sockets (w, journal) = Undefined
  | OutOfFuel => for_each_send noting sockets (w, journal) = OutOfFuel
  end.
Proof.
  induction sockets as [|socket sockets IH]; intros w journal; cbn [for_each_send].
  - exists []. rewrite app_nil_r. auto.
  - rewrite noting_socket_eq.
    destruct (socket_sendAndRecv socket w) as [[r w1]| | |]; try reflexivity.
    rewrite !bind_Ok_l. cbv beta iota.
    specialize (IH w1 (journal ++ [SocketSendAndRecv socket r])).
    destruct (for_each_send socket_sendAndRecv sockets w1) as [w'| | |]; try exact IH.
    destruct IH as (evs & E & Hinv & Hcb).
    exists (SocketSendAndRecv socket r :: evs).
    rewrite E, <- app_assoc, invoked_on_cons, callbacks_fired_cons, Hinv. auto.
Qed.

Lemma fire_if_noted (recv : bool) (w : World) (journal : list event) :
  match fire_if recv_finished_callback_ recv w with
  | Ok w' =>
      fire_if noting_cb recv (w, journal)
      = Ok (w', journal ++ (if recv then [RecvFinishedCallback] else []))
  | Aborted => fire_if noting_cb recv (w, journal) = Aborted
  | Undefined => fire_if noting_cb recv (w, journal) = Undefined
  | OutOfFuel => fire_if noting_cb recv (w, journal) = OutOfFuel
  end.
Proof.
  unfold fire_if, noting_callback. destruct recv.
  - destruct recv_finished_callback_ as [c|]; [|reflexivity]. cbn [fst snd].
    destruct (c w) as [w'| | |]; reflexivity.
  - rewrite app_nil_r. reflexivity.
Qed.

(** The whole tick, with and without the journal. *)
Lemma sendAndRecv_noted (srv : TCPServer.t) (w : World) :
  match sendAndRecv socket_sendAndRecv recv_finished_callback_ srv w with
  | Ok w' =>
      exists evs_receive evs_send,
        sendAndRecv noting noting_cb srv (w, [])
        = Ok (w', evs_receive
                  ++ (if bool_decide (received_on evs_receive <> [])
                      then [RecvFinishedCallback] else [])
                  ++ evs_send) /\
        invoked_on evs_receive = receive_sockets_ srv /\
        callbacks_fired evs_receive = O /\
        invoked_on evs_send = send_sockets_ srv /\
        callbacks_fired evs_send = O
  | Aborted => sendAndRecv noting noting_cb srv (w, []) = Aborted
  | Undefined => sendAndRecv noting noting_cb srv (w, []) = Undefined
  | OutOfFuel => sendAndRecv noting noting_cb srv (w, []) = OutOfFuel
  end.
Proof.
  unfold sendAndRecv.
  pose proof (for_each_receive_noted (receive_sockets_ srv) false w []) as H1.
  destruct (for_each_receive socket_sendAndRecv (receive_sockets_ srv) false w)
    as [[recv w1]| | |]; try (rewrite H1; reflexivity).
  destruct H1 as (evs1 & E1 & Hinv1 & Hcb1 & Hrecv). rewrite E1, !bind_Ok_l.
  cbn [orb app] in Hrecv |- *. subst recv.
  pose proof (fire_if_noted (bool_decide (received_on evs1 <> [])) w1 evs1) as H2.
  destruct (fire_if recv_finished_callback_ (bool_decide (received_on evs1 <> [])) w1)
    as [w2| | |]; try (rewrite H2; reflexivity).
  rewrite H2, !bind_Ok_l.
  pose proof (for_each_send_noted (send_sockets_ srv) w2
                (evs1 ++ (if bool_decide (received_on evs1 <> [])
                          then [RecvFinishedCallback] else []))) as H3.
  destruct (for_each_send socket_sendAndRecv (send_sockets_ srv) w2) as [w3| | |];
    try exact H3.
  destruct H3 as (evs3 & E3 & Hinv3 & Hcb3).
  exists evs1, evs3. rewrite E3, <- app_assoc. auto.
Qed.

Lemma for_each_receive_returns (sockets : list socket_ptr) :
  (forall socket w0, exists r w1, socket_sendAndRecv socket w0 = Ok (r, w1)) ->
  forall (recv : bool) (w : World),
  exists recv' w', for_each_receive socket_sendAndRecv sockets recv w = Ok (recv', w').
Proof.
  intros Hf. induction sockets as [|socket sockets IH]; intros recv w;
    cbn [for_each_receive]; [eauto|].
  destruct (Hf socket w) as (r & w1 & E). rewrite E, bind_Ok_l. apply IH.
Qed.

Lemma for_each_send_returns (sockets : list socket_ptr) :
  (forall socket w0, exists r w1, socket_sendAndRecv socket w0 = Ok (r, w1)) ->
  forall w : World, exists w', for_each_send socket_sendAndRecv sockets w = Ok w'.
Proof.
  intros Hf. induction sockets as [|socket sockets IH]; intros w;
    cbn [for_each_send]; [eauto|].
  destruct (Hf socket w) as (r & w1 & E). rewrite E, bind_Ok_l. apply IH.
Qed.

(** C6. One tick of the reactor's [sendAndRecv], observed through a
    journal that the socket function and the callback write themselves
    when they are called (so that an entry is there only if the call
    was made, and carries the value the call returned). Keeping the
    journal does not change what the tick does to the world. Whenever
    the tick returns, the journal holds: one call of [sendAndRecv] on
    every socket of the read-interest set, in order; then the
    batch-finished callback, once if at least one of those calls
    returned true and not at all otherwise, however many of them did;
    then one call on every socket of the write-interest set. When the
    socket calls return and the callback, if set, returns, the tick
    returns, except that with the callback left empty (its default) a
    tick in which some socket received exits the process. *)
Theorem TCPServer_tick_callback_once (srv : TCPServer.t) (w : World) :
  sendAndRecv socket_sendAndRecv recv_finished_callback_ srv w
  = (sendAndRecv noting noting_cb srv (w, []) ≫= fun wj => Ok (fst wj)) /\
  (forall w' evs,
      sendAndRecv noting noting_cb srv (w, []) = Ok (w', evs) ->
      exists evs_receive evs_send,
        evs = evs_receive
              ++ (if bool_decide (received_on evs_receive <> [])
                  then [RecvFinishedCallback] else [])
              ++ evs_send /\
        invoked_on evs_receive = receive_sockets_ srv /\
        callbacks_fired evs_receive = O /\
        invoked_on evs_send = send_sockets_ srv /\
        callbacks_fired evs_send = O /\
        callbacks_fired evs
        = (if bool_decide (received_on evs_receive <> []) then 1%nat else O)) /\
  ((forall socket w0, exists r w1, socket_sendAndRecv socket w0 = Ok (r, w1)) ->
   (forall c, recv_finished_callback_ = Some c -> forall w0, exists w1, c w0 = Ok w1) ->
   exists recv w1 evs_receive,
     for_each_receive noting (receive_sockets_ srv) false (w, [])
     = Ok (recv, (w1, evs_receive)) /\
     recv = bool_decide (received_on evs_receive <> []) /\
     (recv_finished_callback_ = None -> recv = true ->
      sendAndRecv socket_sendAndRecv recv_finished_callback_ srv w = Aborted) /\
     (recv_finished_callback_ <> None \/ recv = false ->
      exists w', sendAndRecv socket_sendAndRecv recv_finished_callback_ srv w = Ok w')).
Proof.
  pose proof (sendAndRecv_noted srv w) as Hn. split; [|split].
  - destruct (sendAndRecv socket_sendAndRecv recv_finished_callback_ srv w) as [w'| | |];
      [|rewrite Hn; reflexivity..].
    destruct Hn as (evs1 & evs3 & E & _). rewrite E. reflexivity.
  - intros w' evs H.
    destruct (sendAndRecv socket_sendAndRecv recv_finished_callback_ srv w) as [w0| | |];
      [|congruence..].
    destruct Hn as (evs1 & evs3 & E & Hinv1 & Hcb1 & Hinv3 & Hcb3).
    rewrite E in H. injection H as _ <-.
    exists evs1, evs3. split; [reflexivity|]. split; [exact Hinv1|].
    split; [exact Hcb1|]. split; [exact Hinv3|]. split; [exact Hcb3|].
    rewrite !callbacks_fired_app, Hcb1, Hcb3.
    destruct (bool_decide (received_on evs1 <> [])); reflexivity.
  - intros Hf Hc. clear Hn.
    destruct (for_each_receive_returns (receive_sockets_ srv) Hf false w)
      as (recv & w1 & E1).
    pose proof (for_each_receive_noted (receive_sockets_ srv) false w []) as H1.
    rewrite E1 in H1. destruct H1 as (evs1 & En & _ & _ & Hrecv).
    cbn [orb app] in Hrecv, En.
    exists recv, w1, evs1. split; [exact En|]. split; [exact Hrecv|].
    unfold sendAndRecv. rewrite E1, bind_Ok_l. split.
    + intros Hnone ->. unfold fire_if. rewrite Hnone. reflexivity.
    + intros Hcase.
      assert (Hfire : exists w2, fire_if recv_finished_callback_ recv w1 = Ok w2).
      { unfold fire_if. destruct recv; [|eauto].
        destruct recv_finished_callback_ as [c|] eqn:Hcb.
        - apply (Hc c eq_refl).
        - destruct Hcase as [Hne|?]; [contradiction | discriminate]. }
      destruct Hfire as (w2 & E2). rewrite E2, bind_Ok_l.
      apply (for_each_send_returns (send_sockets_ srv) Hf).
Qed.

End TCPServerFacts.

(** ** Socket setup *)

Section SocketSetupFacts.
Import SocketUtils.
Variable source_file : string.
Variable source_line : Z.

Lemma no_bind_snoc (tr : list syscall) (c : syscall) :
  no_bind tr -> is_bind c = false -> no_bind (tr ++ [c]).
Proof.
  intros Htr Hc. apply Forall_app. split; [exact Htr|].
  constructor; [exact Hc | constructor].
Qed.

Ltac split_on_tests H :=
  repeat match type of H with
         | context [if ?b then _ else _] => destruct b eqn:?; simpl in H
         end.

Lemma createSocket_body_no_bind (os : OS) (cfg : SocketCfg) (rp : addrinfo)
  (tr : list syscall) (fd : Z) (tr' : list syscall) :
  createSocket_body os cfg rp tr = Ok (fd, tr') -> no_bind tr -> no_bind tr'.
Proof.
  unfold createSocket_body, setNonBlocking, disableNagle, setSOTimestamp, sys, ASSERT.
  intros H Hnb.
  destruct cfg as [ip iface port udp listening ts]; simpl in H.
  destruct udp, listening, ts; simpl in H; split_on_tests H; try discriminate;
    injection H as <- <-; repeat apply no_bind_snoc; auto.
Qed.

Lemma createSocket_no_bind (os : OS) (lg : Logger.t) (cfg : SocketCfg)
  (tr : list syscall) (fd : Z) (lg' : Logger.t) (tr' : list syscall) :
  createSocket source_file source_line os lg cfg tr = Ok (fd, lg', tr') ->
  no_bind tr -> no_bind tr'.
Proof.
  unfold createSocket, getIfaceIP, sys, ASSERT. intros H Hnb.
  destruct (String.eqb (ip_ cfg) EmptyString).
  - apply bind_Ok_inv in H as (lg1 & _ & H).
    destruct (_ =? 0) in H; simpl in H; [|discriminate].
    destruct (gai_result os) as [|rp rest]; [discriminate|].
    apply bind_Ok_inv in H as ([fd1 tr1] & Hb & H). injection H as <- _ <-.
    apply (createSocket_body_no_bind _ _ _ _ _ _ Hb).
    repeat apply no_bind_snoc; auto.
  - apply bind_Ok_inv in H as (lg1 & _ & H).
    destruct (_ =? 0) in H; simpl in H; [|discriminate].
    destruct (gai_result os) as [|rp rest]; [discriminate|].
    apply bind_Ok_inv in H as ([fd1 tr1] & Hb & H). injection H as <- _ <-.
    apply (createSocket_body_no_bind _ _ _ _ _ _ Hb).
    repeat apply no_bind_snoc; auto.
Qed.

End SocketSetupFacts.

Section SocketSetupRuns.
Import SocketUtils.
Local Opaque Logger.log.

Lemma createSocket_listening_trace (file : string) (line : Z) (lg : Logger.t) :
  LFQueue_writable (Logger.queue_ lg) ->
  exists lg',
    createSocket file line os_all_succeed lg listening_cfg []
    = Ok (7, lg',
          [ Sys_getifaddrs;
            Sys_getaddrinfo "127.0.0.1" "8080" (mkHints true false);
            Sys_socket 2 1 6;
            Sys_fcntl_getfl 7;
            Sys_fcntl_setfl 7 4;
            Sys_setsockopt 7 TCP_NODELAY;
            Sys_setsockopt 7 SO_REUSEADDR;
            Sys_listen 7 1024;
            Sys_listen 7 1024 ]).
Proof.
  intros Hw. unfold createSocket. simpl.
  match goal with |- context [Logger.log ?f ?a lg] =>
    destruct (proj1 (log_outcome f a lg Hw) eq_refl) as (lg1 & Hl & _); rewrite Hl
  end.
  simpl. exists lg1. reflexivity.
Qed.

(** C2 fails on the code. Set up with a listening configuration on an
    operating system where every call succeeds, [createSocket] makes
    these calls, in this order, and returns the descriptor: the address
    is resolved, the descriptor is created and made non-blocking,
    [TCP_NODELAY] and [SO_REUSEADDR] are set, and [listen] is called
    twice. The descriptor is never bound: no trace of [createSocket],
    for any configuration and any answers of the operating system,
    contains a call of [bind]. *)
Theorem createSocket_listening_omits_bind :
  (forall (file : string) (line : Z),
    exists lg',
      createSocket file line os_all_succeed Logger.create listening_cfg []
      = Ok (7, lg',
            [ Sys_getifaddrs;
              Sys_getaddrinfo "127.0.0.1" "8080" (mkHints true false);
              Sys_socket 2 1 6;
              Sys_fcntl_getfl 7;
              Sys_fcntl_setfl 7 4;
              Sys_setsockopt 7 TCP_NODELAY;
              Sys_setsockopt 7 SO_REUSEADDR;
              Sys_listen 7 1024;
              Sys_listen 7 1024 ])) /\
  (forall (file : string) (line : Z) (os : OS) (lg : Logger.t) (cfg : SocketCfg)
          (fd : Z) (lg' : Logger.t) (tr : list syscall),
      createSocket file line os lg cfg [] = Ok (fd, lg', tr) -> no_bind tr).
Proof.
  split.
  - intros file line. apply createSocket_listening_trace. exact create_writable.
  - intros file line os lg cfg fd lg' tr H.
    apply (createSocket_no_bind file line os lg cfg [] fd lg' tr H). constructor.
Qed.

(** The reactor's [listen] on the same operating system: the queue is
    created, the listener is set up as above, then registered for
    read-readiness. *)
Lemma TCPServer_listen_trace (file : string) (line : Z) (needs_so_timestamp : bool)
  (srv : TCPServer.t) :
  exists srv' lg',
    TCPServer.listen file line needs_so_timestamp os_all_succeed
      Logger.create srv "lo" 8080 []
    = Ok (srv', lg',
          [ Sys_kqueue;
            Sys_getifaddrs;
            Sys_getaddrinfo "127.0.0.1" "8080" (mkHints true false);
            Sys_socket 2 1 6;
            Sys_fcntl_getfl 7;
            Sys_fcntl_setfl 7 4;
            Sys_setsockopt 7 TCP_NODELAY;
            Sys_setsockopt 7 SO_REUSEADDR;
            Sys_listen 7 1024;
            Sys_listen 7 1024 ]
          ++ (if needs_so_timestamp then [Sys_setsockopt 7 SO_TIMESTAMP] else [])
          ++ [Sys_kevent_add_read 5 7]).
Proof.
  unfold TCPServer.listen, TCPServer.TCPSocket_connect, createSocket.
  generalize create_writable. generalize Logger.create. intros lg Hw. simpl.
  match goal with |- context [Logger.log ?f ?a lg] =>
    destruct (proj1 (log_outcome f a lg Hw) eq_refl) as (lg1 & Hl & _); rewrite Hl
  end.
  destruct needs_so_timestamp; simpl; eexists _, lg1; reflexivity.
Qed.

End SocketSetupRuns.

Lemma createSocket_listening_omits_bind_witness :
  exists lg' tr,
    SocketUtils.createSocket "socket_utils.h" 333 os_all_succeed Logger.create
      listening_cfg [] = Ok (7, lg', tr) /\
    no_bind tr.
Proof.
  destruct (proj1 createSocket_listening_omits_bind "socket_utils.h"%string 333) as [lg' H].
  exists lg'. eexists. split; [exact H|].
  exact (proj2 createSocket_listening_omits_bind _ _ _ _ _ _ _ _ H).
Defined.

(** ** The memory pool *)

Section MemPoolFacts.
Context {T : Type}.
Import MemPool.

Lemma block_at_in_range (p : MemPool.t T) (i : Z) :
  0 <= i < capacity p -> exists b, block_at p i = Ok b.
Proof.
  intros Hi. unfold block_at.
  destruct (Z.leb_spec 0 i) as [_|?]; [|lia].
  destruct (store_ p !! Z.to_nat i) as [b|] eqn:Hb; [eauto|].
  apply lookup_ge_None in Hb. unfold capacity in Hi. lia.
Qed.

Lemma block_at_set_next (p : MemPool.t T) (i j : Z) :
  block_at (set_next_free_index p i) j = block_at p j.
Proof. reflexivity. Qed.

Lemma succ_mod (N x : Z) :
  0 <= x < N -> (x + 1) mod N = if x + 1 =? N then 0 else x + 1.
Proof.
  intros Hx. destruct (Z.eqb_spec (x + 1) N) as [->|Hne].
  - apply Z.mod_same. lia.
  - apply Z.mod_small. lia.
Qed.

(** The scan of [updateNextFreeIndex]: started at the block [k] places
    after the initial one with [N - k] rounds left, it stops at the
    first free block among the places [k], ..., [N - 1], and exits the
    process when there is none. *)
Lemma updateNextFreeIndex_loop_scan (N : Z) (i0 : Z) (fuel : nat) :
  forall (k : Z) (p : MemPool.t T),
  capacity p = N -> N < 2 ^ 64 -> 0 <= i0 < N ->
  0 <= k < N -> k + Z.of_nat fuel = N ->
  next_free_index_ p = (i0 + k) mod N ->
  ((exists m, k <= m < N /\ block_free p ((i0 + m) mod N)) ->
   exists m, k <= m < N /\ block_free p ((i0 + m) mod N) /\
     (forall j, k <= j < m -> ~ block_free p ((i0 + j) mod N)) /\
     updateNextFreeIndex_loop fuel i0 p
     = Ok (set_next_free_index p ((i0 + m) mod N))) /\
  ((forall m, k <= m < N -> ~ block_free p ((i0 + m) mod N)) ->
   updateNextFreeIndex_loop fuel i0 p = Aborted).
Proof.
  induction fuel as [|fuel IH]; intros k p Hcap HN Hi0 Hk Hfuel Hnext; [lia|].
  assert (Hpos : 0 <= (i0 + k) mod N < N) by (apply Z.mod_pos_bound; lia).
  destruct (block_at_in_range p ((i0 + k) mod N)) as [b Hb]; [lia|].
  cbn [updateNextFreeIndex_loop]. rewrite Hnext, Hb.
  cbv beta iota delta [mbind outcome_bind].
  destruct (is_free_ b) eqn:Hfree.
  - split.
    + intros _. exists k. split; [lia|]. split; [exists b; auto|].
      split; [intros j Hj; lia|].
      destruct p as [s n]. simpl in Hnext. subst n. reflexivity.
    + intros Hnone. exfalso. apply (Hnone k); [lia|]. exists b. auto.
  - assert (Hnotfree : ~ block_free p ((i0 + k) mod N)).
    { intros (b' & Hb' & Hf'). rewrite Hb in Hb'. injection Hb' as <-. congruence. }
    rewrite size_t_wrap_small by lia. rewrite Hcap.
    rewrite <- (succ_mod N ((i0 + k) mod N) Hpos).
    rewrite Z.add_mod_idemp_l by lia.
    replace (i0 + k + 1) with (i0 + (k + 1)) by lia.
    destruct (Z.eq_dec (k + 1) N) as [Hlast|Hmore].
    + rewrite Hlast.
      replace ((i0 + N) mod N) with i0
        by (rewrite <- (Z.mul_1_l N) at 1; rewrite Z.mod_add, Z.mod_small; lia).
      rewrite Z.eqb_refl. simpl.
      split; [|reflexivity].
      intros (m & Hm & Hfm). exfalso.
      assert (m = k) by lia. subst m. contradiction.
    + assert (Hne : i0 <> (i0 + (k + 1)) mod N).
      { rewrite <- (Z.mod_small i0 N) at 1 by lia.
        rewrite <- (Z.add_0_r i0) at 1. apply mod_offset_neq; lia. }
      destruct (Z.eqb_spec i0 ((i0 + (k + 1)) mod N)) as [?|_]; [contradiction|].
      cbv beta iota delta [mbind outcome_bind].
      specialize (IH (k + 1) (set_next_free_index p ((i0 + (k + 1)) mod N))
                     Hcap HN Hi0 ltac:(lia) ltac:(lia) eq_refl).
      destruct IH as [IHfound IHnone]. split.
      * intros (m & Hm & Hfm).
        assert (Hmk : m <> k) by (intros ->; contradiction).
        destruct IHfound as (m' & Hm' & Hfm' & Hleast & Hloop).
        { exists m. split; [lia | exact Hfm]. }
        exists m'. split; [lia|]. split; [exact Hfm'|]. split.
        -- intros j Hj. destruct (Z.eq_dec j k) as [->|Hjk]; [exact Hnotfree|].
           apply Hleast. lia.
        -- exact Hloop.
      * intros Hnone. apply IHnone. intros m Hm. apply Hnone. lia.
Qed.

Lemma block_free_set_block (p : MemPool.t T) (i0 j : Z) (v : T) :
  0 <= i0 < capacity p ->
  block_free (set_block p i0 (mkBlock v false)) j <-> j <> i0 /\ block_free p j.
Proof.
  intros Hi0. unfold block_free, block_at, set_block. cbn [store_].
  destruct (Z.leb_spec 0 j) as [Hj|Hj].
  - destruct (Z.eq_dec j i0) as [->|Hne].
    + rewrite list_lookup_insert_eq by (unfold capacity in Hi0; lia). split.
      * intros (b & Hb & Hf). injection Hb as <-. discriminate.
      * intros [Hc _]. contradiction.
    + rewrite list_lookup_insert_ne by lia. tauto.
  - split.
    + intros (b & Hb & _). discriminate.
    + intros (_ & b & Hb & _). discriminate.
Qed.

Lemma capacity_set_block (p : MemPool.t T) (i : Z) (b : ObjectBlock T) :
  capacity (set_block p i b) = capacity p.
Proof. unfold capacity, set_block. cbn [store_]. rewrite length_insert. reflexivity. Qed.

(** [allocate] in a state where the block at the next free index is
    free: it returns when another block is free as well, and exits the
    process when that block is the last free one. *)
Lemma allocate_ready (p : MemPool.t T) (v : T) :
  pool_ready p ->
  ((exists j, 0 <= j < capacity p /\ j <> next_free_index_ p /\ block_free p j) ->
   exists p',
     allocate p v = Ok (p', next_free_index_ p) /\
     store_ p' = <[Z.to_nat (next_free_index_ p) := mkBlock v false]> (store_ p) /\
     next_free_index_ p' <> next_free_index_ p /\
     block_free p (next_free_index_ p') /\
     pool_ready p') /\
  ((forall j, 0 <= j < capacity p -> j <> next_free_index_ p -> ~ block_free p j) ->
   allocate p v = Aborted).
Proof.
  intros (Hi0 & Hcap & b & Hb & Hfree).
  set (i0 := next_free_index_ p) in *. set (N := capacity p) in *.
  set (p1 := set_block p i0 (mkBlock v false)).
  assert (Hcap1 : capacity p1 = N) by apply capacity_set_block.
  assert (Hlen1 : 0 + Z.of_nat (length (store_ p1)) = N) by (unfold capacity in Hcap1; lia).
  assert (Hnext1 : next_free_index_ p1 = (i0 + 0) mod N)
    by (rewrite Z.add_0_r, Z.mod_small by lia; reflexivity).
  destruct (updateNextFreeIndex_loop_scan N i0 (length (store_ p1)) 0 p1
              Hcap1 Hcap Hi0 ltac:(lia) Hlen1 Hnext1) as [Hfound Hnone].
  assert (Halloc : allocate p v = (updateNextFreeIndex_loop (length (store_ p1)) i0 p1
                                   ≫= fun p2 => Ok (p2, i0))).
  { unfold allocate. fold i0. rewrite Hb. cbv beta iota delta [mbind outcome_bind].
    rewrite Hfree. reflexivity. }
  rewrite Halloc. split.
  - intros (j & Hj & Hne & Hfj).
    destruct Hfound as (m & Hm & Hfm & _ & Hloop).
    { exists ((j - i0) mod N). split; [apply Z.mod_pos_bound; lia|].
      rewrite Z.add_mod_idemp_r by lia.
      replace (i0 + (j - i0)) with j by lia. rewrite Z.mod_small by lia.
      apply block_free_set_block; [exact Hi0 | auto]. }
    apply block_free_set_block in Hfm as [Hmne Hfm]; [|exact Hi0].
    rewrite Hloop. cbv beta iota delta [mbind outcome_bind].
    eexists. split; [reflexivity|]. cbn [store_ next_free_index_ set_next_free_index p1 set_block].
    split; [reflexivity|]. split; [exact Hmne|]. split; [exact Hfm|].
    assert (Hpos : 0 <= (i0 + m) mod N < N) by (apply Z.mod_pos_bound; lia).
    unfold pool_ready.
    change (capacity (set_next_free_index p1 ((i0 + m) mod N))) with (capacity p1).
    change (next_free_index_ (set_next_free_index p1 ((i0 + m) mod N)))
      with ((i0 + m) mod N).
    rewrite Hcap1. split; [exact Hpos|]. split; [exact Hcap|].
    change (block_free p1 ((i0 + m) mod N)).
    apply block_free_set_block; [exact Hi0 | auto].
  - intros Hothers. rewrite Hnone; [reflexivity|].
    intros m Hm Hfm. apply block_free_set_block in Hfm as [Hmne Hfm]; [|exact Hi0].
    apply (Hothers ((i0 + m) mod N)); [apply Z.mod_pos_bound; lia | exact Hmne | exact Hfm].
Qed.

Lemma create_ready (d : T) (N : Z) : 0 < N < 2 ^ 64 -> pool_ready (create d N).
Proof.
  intros HN. unfold pool_ready, block_free, block_at, capacity, create.
  cbn [store_ next_free_index_].
  rewrite length_replicate, Z2Nat.id by lia.
  split; [lia|]. split; [lia|].
  exists (mkBlock d true). split; [|reflexivity].
  change (Z.to_nat 0) with O.
  rewrite lookup_replicate_2 by lia. reflexivity.
Qed.

Lemma deallocate_ready (p p' : MemPool.t T) (elem_index : Z) :
  pool_ready p -> deallocate p elem_index = Ok p' -> pool_ready p'.
Proof.
  intros (Hi0 & Hcap & b0 & Hb0 & Hf0) H. unfold deallocate, ASSERT in H.
  destruct ((0 <=? elem_index) && (elem_index <? capacity p)) eqn:Hrange;
    [|discriminate].
  apply andb_true_iff in Hrange as [H0 H1].
  apply Z.leb_le in H0. apply Z.ltb_lt in H1.
  cbv beta iota delta [mbind outcome_bind] in H.
  destruct (block_at p elem_index) as [b| | |] eqn:Hb; try discriminate.
  destruct (is_free_ b) eqn:Hfb; [discriminate|]. simpl in H. injection H as <-.
  unfold pool_ready. rewrite capacity_set_block. cbn [set_block next_free_index_].
  split; [exact Hi0|]. split; [exact Hcap|].
  unfold block_free, block_at, set_block in *. cbn [store_].
  destruct (Z.leb_spec 0 (next_free_index_ p)) as [_|?]; [|lia].
  destruct (Z.eq_dec elem_index (next_free_index_ p)) as [->|Hne].
  - rewrite list_lookup_insert_eq by (unfold capacity in Hi0; lia).
    eexists. split; reflexivity.
  - rewrite list_lookup_insert_ne by lia. exists b0. auto.
Qed.

End MemPoolFacts.

(** C3 fails on the code. In a pool of capacity 2 the first [allocate]
    returns the block 0 and leaves the block 1 free; the second
    [allocate], made while that block is free, writes the object into
    it, marks it used, and then exits the process in
    [updateNextFreeIndex] instead of returning the handle. In general,
    [allocate] exits the process whenever the block it takes is the
    last free one: a pool of capacity N gives out N - 1 objects. *)
Theorem MemPool_allocate_aborts_on_last_free_block :
  (exists p1 : MemPool.t Z,
      MemPool.allocate (MemPool.create 0 2) 5 = Ok (p1, 0) /\
      MemPool.free_blocks p1 = 1%nat /\
      block_free p1 (MemPool.next_free_index_ p1) /\
      MemPool.allocate p1 6 = Aborted) /\
  (forall (T : Type) (p : MemPool.t T) (v : T),
      pool_ready p ->
      (forall j, 0 <= j < MemPool.capacity p -> j <> MemPool.next_free_index_ p ->
                 ~ block_free p j) ->
      MemPool.allocate p v = Aborted).
Proof.
  split.
  - eexists. split; [reflexivity|]. split; [reflexivity|]. split; [|reflexivity].
    eexists. split; reflexivity.
  - intros T p v Hready Hlast. apply (proj2 (allocate_ready p v Hready) Hlast).
Qed.

Lemma MemPool_allocate_aborts_on_last_free_block_witness :
  MemPool.allocate (MemPool.create 0 1) 5 = Aborted.
Proof.
  apply (proj2 MemPool_allocate_aborts_on_last_free_block Z (MemPool.create 0 1) 5).
  - apply create_ready. lia.
  - intros j Hj Hne. unfold MemPool.capacity in Hj. simpl in Hj, Hne. lia.
Defined.

(** The spec's reactor scenario: two accepted sockets that both receive
    in one tick, in a world that counts the calls of the callback: the
    callback has been called once. With the callback left empty the
    same tick exits the process, and a tick in which nothing is
    received returns. *)
Example TCPServer_two_receiving_sockets :
  TCPServer.sendAndRecv (World := nat) (fun _ w => Ok (true, w))
    (Some (fun w => Ok (S w))) (TCPServer.mk 5 7 [11; 12] []) O = Ok 1%nat /\
  TCPServer.sendAndRecv (World := nat) (fun _ w => Ok (true, w))
    None (TCPServer.mk 5 7 [11; 12] []) O = Aborted /\
  TCPServer.sendAndRecv (World := nat) (fun _ w => Ok (false, w))
    None (TCPServer.mk 5 7 [11; 12] []) O = Ok O.
Proof. repeat split. Qed.

Lemma TCPServer_tick_callback_once_witness :
  let socket_sendAndRecv : TCPServer.socket_ptr -> nat -> outcome (bool * nat) :=
    fun socket w => Ok (socket =? 12, w) in
  let callback : option (nat -> outcome nat) := Some (fun w => Ok (S w)) in
  let srv := TCPServer.mk 5 7 [11; 12; 13] [12] in
  TCPServer.sendAndRecv (TCPServer.noting_socket socket_sendAndRecv)
    (TCPServer.noting_callback callback) srv (O, [])
  = Ok (1%nat, [TCPServer.SocketSendAndRecv 11 false; TCPServer.SocketSendAndRecv 12 true;
                TCPServer.SocketSendAndRecv 13 false; TCPServer.RecvFinishedCallback;
                TCPServer.SocketSendAndRecv 12 true]) /\
  (exists evs_receive evs_send,
     [TCPServer.SocketSendAndRecv 11 false; TCPServer.SocketSendAndRecv 12 true;
      TCPServer.SocketSendAndRecv 13 false; TCPServer.RecvFinishedCallback;
      TCPServer.SocketSendAndRecv 12 true]
     = evs_receive
       ++ (if bool_decide (TCPServer.received_on evs_receive <> [])
           then [TCPServer.RecvFinishedCallback] else [])
       ++ evs_send /\
     TCPServer.invoked_on evs_receive = TCPServer.receive_sockets_ srv /\
     TCPServer.callbacks_fired evs_receive = O /\
     TCPServer.invoked_on evs_send = TCPServer.send_sockets_ srv /\
     TCPServer.callbacks_fired evs_send = O /\
     TCPServer.callbacks_fired
       [TCPServer.SocketSendAndRecv 11 false; TCPServer.SocketSendAndRecv 12 true;
        TCPServer.SocketSendAndRecv 13 false; TCPServer.RecvFinishedCallback;
        TCPServer.SocketSendAndRecv 12 true]
     = (if bool_decide (TCPServer.received_on evs_receive <> []) then 1%nat else O)) /\
  (exists w', TCPServer.sendAndRecv socket_sendAndRecv callback srv O = Ok w') /\
  TCPServer.sendAndRecv socket_sendAndRecv None srv O = Aborted.
Proof.
  intros socket_sendAndRecv callback srv.
  assert (Hf : forall (socket : TCPServer.socket_ptr) (w0 : nat),
             exists r w1, socket_sendAndRecv socket w0 = Ok (r, w1))
    by (intros socket w0; eexists _, _; reflexivity).
  assert (Hrun : TCPServer.sendAndRecv (TCPServer.noting_socket socket_sendAndRecv)
                   (TCPServer.noting_callback callback) srv (O, [])
                 = Ok (1%nat, [TCPServer.SocketSendAndRecv 11 false;
                               TCPServer.SocketSendAndRecv 12 true;
                               TCPServer.SocketSendAndRecv 13 false;
                               TCPServer.RecvFinishedCallback;
                               TCPServer.SocketSendAndRecv 12 true]))
    by reflexivity.
  split; [exact Hrun|]. split; [|split].
  - exact (proj1 (proj2 (TCPServer_tick_callback_once socket_sendAndRecv callback srv O))
             _ _ Hrun).
  - destruct (proj2 (proj2 (TCPServer_tick_callback_once socket_sendAndRecv callback srv O))
                Hf) as (recv & w1 & evs1 & _ & _ & _ & Hret).
    + intros c Hc w0. injection Hc as <-. eexists. reflexivity.
    + apply Hret. left. discriminate.
  - destruct (proj2 (proj2 (TCPServer_tick_callback_once socket_sendAndRecv None srv O))
                Hf) as (recv & w1 & evs1 & Erecv & Hrecv & Habort & _).
    + intros c Hc. discriminate.
    + apply Habort; [reflexivity|].
      assert (Hr : TCPServer.for_each_receive (TCPServer.noting_socket socket_sendAndRecv)
                     (TCPServer.receive_sockets_ srv) false (O, [])
                   = Ok (true, (O, [TCPServer.SocketSendAndRecv 11 false;
                                    TCPServer.SocketSendAndRecv 12 true;
                                    TCPServer.SocketSendAndRecv 13 false])))
        by reflexivity.
      rewrite Hr in Erecv. injection Erecv as <- _ _. reflexivity.
Defined.

(** ** The thread affinity helpers *)

Section CpuAffinityFacts.
Import CpuAffinity.

Lemma bit_of_in_range (num : Z) : 0 <= num < 32 -> bit_of num = Ok (2 ^ num).
Proof.
  intros H. unfold bit_of.
  replace ((0 <=? num) && (num <? 32)) with true
    by (symmetry; apply andb_true_iff; split; [apply Z.leb_le | apply Z.ltb_lt]; lia).
  rewrite Z.shiftl_1_l. reflexivity.
Qed.

Lemma bit_of_out_of_range (num : Z) : ~ (0 <= num < 32) -> bit_of num = Undefined.
Proof.
  intros H. unfold bit_of.
  destruct (Z.leb_spec 0 num), (Z.ltb_spec num 32); simpl; try reflexivity. lia.
Qed.

Lemma land_pow2 (a k : Z) :
  0 <= k -> Z.land a (2 ^ k) = if Z.testbit a k then 2 ^ k else 0.
Proof.
  intros Hk. apply Z.bits_inj'. intros i Hi.
  rewrite Z.land_spec, Z.pow2_bits_eqb by lia.
  destruct (Z.eqb_spec k i) as [->|Hne].
  - rewrite andb_true_r. destruct (Z.testbit a i).
    + rewrite Z.pow2_bits_true by lia. reflexivity.
    + rewrite Z.bits_0. reflexivity.
  - rewrite andb_false_r. destruct (Z.testbit a k).
    + rewrite Z.pow2_bits_false by lia. reflexivity.
    + rewrite Z.bits_0. reflexivity.
Qed.

Lemma int_of_pow2_nonzero (k : Z) : 0 <= k < 32 -> int_of_uint32 (2 ^ k) <> 0.
Proof.
  intros Hk. unfold int_of_uint32.
  assert (0 < 2 ^ k) by (apply Z.pow_pos_nonneg; lia).
  assert (2 ^ k < 2 ^ 32) by (apply Z.pow_lt_mono_r; lia).
  destruct (2 ^ k <? 2 ^ 31); lia.
Qed.

(** [CPU_ISSET] tells the bit [num] of the mask: it returns zero when
    the bit is clear and a value other than zero when it is set. *)
Lemma CPU_ISSET_testbit (num : Z) (cs : cpu_set_t) :
  0 <= num < 32 ->
  exists r, CPU_ISSET num cs = Ok r /\
            (negb (r =? 0)) = Z.testbit (count cs) num.
Proof.
  intros Hn. unfold CPU_ISSET. rewrite (bit_of_in_range num Hn). simpl.
  eexists. split; [reflexivity|]. rewrite land_pow2 by lia.
  destruct (Z.testbit (count cs) num).
  - pose proof (int_of_pow2_nonzero num Hn) as Hnz.
    destruct (Z.eqb_spec (int_of_uint32 (2 ^ num)) 0); [contradiction | reflexivity].
  - reflexivity.
Qed.

Lemma CPU_SET_testbit (num : Z) (cs : cpu_set_t) :
  0 <= num < 32 ->
  exists cs', CPU_SET num cs = Ok cs' /\
              0 <= count cs' < 2 ^ 32 /\
              forall i, 0 <= i < 32 ->
                Z.testbit (count cs') i = Z.testbit (count cs) i || (num =? i).
Proof.
  intros Hn. unfold CPU_SET. rewrite (bit_of_in_range num Hn). simpl.
  eexists. split; [reflexivity|]. simpl. split.
  - unfold uint32_wrap. apply Z.mod_pos_bound. lia.
  - intros i Hi. unfold uint32_wrap.
    rewrite Z.mod_pow2_bits_low by lia.
    rewrite Z.lor_spec, Z.pow2_bits_eqb by lia. reflexivity.
Qed.

(** X1. [CPU_SET] followed by [CPU_ISSET]: for a core number from 0 to
    31, setting the core makes [CPU_ISSET] on it return a value other
    than zero, and leaves the answer of [CPU_ISSET] on every other core
    as it was; a core number outside 0..31 is a shift the language does
    not define. *)
Theorem CpuAffinity_set_then_isset (cs : cpu_set_t) (num : Z) :
  (0 <= num < 32 ->
   exists cs',
     CPU_SET num cs = Ok cs' /\
     (exists r, CPU_ISSET num cs' = Ok r /\ r <> 0) /\
     (forall other, 0 <= other < 32 -> other <> num ->
        CPU_ISSET other cs' = CPU_ISSET other cs)) /\
  (~ (0 <= num < 32) -> CPU_SET num cs = Undefined /\ CPU_ISSET num cs = Undefined).
Proof.
  split.
  - intros Hn. destruct (CPU_SET_testbit num cs Hn) as (cs' & Hset & _ & Hbits).
    exists cs'. split; [exact Hset|]. split.
    + destruct (CPU_ISSET_testbit num cs' Hn) as (r & Hr & Hbit).
      exists r. split; [exact Hr|].
      rewrite (Hbits num Hn), Z.eqb_refl, orb_true_r in Hbit.
      destruct (Z.eqb_spec r 0); [discriminate | assumption].
    + intros other Ho Hne. unfold CPU_ISSET.
      rewrite (bit_of_in_range other Ho). simpl. do 2 f_equal.
      rewrite !land_pow2 by lia. rewrite (Hbits other Ho).
      destruct (Z.eqb_spec num other) as [?|_]; [lia|].
      rewrite orb_false_r. reflexivity.
  - intros Hout. unfold CPU_SET, CPU_ISSET.
    rewrite (bit_of_out_of_range num Hout). split; reflexivity.
Qed.

Lemma set_cores_ones (rounds : nat) : forall (i : Z) (cs : cpu_set_t),
  0 <= i -> i + Z.of_nat rounds <= 32 -> count cs = Z.ones i ->
  set_cores rounds i cs = Ok (mkCpuSet (Z.ones (i + Z.of_nat rounds))).
Proof.
  induction rounds as [|rounds IH]; intros i cs Hi Hle Hcs.
  - simpl. rewrite Z.add_0_r, <- Hcs. destruct cs; reflexivity.
  - cbn [set_cores]. unfold CPU_SET. rewrite bit_of_in_range by lia.
    cbv beta iota delta [mbind outcome_bind].
    rewrite (IH (i + 1)); [f_equal; f_equal; f_equal; lia | lia | lia |].
    cbn [count]. unfold uint32_wrap. rewrite Hcs.
    apply Z.bits_inj'. intros m Hm.
    rewrite Z.testbit_mod_pow2, Z.lor_spec, Z.pow2_bits_eqb by lia.
    rewrite !Z.testbit_ones_nonneg by lia.
    destruct (Z.ltb_spec m 32), (Z.ltb_spec m i), (Z.eqb_spec i m),
      (Z.ltb_spec m (i + 1)); simpl; try reflexivity; lia.
Qed.

(** X2. [sched_getaffinity]: when [sysctlbyname] fails it returns -1
    and leaves the cpu set as it was; when it succeeds with a core count
    from 0 to 32 it returns 0 and the set holds exactly the cores below
    the core count; a core count above 32 shifts by 32, which the
    language does not define. *)
Theorem CpuAffinity_sched_getaffinity (ret core_count : Z) (cpu_set : cpu_set_t) :
  (ret <> 0 -> sched_getaffinity ret core_count cpu_set = Ok (-1, cpu_set)) /\
  (ret = 0 -> core_count <= 32 ->
   sched_getaffinity ret core_count cpu_set
   = Ok (0, mkCpuSet (2 ^ Z.max 0 core_count - 1))) /\
  (ret = 0 -> 32 < core_count ->
   sched_getaffinity ret core_count cpu_set = Undefined).
Proof.
  unfold sched_getaffinity. split; [|split].
  - intros Hr. destruct (Z.eqb_spec ret 0); [contradiction | reflexivity].
  - intros -> Hc. simpl.
    rewrite (set_cores_ones (Z.to_nat core_count) 0 (mkCpuSet 0))
      by (try reflexivity; simpl; lia).
    simpl. rewrite Z.ones_equiv.
    replace (Z.of_nat (Z.to_nat core_count)) with (Z.max 0 core_count) by lia.
    reflexivity.
  - intros -> Hc. simpl.
    replace (Z.to_nat core_count) with (32 + S (Z.to_nat (core_count - 33)))%nat by lia.
    assert (Happ : forall (n m : nat) (i : Z) (cs : cpu_set_t),
               set_cores (n + m) i cs
               = (set_cores n i cs ≫= set_cores m (i + Z.of_nat n))).
    { induction n as [|n IHn]; intros m i cs.
      - simpl. rewrite Z.add_0_r. reflexivity.
      - cbn [set_cores Nat.add]. destruct (CPU_SET i cs) as [cs1| | |]; simpl; auto.
        rewrite IHn. replace (i + 1 + Z.of_nat n) with (i + Z.of_nat (S n)) by lia.
        reflexivity. }
    rewrite Happ, (set_cores_ones 32 0 (mkCpuSet 0)) by (try reflexivity; simpl; lia).
    reflexivity.
Qed.

Lemma first_core_lowest (rounds : nat) : forall (core k : Z) (cs : cpu_set_t),
  0 <= core <= k -> k < 32 -> k - core < Z.of_nat rounds ->
  Z.testbit (count cs) k = true ->
  (forall j, core <= j < k -> Z.testbit (count cs) j = false) ->
  first_core rounds core cs = Ok k.
Proof.
  induction rounds as [|rounds IH]; intros core k cs Hc Hk Hr Hset Hclear; [lia|].
  cbn [first_core].
  destruct (CPU_ISSET_testbit core cs ltac:(lia)) as (r & -> & Hbit).
  cbv beta iota delta [mbind outcome_bind]. rewrite Hbit.
  destruct (Z.eq_dec core k) as [->|Hne].
  - rewrite Hset. reflexivity.
  - rewrite (Hclear core) by lia.
    apply IH; try lia; [exact Hset|]. intros j Hj. apply Hclear. lia.
Qed.

Lemma first_core_none (rounds : nat) : forall (core : Z) (cs : cpu_set_t),
  0 <= core -> core + Z.of_nat rounds <= 32 ->
  (forall j, core <= j < core + Z.of_nat rounds -> Z.testbit (count cs) j = false) ->
  first_core rounds core cs = Ok (core + Z.of_nat rounds).
Proof.
  induction rounds as [|rounds IH]; intros core cs Hc Hle Hclear.
  - simpl. f_equal. lia.
  - cbn [first_core].
    destruct (CPU_ISSET_testbit core cs ltac:(lia)) as (r & -> & Hbit).
    cbv beta iota delta [mbind outcome_bind]. rewrite Hbit.
    rewrite (Hclear core) by lia.
    rewrite IH; [f_equal; lia | lia | lia |].
    intros j Hj. apply Hclear. lia.
Qed.

(** X3. [pthread_setaffinity_np] binds the thread to the lowest core of
    the cpu set among the first [8 * cpu_size] (at most 32); when none
    of them is in the set it passes the core number [8 * cpu_size]
    itself to [thread_policy_set]; in both cases it returns 0. *)
Theorem CpuAffinity_binds_lowest_core (cpu_size : Z) (cs : cpu_set_t) :
  0 <= 8 * cpu_size <= 32 ->
  (forall k, 0 <= k < 8 * cpu_size ->
     Z.testbit (count cs) k = true ->
     (forall j, 0 <= j < k -> Z.testbit (count cs) j = false) ->
     pthread_setaffinity_np cpu_size cs = Ok (0, k)) /\
  ((forall j, 0 <= j < 8 * cpu_size -> Z.testbit (count cs) j = false) ->
   pthread_setaffinity_np cpu_size cs = Ok (0, 8 * cpu_size)).
Proof.
  intros Hsize. unfold pthread_setaffinity_np. split.
  - intros k Hk Hset Hclear.
    rewrite (first_core_lowest (Z.to_nat (8 * cpu_size)) 0 k cs); try lia; auto.
  - intros Hclear.
    rewrite (first_core_none (Z.to_nat (8 * cpu_size)) 0 cs); try lia.
    + simpl. do 2 f_equal. lia.
    + intros j Hj. apply Hclear. lia.
Qed.

End CpuAffinityFacts.

Lemma CpuAffinity_set_then_isset_witness :
  (exists cs',
      CpuAffinity.CPU_SET 3 (CpuAffinity.mkCpuSet 1) = Ok cs' /\
      (exists r, CpuAffinity.CPU_ISSET 3 cs' = Ok r /\ r <> 0) /\
      (forall other, 0 <= other < 32 -> other <> 3 ->
         CpuAffinity.CPU_ISSET other cs'
         = CpuAffinity.CPU_ISSET other (CpuAffinity.mkCpuSet 1))) /\
  (CpuAffinity.CPU_SET 32 (CpuAffinity.mkCpuSet 1) = Undefined /\
   CpuAffinity.CPU_ISSET 32 (CpuAffinity.mkCpuSet 1) = Undefined).
Proof.
  split.
  - apply (proj1 (CpuAffinity_set_then_isset (CpuAffinity.mkCpuSet 1) 3)). lia.
  - apply (proj2 (CpuAffinity_set_then_isset (CpuAffinity.mkCpuSet 1) 32)). lia.
Defined.

Lemma CpuAffinity_sched_getaffinity_witness :
  CpuAffinity.sched_getaffinity (-1) 8 (CpuAffinity.mkCpuSet 5)
  = Ok (-1, CpuAffinity.mkCpuSet 5) /\
  CpuAffinity.sched_getaffinity 0 8 (CpuAffinity.mkCpuSet 0)
  = Ok (0, CpuAffinity.mkCpuSet (2 ^ Z.max 0 8 - 1)) /\
  CpuAffinity.sched_getaffinity 0 64 (CpuAffinity.mkCpuSet 0) = Undefined.
Proof.
  split; [|split].
  - apply (proj1 (CpuAffinity_sched_getaffinity (-1) 8 (CpuAffinity.mkCpuSet 5))). lia.
  - apply (proj1 (proj2 (CpuAffinity_sched_getaffinity 0 8 (CpuAffinity.mkCpuSet 0))));
      [reflexivity | lia].
  - apply (proj2 (proj2 (CpuAffinity_sched_getaffinity 0 64 (CpuAffinity.mkCpuSet 0))));
      [reflexivity | lia].
Defined.

Lemma CpuAffinity_binds_lowest_core_witness :
  CpuAffinity.pthread_setaffinity_np 4 (CpuAffinity.mkCpuSet 12) = Ok (0, 2) /\
  CpuAffinity.pthread_setaffinity_np 4 (CpuAffinity.mkCpuSet 0) = Ok (0, 8 * 4).
Proof.
  split.
  - apply (proj1 (CpuAffinity_binds_lowest_core 4 (CpuAffinity.mkCpuSet 12) ltac:(lia)) 2).
    + lia.
    + reflexivity.
    + intros j Hj. assert (j = 0 \/ j = 1) as [-> | ->] by lia; reflexivity.
  - apply (proj2 (CpuAffinity_binds_lowest_core 4 (CpuAffinity.mkCpuSet 0) ltac:(lia))).
    intros j Hj. apply Z.bits_0.
Defined.

(* ====================================================================== *)
(** * The queue used through whole calls *)

Section LFQueueUseFacts.
Context {T : Type}.
Variable d : T.

Import LFQueue LFQueueUse.

Lemma push_holds (N : Z) (q : LFQueue.t T) (pending : list T) (v : T) :
  holds N q pending -> Z.of_nat (length pending) < N ->
  exists q', push q v = Ok q' /\ holds N q' (pending ++ [v]).
Proof.
  intros Hq Hlt.
  destruct (holds_write_slot N q pending v Hq Hlt) as (q1 & E1 & H1 & Hv & _ & _).
  destruct (holds_publish N q1 pending v H1 Hlt Hv) as (q2 & E2 & H2 & _).
  exists q2. split; [|exact H2].
  unfold push, getNextToWrite. rewrite E1. exact E2.
Qed.

Lemma pop_holds (N : Z) (q : LFQueue.t T) (pending : list T) :
  holds N q pending ->
  match pending with
  | [] => pop q = Ok (q, None)
  | x :: pending' => exists q', pop q = Ok (q', Some x) /\ holds N q' pending'
  end.
Proof.
  intros Hq. destruct pending as [|x pending'].
  - unfold pop, getNextToRead, size. rewrite (holds_count _ _ _ Hq). reflexivity.
  - destruct (holds_pop N q x pending' Hq) as (q' & E & Hq' & _).
    exists q'. split; [|exact Hq'].
    unfold pop, getNextToRead, size. rewrite (holds_count _ _ _ Hq).
    simpl length. destruct (Z.eqb_spec (Z.of_nat (S (length pending'))) 0) as [?|_]; [lia|].
    rewrite (holds_read_head N q x pending' Hq). simpl. rewrite E. reflexivity.
Qed.

Lemma run_holds (N : Z) (ops : list (op T)) : forall (q : LFQueue.t T) (pending : list T),
  holds N q pending ->
  never_overfull N (Z.of_nat (length pending)) ops = true ->
  exists q' popped pending',
    run ops q = Ok (q', popped) /\ holds N q' pending' /\
    pending ++ pushes ops = popped ++ pending'.
Proof.
  induction ops as [|[v|] ops IH]; intros q pending Hq Hfit.
  - exists q, [], pending. simpl. rewrite app_nil_r. auto.
  - simpl in Hfit. apply andb_true_iff in Hfit as [Hlt Hfit]. apply Z.ltb_lt in Hlt.
    destruct (push_holds N q pending v Hq Hlt) as (q1 & E1 & H1).
    destruct (IH q1 (pending ++ [v]) H1) as (q' & popped & pending' & E & H' & Heq).
    { rewrite length_app. simpl length.
      replace (Z.of_nat (length pending + 1)) with (Z.of_nat (length pending) + 1) by lia.
      exact Hfit. }
    exists q', popped, pending'. split; [|split; [exact H'|]].
    + simpl. rewrite E1. exact E.
    + rewrite <- Heq, <- app_assoc. reflexivity.
  - simpl in Hfit. pose proof (pop_holds N q pending Hq) as Hpop.
    destruct pending as [|x pending1].
    + destruct (IH q [] Hq Hfit) as (q' & popped & pending' & E & H' & Heq).
      exists q', popped, pending'. split; [|split; [exact H'|exact Heq]].
      simpl. rewrite Hpop. simpl. rewrite E. reflexivity.
    + destruct Hpop as (q1 & E1 & H1).
      destruct (IH q1 pending1 H1) as (q' & popped & pending' & E & H' & Heq).
      { simpl length in Hfit.
        replace (Z.max 0 (Z.of_nat (S (length pending1)) - 1))
          with (Z.of_nat (length pending1)) in Hfit by lia.
        exact Hfit. }
      exists q', (x :: popped), pending'. split; [|split; [exact H'|]].
      * simpl. rewrite E1. simpl. rewrite E. reflexivity.
      * simpl. rewrite <- Heq. reflexivity.
Qed.

Lemma drain_holds (N : Z) (pending : list T) : forall q : LFQueue.t T,
  holds N q pending ->
  exists q', run (replicate (length pending) Pop) q = Ok (q', pending) /\ holds N q' [].
Proof.
  induction pending as [|x pending IH]; intros q Hq.
  - exists q. split; [reflexivity | exact Hq].
  - destruct (pop_holds N q (x :: pending) Hq) as (q1 & E1 & H1).
    destruct (IH q1 H1) as (q' & E & H').
    exists q'. split; [|exact H'].
    simpl. rewrite E1. simpl. rewrite E. reflexivity.
Qed.

(** X4. The ring buffer is reused and stays first in, first out: in any
    sequence of pushes and reads on a queue of capacity [N], as long as
    no push is made while [N] elements are waiting (the indices wrap
    around any number of times), every call returns, a read of the
    empty queue returns null, the elements read are the first elements
    pushed, in the order of the pushes, [size()] is the number of the
    remaining ones, and reading on gives exactly the remaining ones, in
    order, and leaves the queue empty. *)
Theorem LFQueue_fifo_with_reuse (N : Z) (ops : list (op T)) :
  0 < N < 2 ^ 64 ->
  never_overfull N 0 ops = true ->
  exists (q : LFQueue.t T) (popped pending : list T),
    run ops (create d N) = Ok (q, popped) /\
    popped ++ pending = pushes ops /\
    size q = Z.of_nat (length pending) /\
    exists q', run (replicate (length pending) Pop) q = Ok (q', pending) /\
               size q' = 0 /\ pop q' = Ok (q', None).
Proof.
  intros HN Hfit.
  destruct (run_holds N ops (create d N) [] (holds_create d N HN) Hfit)
    as (q & popped & pending & E & Hq & Heq).
  exists q, popped, pending. split4.
  - exact E.
  - symmetry. exact Heq.
  - exact (holds_count _ _ _ Hq).
  - destruct (drain_holds N pending q Hq) as (q' & E' & Hq').
    exists q'. split; [exact E'|]. split.
    + exact (holds_count _ _ _ Hq').
    + exact (pop_holds N q' [] Hq').
Qed.

End LFQueueUseFacts.

Lemma LFQueue_fifo_with_reuse_witness :
  exists (q : LFQueue.t Z) (popped pending : list Z),
    LFQueueUse.run
      [LFQueueUse.Pop; LFQueueUse.Push 1; LFQueueUse.Push 2; LFQueueUse.Pop;
       LFQueueUse.Push 3; LFQueueUse.Pop; LFQueueUse.Push 4; LFQueueUse.Pop;
       LFQueueUse.Push 5]
      (LFQueue.create 0 2) = Ok (q, popped) /\
    popped ++ pending = [1; 2; 3; 4; 5] /\
    LFQueue.size q = Z.of_nat (length pending) /\
    exists q', LFQueueUse.run (replicate (length pending) LFQueueUse.Pop) q
               = Ok (q', pending) /\
               LFQueue.size q' = 0 /\ LFQueueUse.pop q' = Ok (q', None).
Proof.
  apply (LFQueue_fifo_with_reuse 0 2
           [LFQueueUse.Pop; LFQueueUse.Push 1; LFQueueUse.Push 2; LFQueueUse.Pop;
            LFQueueUse.Push 3; LFQueueUse.Pop; LFQueueUse.Push 4; LFQueueUse.Pop;
       LFQueueUse.Push 5]).
  - lia.
  - reflexivity.
Defined.

(* ====================================================================== *)
(** * The pool over sequences of calls *)

Section MemPoolUseFacts.
Context {T : Type}.
Import MemPool MemPoolUse.

Lemma block_free_in_range (p : MemPool.t T) (i : Z) :
  block_free p i -> 0 <= i < capacity p.
Proof.
  intros (b & Hb & _). unfold block_at in Hb.
  destruct (Z.leb_spec 0 i) as [Hi|?]; [|discriminate].
  destruct (store_ p !! Z.to_nat i) as [b'|] eqn:Hl; [|discriminate].
  apply lookup_lt_Some in Hl. unfold capacity. lia.
Qed.

(** A scan that returns has moved the index only, to a free block. *)
Lemma updateNextFreeIndex_loop_Ok (i0 : Z) (fuel : nat) : forall p p' : MemPool.t T,
  updateNextFreeIndex_loop fuel i0 p = Ok p' ->
  store_ p' = store_ p /\ block_free p (next_free_index_ p').
Proof.
  induction fuel as [|fuel IH]; intros p p' H; cbn [updateNextFreeIndex_loop] in H;
    destruct (block_at p (next_free_index_ p)) as [b| | |] eqn:Hb; try discriminate;
    cbv beta iota delta [mbind outcome_bind] in H;
    destruct (is_free_ b) eqn:Hf; try discriminate.
  - injection H as <-. split; [reflexivity | exists b; auto].
  - injection H as <-. split; [reflexivity | exists b; auto].
  - match type of H with
    | context [if ?c then ASSERT _ else _] => destruct c; [discriminate|]
    end.
    apply IH in H as [Hs Hfree]. split; [exact Hs | exact Hfree].
Qed.

(** What a returning [allocate] has done. *)
Lemma allocate_Ok (p p' : MemPool.t T) (v : T) (h : Z) :
  allocate p v = Ok (p', h) ->
  h = next_free_index_ p /\ block_free p h /\
  store_ p' = <[Z.to_nat h := mkBlock v false]> (store_ p) /\
  next_free_index_ p' <> h /\ block_free p (next_free_index_ p').
Proof.
  unfold allocate. intros H.
  destruct (block_at p (next_free_index_ p)) as [b| | |] eqn:Hb; try discriminate.
  cbv beta iota delta [mbind outcome_bind] in H. unfold ASSERT in H.
  destruct (is_free_ b) eqn:Hf; [|discriminate].
  cbv beta iota delta [mbind outcome_bind] in H.
  unfold updateNextFreeIndex in H.
  match type of H with
  | context [updateNextFreeIndex_loop ?f ?i ?q] =>
      destruct (updateNextFreeIndex_loop f i q) as [p2| | |] eqn:Hloop; try discriminate
  end.
  injection H as <- <-.
  assert (Hfree : block_free p (next_free_index_ p)) by (exists b; auto).
  pose proof (block_free_in_range _ _ Hfree) as Hrange.
  apply updateNextFreeIndex_loop_Ok in Hloop as [Hs Hfree2].
  apply block_free_set_block in Hfree2 as [Hne Hfree2]; [|exact Hrange].
  split; [reflexivity|]. split; [exact Hfree|]. split; [exact Hs|].
  split; [exact Hne | exact Hfree2].
Qed.

Lemma block_at_store (p p' : MemPool.t T) (j : Z) :
  store_ p' = store_ p -> block_at p' j = block_at p j.
Proof. intros Hs. unfold block_at. rewrite Hs. reflexivity. Qed.

Lemma capacity_store (p p' : MemPool.t T) (l : list (ObjectBlock T)) :
  store_ p' = l -> length l = length (store_ p) -> capacity p' = capacity p.
Proof. intros Hs Hl. unfold capacity. rewrite Hs, Hl. reflexivity. Qed.

Lemma allocate_Ok_ready (p p' : MemPool.t T) (v : T) (h : Z) :
  capacity p < 2 ^ 64 -> allocate p v = Ok (p', h) ->
  capacity p' = capacity p /\ pool_ready p'.
Proof.
  intros Hcap H. apply allocate_Ok in H as (-> & Hfree & Hs & Hne & Hfree').
  pose proof (block_free_in_range _ _ Hfree) as Hr.
  pose proof (block_free_in_range _ _ Hfree') as Hr'.
  assert (Hc : capacity p' = capacity p).
  { apply (capacity_store p p' _ Hs). apply length_insert. }
  split; [exact Hc|]. unfold pool_ready. rewrite Hc.
  split; [exact Hr'|]. split; [exact Hcap|].
  destruct Hfree' as (b & Hb & Hf). exists b. split; [|exact Hf].
  unfold block_at in *. rewrite Hs.
  destruct (Z.leb_spec 0 (next_free_index_ p')) as [_|?]; [|discriminate].
  rewrite list_lookup_insert_ne by lia. exact Hb.
Qed.

(** X5. A returning [allocate] hands out the block at the next free
    index, which was free; afterwards that block holds the new object
    and is in use, every other block is as before, and the next free
    index names another block, which is free. *)
Theorem MemPool_allocate_hands_out_free_block (p p' : MemPool.t T) (v : T) (h : Z) :
  allocate p v = Ok (p', h) ->
  h = next_free_index_ p /\
  block_free p h /\
  block_at p' h = Ok (mkBlock v false) /\
  (forall j, j <> h -> block_at p' j = block_at p j) /\
  next_free_index_ p' <> h /\
  block_free p' (next_free_index_ p').
Proof.
  intros H. apply allocate_Ok in H as (Hh & Hfree & Hs & Hne & Hfree').
  pose proof (block_free_in_range _ _ Hfree) as Hr.
  split; [exact Hh|]. split; [exact Hfree|]. split; [|split; [|split; [exact Hne|]]].
  - unfold block_at. rewrite Hs.
    destruct (Z.leb_spec 0 h) as [_|?]; [|lia].
    rewrite list_lookup_insert_eq by (unfold capacity in Hr; lia). reflexivity.
  - intros j Hj. unfold block_at. rewrite Hs.
    destruct (Z.leb_spec 0 j) as [?|?]; [|reflexivity].
    rewrite list_lookup_insert_ne by lia. reflexivity.
  - pose proof (block_free_in_range _ _ Hfree') as Hr'.
    destruct Hfree' as (b & Hb & Hf). exists b. split; [|exact Hf].
    unfold block_at in *. rewrite Hs.
    destruct (Z.leb_spec 0 (next_free_index_ p')) as [_|?]; [|discriminate].
    rewrite list_lookup_insert_ne by lia. exact Hb.
Qed.

(** What a returning [deallocate] has done. *)
Lemma deallocate_Ok (p p' : MemPool.t T) (elem_index : Z) :
  deallocate p elem_index = Ok p' ->
  0 <= elem_index < capacity p /\
  exists b, block_at p elem_index = Ok b /\ is_free_ b = false /\
            p' = set_block p elem_index (mkBlock (object_ b) true).
Proof.
  intros H. unfold deallocate, ASSERT in H.
  destruct ((0 <=? elem_index) && (elem_index <? capacity p)) eqn:Hrange;
    [|discriminate].
  apply andb_true_iff in Hrange as [H0 H1].
  apply Z.leb_le in H0. apply Z.ltb_lt in H1.
  cbv beta iota delta [mbind outcome_bind] in H.
  destruct (block_at p elem_index) as [b| | |] eqn:Hb; try discriminate.
  destruct (is_free_ b) eqn:Hfb; [discriminate|]. simpl in H. injection H as <-.
  split; [lia|]. exists b. auto.
Qed.

Lemma block_at_set_block_eq (p : MemPool.t T) (i : Z) (b : ObjectBlock T) :
  0 <= i < capacity p -> block_at (set_block p i b) i = Ok b.
Proof.
  intros Hi. unfold block_at, set_block. cbn [store_].
  destruct (Z.leb_spec 0 i) as [_|?]; [|lia].
  rewrite list_lookup_insert_eq by (unfold capacity in Hi; lia). reflexivity.
Qed.

Lemma block_at_set_block_ne (p : MemPool.t T) (i j : Z) (b : ObjectBlock T) :
  0 <= i -> j <> i -> block_at (set_block p i b) j = block_at p j.
Proof.
  intros Hi Hne. unfold block_at, set_block. cbn [store_].
  destruct (Z.leb_spec 0 j) as [?|?]; [|reflexivity].
  rewrite list_lookup_insert_ne by lia. reflexivity.
Qed.

(** X6. [deallocate] exits the process for a pointer that is not one of
    the pool's blocks and for a block that is free; when it returns, the
    block was in use and is free afterwards with its object left in
    place, the other blocks and the next free index are as before, and
    a second [deallocate] of the same pointer exits the process. *)
Theorem MemPool_deallocate_checks (p : MemPool.t T) (elem_index : Z) :
  (~ (0 <= elem_index < capacity p) -> deallocate p elem_index = Aborted) /\
  (block_free p elem_index -> deallocate p elem_index = Aborted) /\
  (forall p', deallocate p elem_index = Ok p' ->
     (exists b, block_at p elem_index = Ok b /\ is_free_ b = false /\
                block_at p' elem_index = Ok (mkBlock (object_ b) true)) /\
     (forall j, j <> elem_index -> block_at p' j = block_at p j) /\
     next_free_index_ p' = next_free_index_ p /\
     deallocate p' elem_index = Aborted).
Proof.
  split; [|split].
  - intros Hout. unfold deallocate, ASSERT.
    destruct ((0 <=? elem_index) && (elem_index <? capacity p)) eqn:Hrange;
      [|reflexivity].
    apply andb_true_iff in Hrange as [H0 H1].
    apply Z.leb_le in H0. apply Z.ltb_lt in H1. lia.
  - intros Hfree. pose proof (block_free_in_range _ _ Hfree) as Hr.
    destruct Hfree as (b & Hb & Hf). unfold deallocate, ASSERT.
    replace ((0 <=? elem_index) && (elem_index <? capacity p)) with true
      by (symmetry; apply andb_true_iff; split; [apply Z.leb_le | apply Z.ltb_lt]; lia).
    cbv beta iota delta [mbind outcome_bind]. rewrite Hb, Hf. reflexivity.
  - intros p' H. apply deallocate_Ok in H as (Hr & b & Hb & Hf & ->).
    split; [|split; [|split]].
    + exists b. split; [exact Hb|]. split; [exact Hf|].
      apply block_at_set_block_eq. exact Hr.
    + intros j Hj. apply block_at_set_block_ne; [lia | exact Hj].
    + reflexivity.
    + unfold deallocate, ASSERT. rewrite capacity_set_block.
      replace ((0 <=? elem_index) && (elem_index <? capacity p)) with true
        by (symmetry; apply andb_true_iff; split; [apply Z.leb_le | apply Z.ltb_lt]; lia).
      cbv beta iota delta [mbind outcome_bind].
      rewrite block_at_set_block_eq by exact Hr. reflexivity.
Qed.

(** *** Counting the free blocks *)

Lemma filter_insert_length (P : ObjectBlock T -> Prop) `{forall b, Decision (P b)}
    (l : list (ObjectBlock T)) : forall (i : nat) (x y : ObjectBlock T),
  l !! i = Some x ->
  (length (filter P (<[i := y]> l)) + (if decide (P x) then 1 else 0)
   = length (filter P l) + (if decide (P y) then 1 else 0))%nat.
Proof.
  induction l as [|a l IH]; intros i x y Hl; [discriminate|].
  destruct i as [|i].
  - injection Hl as ->. cbn [list_insert insert].
    change (<[0%nat := y]> (x :: l)) with (y :: l).
    rewrite !filter_cons. destruct (decide (P x)), (decide (P y)); simpl; lia.
  - change (<[S i := y]> (a :: l)) with (a :: <[i := y]> l).
    rewrite !filter_cons. specialize (IH i x y Hl).
    destruct (decide (P a)); simpl; lia.
Qed.

Lemma free_blocks_set_block (p : MemPool.t T) (i : Z) (b b' : ObjectBlock T) :
  block_at p i = Ok b ->
  (free_blocks (set_block p i b') + (if is_free_ b then 1 else 0)
   = free_blocks p + (if is_free_ b' then 1 else 0))%nat.
Proof.
  intros Hb. unfold block_at in Hb.
  destruct (Z.leb_spec 0 i) as [Hi|?]; [|discriminate].
  destruct (store_ p !! Z.to_nat i) as [b0|] eqn:Hl; [|discriminate].
  injection Hb as ->.
  unfold free_blocks, set_block. cbn [store_].
  pose proof (filter_insert_length (fun b => is_free_ b = true) (store_ p)
                (Z.to_nat i) b b' Hl) as Hlen.
  destruct (decide (is_free_ b = true)) as [Hf|Hf], (decide (is_free_ b' = true)) as [Hf'|Hf'];
    destruct (is_free_ b), (is_free_ b'); try congruence; exact Hlen.
Qed.

Lemma allocate_free_blocks (p p' : MemPool.t T) (v : T) (h : Z) :
  allocate p v = Ok (p', h) -> free_blocks p = S (free_blocks p').
Proof.
  intros H. apply allocate_Ok in H as (_ & (b & Hb & Hf) & Hs & _ & _).
  pose proof (free_blocks_set_block p h b (mkBlock v false) Hb) as Hlen.
  rewrite Hf in Hlen. cbn [is_free_] in Hlen.
  unfold free_blocks in *. rewrite Hs. unfold set_block in Hlen.
  cbn [store_] in Hlen. lia.
Qed.

Lemma deallocate_free_blocks (p p' : MemPool.t T) (elem_index : Z) :
  deallocate p elem_index = Ok p' -> free_blocks p' = S (free_blocks p).
Proof.
  intros H. apply deallocate_Ok in H as (_ & b & Hb & Hf & ->).
  pose proof (free_blocks_set_block p elem_index b (mkBlock (object_ b) true) Hb) as Hlen.
  rewrite Hf in Hlen. cbn [is_free_] in Hlen. lia.
Qed.

Lemma block_free_free_blocks (p : MemPool.t T) (i : Z) :
  block_free p i -> (1 <= free_blocks p)%nat.
Proof.
  intros (b & Hb & Hf). unfold block_at in Hb.
  destruct (Z.leb_spec 0 i) as [_|?]; [|discriminate].
  destruct (store_ p !! Z.to_nat i) as [b0|] eqn:Hl; [|discriminate].
  injection Hb as ->.
  assert (Hin : b ∈ filter (fun b => is_free_ b = true) (store_ p)).
  { apply list_elem_of_filter. split; [exact Hf|].
    apply (list_elem_of_lookup_2 _ _ _ Hl). }
  unfold free_blocks.
  destruct (filter (fun b => is_free_ b = true) (store_ p)) as [|x l].
  - apply elem_of_nil in Hin. contradiction.
  - simpl. lia.
Qed.

Lemma free_blocks_block_free (p : MemPool.t T) :
  (1 <= free_blocks p)%nat -> exists j, block_free p j.
Proof.
  unfold free_blocks. intros Hlen.
  destruct (filter (fun b => is_free_ b = true) (store_ p)) as [|x l] eqn:Hfl;
    [simpl in Hlen; lia|].
  assert (Hin : x ∈ filter (fun b => is_free_ b = true) (store_ p))
    by (rewrite Hfl; left).
  apply list_elem_of_filter in Hin as [Hf Hin].
  apply list_elem_of_lookup_1 in Hin as (j & Hj).
  exists (Z.of_nat j), x. split; [|exact Hf]. unfold block_at.
  destruct (Z.leb_spec 0 (Z.of_nat j)) as [_|?]; [|lia].
  rewrite Nat2Z.id, Hj. reflexivity.
Qed.

(** [allocate] on a pool between two calls: it exits the process when
    one block is free, and returns when more are. *)
Lemma allocate_ready_count (p : MemPool.t T) (v : T) :
  pool_ready p ->
  (free_blocks p = 1%nat -> allocate p v = Aborted) /\
  (free_blocks p <> 1%nat -> exists p' h, allocate p v = Ok (p', h)).
Proof.
  intros Hready. pose proof Hready as (Hr & Hcap & b & Hb & Hf).
  pose proof (free_blocks_set_block p (next_free_index_ p) b (mkBlock v false) Hb) as Hset.
  rewrite Hf in Hset. cbn [is_free_] in Hset.
  destruct (allocate_ready p v Hready) as [Hsome Hnone]. split.
  - intros H1. apply Hnone. intros j Hj Hne Hfj.
    assert (Hfj1 : block_free (set_block p (next_free_index_ p) (mkBlock v false)) j)
      by (apply block_free_set_block; auto).
    apply block_free_free_blocks in Hfj1. lia.
  - intros Hne.
    assert (H1 : (1 <= free_blocks p)%nat)
      by (apply (block_free_free_blocks p (next_free_index_ p)); exists b; auto).
    destruct (free_blocks_block_free
                (set_block p (next_free_index_ p) (mkBlock v false))) as (j & Hfj); [lia|].
    apply block_free_set_block in Hfj as [Hjne Hfj]; [|exact Hr].
    destruct Hsome as (p' & Ha & _).
    + exists j. split; [apply block_free_in_range; exact Hfj | auto].
    + eauto.
Qed.

Lemma create_free_blocks (d : T) (N : Z) : free_blocks (create d N) = Z.to_nat N.
Proof.
  unfold free_blocks, create. cbn [store_].
  induction (Z.to_nat N) as [|n IH]; [reflexivity|].
  cbn [replicate]. rewrite filter_cons.
  destruct (decide (is_free_ (mkBlock d true) = true)) as [_|Hn];
    [|exfalso; apply Hn; reflexivity].
  simpl. rewrite IH. reflexivity.
Qed.

Lemma run_ready (ops : list (op T)) : forall (p p' : MemPool.t T) (hs : list Z),
  pool_ready p -> run ops p = Ok (p', hs) ->
  pool_ready p' /\ capacity p' = capacity p /\
  (free_blocks p' + allocations ops = free_blocks p + deallocations ops)%nat /\
  length hs = allocations ops.
Proof.
  induction ops as [|[v|i] ops IH]; intros p p' hs Hp H.
  - injection H as <- <-. split4; auto.
  - cbn [run] in H.
    destruct (allocate p v) as [[p1 h]| | |] eqn:Ha; try discriminate.
    cbv beta iota delta [mbind outcome_bind] in H.
    destruct (run ops p1) as [[p2 hs2]| | |] eqn:Hr; try discriminate.
    cbv beta iota delta [mbind outcome_bind] in H. injection H as <- <-.
    destruct (allocate_Ok_ready p p1 v h (proj1 (proj2 Hp)) Ha) as [Hc1 Hp1].
    destruct (IH p1 p2 hs2 Hp1 Hr) as (Hp2 & Hc2 & Hcount & Hlen).
    pose proof (allocate_free_blocks _ _ _ _ Ha) as Hfb.
    unfold allocations, deallocations in *. cbn [List.filter is_allocate negb].
    simpl length. split4; [exact Hp2 | congruence | lia | lia].
  - cbn [run] in H.
    destruct (deallocate p i) as [p1| | |] eqn:Hd; try discriminate.
    cbv beta iota delta [mbind outcome_bind] in H.
    pose proof (deallocate_ready p p1 i Hp Hd) as Hp1.
    destruct (IH p1 p' hs Hp1 H) as (Hp2 & Hc2 & Hcount & Hlen).
    pose proof (deallocate_free_blocks _ _ _ Hd) as Hfb.
    assert (Hc1 : capacity p1 = capacity p).
    { apply deallocate_Ok in Hd as (_ & b & _ & _ & ->). apply capacity_set_block. }
    unfold allocations, deallocations in *. cbn [List.filter is_allocate negb].
    simpl length. split4; [exact Hp2 | congruence | lia | lia].
Qed.

(** X7. A pool never fills up: after any sequence of [allocate] and
    [deallocate] calls on a new pool of capacity [N] that have all
    returned, the number of free blocks is [N] less the allocations
    plus the deallocations and is at least 1, so that at most [N - 1]
    objects are alive; the block at the next free index is free, so
    that the first assertion of [allocate] does not fire; and the next
    [allocate] exits the process when exactly one block is free and
    returns otherwise. *)
Theorem MemPool_keeps_a_free_block (d : T) (N : Z) (ops : list (op T))
    (p : MemPool.t T) (hs : list Z) :
  0 < N < 2 ^ 64 ->
  run ops (create d N) = Ok (p, hs) ->
  (free_blocks p + allocations ops = Z.to_nat N + deallocations ops)%nat /\
  (1 <= free_blocks p)%nat /\
  block_free p (next_free_index_ p) /\
  length hs = allocations ops /\
  (free_blocks p = 1%nat -> forall v, allocate p v = Aborted) /\
  (free_blocks p <> 1%nat -> forall v, exists p' h, allocate p v = Ok (p', h)).
Proof.
  intros HN H.
  destruct (run_ready ops (create d N) p hs (create_ready d N HN) H)
    as (Hp & Hc & Hcount & Hlen).
  rewrite create_free_blocks in Hcount.
  split; [exact Hcount|].
  split; [exact (block_free_free_blocks p _ (proj2 (proj2 Hp)))|].
  split; [exact (proj2 (proj2 Hp))|]. split; [exact Hlen|]. split.
  - intros H1 v. exact (proj1 (allocate_ready_count p v Hp) H1).
  - intros H1 v. exact (proj2 (allocate_ready_count p v Hp) H1).
Qed.

(** The search of [updateNextFreeIndex] after an allocation: the new
    next free index is the first free block after the one handed out,
    going round the store. *)
Lemma allocate_next_first_free (p p' : MemPool.t T) (v : T) (h : Z) :
  capacity p < 2 ^ 64 ->
  allocate p v = Ok (p', h) ->
  exists m, 1 <= m < capacity p /\
    next_free_index_ p' = (h + m) mod capacity p /\
    block_free p ((h + m) mod capacity p) /\
    forall j, 1 <= j < m -> ~ block_free p ((h + j) mod capacity p).
Proof.
  intros Hcap H. pose proof (allocate_Ok _ _ _ _ H) as (-> & Hfree & Hs & Hne & Hfree').
  pose proof (block_free_in_range _ _ Hfree) as Hi0.
  pose proof (block_free_in_range _ _ Hfree') as Hi1.
  set (i0 := next_free_index_ p) in *. set (N := capacity p) in *.
  set (p1 := set_block p i0 (mkBlock v false)).
  assert (Hcap1 : capacity p1 = N) by apply capacity_set_block.
  assert (Hlen1 : 0 + Z.of_nat (length (store_ p1)) = N) by (unfold capacity in Hcap1; lia).
  assert (Hnext1 : next_free_index_ p1 = (i0 + 0) mod N)
    by (rewrite Z.add_0_r, Z.mod_small by lia; reflexivity).
  destruct (updateNextFreeIndex_loop_scan N i0 (length (store_ p1)) 0 p1
              Hcap1 Hcap Hi0 ltac:(lia) Hlen1 Hnext1) as [Hfound _].
  destruct Hfound as (m & Hm & Hfm & Hleast & Hloop).
  { exists ((next_free_index_ p' - i0) mod N). split; [apply Z.mod_pos_bound; lia|].
    rewrite Z.add_mod_idemp_r by lia.
    replace (i0 + (next_free_index_ p' - i0)) with (next_free_index_ p') by lia.
    rewrite Z.mod_small by lia.
    apply block_free_set_block; [exact Hi0 | auto]. }
  assert (Hp' : p' = set_next_free_index p1 ((i0 + m) mod N)).
  { unfold allocate in H. fold i0 in H.
    destruct Hfree as (b & Hb & Hf). rewrite Hb in H.
    cbv beta iota delta [mbind outcome_bind ASSERT] in H. rewrite Hf in H.
    unfold updateNextFreeIndex in H. fold p1 in H.
    change (next_free_index_ p1) with i0 in H. rewrite Hloop in H.
    injection H as <-. reflexivity. }
  apply block_free_set_block in Hfm as [Hmne Hfm]; [|exact Hi0].
  assert (Hm0 : m <> 0).
  { intros ->. apply Hmne. rewrite Z.add_0_r. apply Z.mod_small. lia. }
  exists m. split; [lia|]. split; [rewrite Hp'; reflexivity|]. split; [exact Hfm|].
  intros j Hj Hfj. apply (Hleast j); [lia|].
  apply block_free_set_block; [exact Hi0|]. split; [|exact Hfj].
  rewrite <- (Z.mod_small i0 N) at 2 by lia.
  rewrite <- (Z.add_0_r i0) at 2. intros Heq. symmetry in Heq. revert Heq.
  apply mod_offset_neq; lia.
Qed.

(** X8. The free-block search is circular first fit: after a returning
    [allocate] the next free index is the first free block met after
    the block handed out, going through the store in index order and
    back to the start at its end; the blocks passed over are in use. *)
Theorem MemPool_next_free_is_first_fit (p p' : MemPool.t T) (v : T) (h : Z) :
  capacity p < 2 ^ 64 ->
  allocate p v = Ok (p', h) ->
  exists m, 1 <= m < capacity p /\
    next_free_index_ p' = (h + m) mod capacity p /\
    block_free p' (next_free_index_ p') /\
    forall j, 1 <= j < m ->
      exists b, block_at p' ((h + j) mod capacity p) = Ok b /\ is_free_ b = false.
Proof.
  intros Hcap H.
  destruct (allocate_next_first_free p p' v h Hcap H) as (m & Hm & Hnext & Hfm & Hleast).
  pose proof (allocate_Ok _ _ _ _ H) as (Hh & Hfree & Hs & Hne & _).
  pose proof (block_free_in_range _ _ Hfree) as Hi0.
  destruct (allocate_Ok_ready p p' v h Hcap H) as [Hc' Hready'].
  exists m. split; [exact Hm|]. split; [exact Hnext|].
  split; [exact (proj2 (proj2 Hready'))|].
  intros j Hj.
  assert (Hpos : 0 <= (h + j) mod capacity p < capacity p)
    by (apply Z.mod_pos_bound; lia).
  destruct (block_at_in_range p' ((h + j) mod capacity p)) as [b Hb]; [lia|].
  exists b. split; [exact Hb|].
  destruct (is_free_ b) eqn:Hf; [|reflexivity]. exfalso.
  apply (Hleast j Hj). exists b. split; [|exact Hf].
  rewrite <- Hb. symmetry. unfold block_at. rewrite Hs.
  destruct (Z.leb_spec 0 ((h + j) mod capacity p)) as [_|?]; [|reflexivity].
  rewrite list_lookup_insert_ne; [reflexivity|].
  intros Heq. apply Z2Nat.inj in Heq; [|lia|lia].
  rewrite <- (Z.mod_small h (capacity p)) in Heq at 1 by lia.
  rewrite <- (Z.add_0_r h) in Heq at 1. revert Heq.
  apply mod_offset_neq; lia.
Qed.

(** *** A new pool *)

Lemma fresh_allocations (d : T) (N : Z) (vs : list T) : forall (k : Z) (p : MemPool.t T),
  0 < N < 2 ^ 64 -> capacity p = N -> 0 <= k -> next_free_index_ p = k ->
  (forall j, 0 <= j < N -> (block_free p j <-> k <= j)) ->
  (k + Z.of_nat (length vs) < N ->
   exists p', run (map Allocate vs) p = Ok (p', seqZ k (Z.of_nat (length vs))) /\
              next_free_index_ p' = k + Z.of_nat (length vs) /\
              free_blocks p = (length vs + free_blocks p')%nat) /\
  (k < N -> k + Z.of_nat (length vs) = N -> run (map Allocate vs) p = Aborted).
Proof.
  induction vs as [|v vs IH]; intros k p HN Hcap Hk Hnext Hblocks.
  - split.
    + intros _. exists p. split; [reflexivity|]. split; [simpl; lia | reflexivity].
    + simpl. lia.
  - simpl length.
    assert (Hstep : k + 1 < N ->
      exists p1, allocate p v = Ok (p1, k) /\ capacity p1 = N /\
                 next_free_index_ p1 = k + 1 /\
                 forall j, 0 <= j < N -> (block_free p1 j <-> k + 1 <= j)).
    { intros Hlt.
      assert (Hready : pool_ready p).
      { unfold pool_ready. rewrite Hcap, Hnext. split; [lia|]. split; [lia|].
        apply Hblocks; lia. }
      destruct (proj1 (allocate_ready p v Hready)) as (p1 & Ha & _).
      { exists (k + 1). rewrite Hcap, Hnext. split; [lia|]. split; [lia|].
        apply Hblocks; lia. }
      rewrite Hnext in Ha. exists p1. split; [exact Ha|].
      destruct (allocate_Ok_ready p p1 v k ltac:(lia) Ha) as [Hc1 _].
      split; [congruence|].
      pose proof (allocate_Ok _ _ _ _ Ha) as (_ & _ & Hs & _ & _).
      destruct (allocate_next_first_free p p1 v k ltac:(lia) Ha)
        as (m & Hm & Hn1 & Hfm & Hleast).
      rewrite Hcap in *.
      assert (Hm1 : m = 1).
      { destruct (Z.eq_dec m 1) as [?|Hne]; [assumption|]. exfalso.
        apply (Hleast 1); [lia|]. rewrite Z.mod_small by lia. apply Hblocks; lia. }
      subst m. rewrite Z.mod_small in Hn1 by lia. split; [exact Hn1|].
      intros j Hj. split.
      - intros (b & Hb & Hf). unfold block_at in Hb. rewrite Hs in Hb.
        destruct (Z.leb_spec 0 j) as [_|?]; [|lia].
        destruct (Z.eq_dec j k) as [->|Hjk].
        + rewrite list_lookup_insert_eq in Hb by (unfold capacity in Hcap; lia).
          injection Hb as <-. discriminate.
        + rewrite list_lookup_insert_ne in Hb by lia.
          assert (k <= j); [|lia]. apply Hblocks; [lia|].
          exists b. split; [|exact Hf]. unfold block_at.
          destruct (Z.leb_spec 0 j) as [_|?]; [exact Hb | lia].
      - intros Hle. destruct (proj2 (Hblocks j Hj) ltac:(lia)) as (b & Hb & Hf).
        exists b. split; [|exact Hf]. unfold block_at in *. rewrite Hs.
        destruct (Z.leb_spec 0 j) as [_|?]; [|lia].
        rewrite list_lookup_insert_ne by lia. exact Hb. }
    split.
    + intros Hlt. destruct Hstep as (p1 & Ha & Hc1 & Hn1 & Hb1); [lia|].
      destruct (proj1 (IH (k + 1) p1 HN Hc1 ltac:(lia) Hn1 Hb1)) as (p' & Hr & Hn' & Hfb);
        [lia|].
      exists p'. split; [|split; [lia|]].
      * cbn [map run]. rewrite Ha. cbv beta iota delta [mbind outcome_bind].
        rewrite Hr. rewrite (seqZ_cons k) by lia.
        replace (Z.pred (Z.of_nat (S (length vs)))) with (Z.of_nat (length vs)) by lia.
        reflexivity.
      * rewrite (allocate_free_blocks _ _ _ _ Ha), Hfb. lia.
    + intros HkN Hlast. cbn [map run].
      destruct (Z.eq_dec (k + 1) N) as [Hfull|Hmore].
      * assert (Hready : pool_ready p).
        { unfold pool_ready. rewrite Hcap, Hnext. split; [lia|]. split; [lia|].
          apply Hblocks; lia. }
        rewrite (proj2 (allocate_ready p v Hready)); [reflexivity|].
        rewrite Hcap, Hnext. intros j Hj Hne Hfj. apply Hblocks in Hfj; lia.
      * destruct Hstep as (p1 & Ha & Hc1 & Hn1 & Hb1); [lia|].
        rewrite Ha. cbv beta iota delta [mbind outcome_bind].
        rewrite (proj2 (IH (k + 1) p1 HN Hc1 ltac:(lia) Hn1 Hb1)); [reflexivity|lia|lia].
Qed.

(** X9. A new pool of capacity [N] serves [N - 1] allocations and not
    one more: any [n < N] calls of [allocate] return, handing out the
    blocks 0, 1, ..., [n - 1] in this order, and the [N]-th call in a
    row exits the process. *)
Theorem MemPool_new_pool_serves_all_but_one (d : T) (N : Z) (vs : list T) :
  0 < N < 2 ^ 64 ->
  (Z.of_nat (length vs) < N ->
   exists p, run (map Allocate vs) (create d N) = Ok (p, seqZ 0 (Z.of_nat (length vs))) /\
             next_free_index_ p = Z.of_nat (length vs)) /\
  (Z.of_nat (length vs) = N -> run (map Allocate vs) (create d N) = Aborted).
Proof.
  intros HN.
  assert (Hcap : capacity (create d N) = N).
  { unfold capacity, create. cbn [store_]. rewrite length_replicate. lia. }
  assert (Hblocks : forall j, 0 <= j < N -> (block_free (create d N) j <-> 0 <= j)).
  { intros j Hj. split; [lia|]. intros _. exists (mkBlock d true). split; [|reflexivity].
    unfold block_at, create. cbn [store_].
    destruct (Z.leb_spec 0 j) as [_|?]; [|lia].
    rewrite lookup_replicate_2 by lia. reflexivity. }
  destruct (fresh_allocations d N vs 0 (create d N) HN Hcap ltac:(lia) eq_refl Hblocks)
    as [Hserve Hstop].
  split.
  - intros Hlt. destruct Hserve as (p & Hr & Hn & _); [lia|].
    exists p. split; [exact Hr | lia].
  - intros Hlast. apply Hstop; lia.
Qed.

End MemPoolUseFacts.

Lemma MemPool_allocate_hands_out_free_block_witness :
  let p := MemPool.create 0 3 in
  let p' := MemPool.mk [MemPool.mkBlock 7 false; MemPool.mkBlock 0 true;
                        MemPool.mkBlock 0 true] 1 in
  MemPool.allocate p 7 = Ok (p', 0) /\
  0 = MemPool.next_free_index_ p /\
  block_free p 0 /\
  MemPool.block_at p' 0 = Ok (MemPool.mkBlock 7 false) /\
  (forall j, j <> 0 -> MemPool.block_at p' j = MemPool.block_at p j) /\
  MemPool.next_free_index_ p' <> 0 /\
  block_free p' (MemPool.next_free_index_ p').
Proof.
  split; [reflexivity|].
  apply (MemPool_allocate_hands_out_free_block (MemPool.create 0 3) _ 7 0).
  reflexivity.
Defined.

Lemma MemPool_deallocate_checks_witness :
  let p := MemPool.mk [MemPool.mkBlock 7 false; MemPool.mkBlock 0 true] 1 in
  let p' := MemPool.mk [MemPool.mkBlock 7 true; MemPool.mkBlock 0 true] 1 in
  MemPool.deallocate p 2 = Aborted /\
  MemPool.deallocate p 1 = Aborted /\
  MemPool.deallocate p 0 = Ok p' /\
  MemPool.deallocate p' 0 = Aborted.
Proof.
  split; [|split; [|split]].
  - apply (proj1 (MemPool_deallocate_checks
                    (MemPool.mk [MemPool.mkBlock 7 false; MemPool.mkBlock 0 true] 1) 2)).
    unfold MemPool.capacity. simpl. lia.
  - apply (proj1 (proj2 (MemPool_deallocate_checks
                    (MemPool.mk [MemPool.mkBlock 7 false; MemPool.mkBlock 0 true] 1) 1))).
    exists (MemPool.mkBlock 0 true). split; reflexivity.
  - reflexivity.
  - apply (proj2 (proj2 (MemPool_deallocate_checks
                    (MemPool.mk [MemPool.mkBlock 7 false; MemPool.mkBlock 0 true] 1) 0))).
    reflexivity.
Defined.

Lemma MemPool_keeps_a_free_block_witness :
  let ops := [MemPoolUse.Allocate 1; MemPoolUse.Allocate 2; MemPoolUse.Deallocate 0;
              MemPoolUse.Allocate 3] in
  let p := MemPool.mk [MemPool.mkBlock 1 true; MemPool.mkBlock 2 false;
                       MemPool.mkBlock 3 false] 0 in
  MemPoolUse.run ops (MemPool.create 0 3) = Ok (p, [0; 1; 2]) /\
  (MemPool.free_blocks p + MemPoolUse.allocations ops
   = Z.to_nat 3 + MemPoolUse.deallocations ops)%nat /\
  (1 <= MemPool.free_blocks p)%nat /\
  block_free p (MemPool.next_free_index_ p) /\
  length [0; 1; 2] = MemPoolUse.allocations ops /\
  (MemPool.free_blocks p = 1%nat -> forall v, MemPool.allocate p v = Aborted) /\
  (MemPool.free_blocks p <> 1%nat ->
   forall v, exists p' h, MemPool.allocate p v = Ok (p', h)).
Proof.
  split; [reflexivity|].
  apply (MemPool_keeps_a_free_block 0 3
           [MemPoolUse.Allocate 1; MemPoolUse.Allocate 2; MemPoolUse.Deallocate 0;
            MemPoolUse.Allocate 3]).
  - lia.
  - reflexivity.
Defined.

Lemma MemPool_next_free_is_first_fit_witness :
  let p := MemPool.mk [MemPool.mkBlock 0 true; MemPool.mkBlock 1 false;
                       MemPool.mkBlock 2 true; MemPool.mkBlock 3 false] 2 in
  let p' := MemPool.mk [MemPool.mkBlock 0 true; MemPool.mkBlock 1 false;
                        MemPool.mkBlock 9 false; MemPool.mkBlock 3 false] 0 in
  MemPool.allocate p 9 = Ok (p', 2) /\
  exists m, 1 <= m < MemPool.capacity p /\
    MemPool.next_free_index_ p' = (2 + m) mod MemPool.capacity p /\
    block_free p' (MemPool.next_free_index_ p') /\
    forall j, 1 <= j < m ->
      exists b, MemPool.block_at p' ((2 + j) mod MemPool.capacity p) = Ok b /\
                MemPool.is_free_ b = false.
Proof.
  split; [reflexivity|].
  apply (MemPool_next_free_is_first_fit
           (MemPool.mk [MemPool.mkBlock 0 true; MemPool.mkBlock 1 false;
                        MemPool.mkBlock 2 true; MemPool.mkBlock 3 false] 2) _ 9 2).
  - unfold MemPool.capacity. simpl. lia.
  - reflexivity.
Defined.

Lemma MemPool_new_pool_serves_all_but_one_witness :
  (exists p, MemPoolUse.run (map MemPoolUse.Allocate [10; 20]) (MemPool.create 0 3)
             = Ok (p, seqZ 0 (Z.of_nat (length [10; 20]))) /\
             MemPool.next_free_index_ p = Z.of_nat (length [10; 20])) /\
  MemPoolUse.run (map MemPoolUse.Allocate [10; 20; 30]) (MemPool.create 0 3) = Aborted.
Proof.
  split.
  - apply (proj1 (MemPool_new_pool_serves_all_but_one 0 3 [10; 20] ltac:(lia))).
    simpl. lia.
  - apply (proj2 (MemPool_new_pool_serves_all_but_one 0 3 [10; 20; 30] ltac:(lia))).
    reflexivity.
Defined.


(* ====================================================================== *)
(** * The logger over several calls *)

Section LoggerUseFacts.
Variable show_float : Z -> string.
Variable show_double : Z -> string.

Import Logger LoggerUse.

Local Abbreviation text := (elements_text show_float show_double).

Lemma log_all_holds (calls : list (string * list arg)) :
  forall (lg : Logger.t) (N : Z) (pending : list LogElement),
  holds N (queue_ lg) pending ->
  calls_match calls ->
  Z.of_nat (length pending + calls_elements calls) <= N ->
  exists lg1 es,
    log_all calls lg = Ok lg1 /\ file_ lg1 = file_ lg /\
    holds N (queue_ lg1) (pending ++ es) /\ Forall well_tagged es /\
    text es = calls_text show_float show_double calls.
Proof.
  induction calls as [|[s args] calls IH]; intros lg N pending Hq Hm Hfit.
  - exists lg, []. rewrite app_nil_r. split4; auto.
  - inversion Hm as [|? ? Hcount Hm']; subst. cbn [fst snd] in Hcount.
    change (calls_elements ((s, args) :: calls))
      with (log_elements s args + calls_elements calls)%nat in Hfit.
    destruct (log_outcome s args lg (holds_writable _ _ _ Hq))
      as [Hok _].
    destruct (Hok Hcount) as (lg1 & Hlog & _).
    destruct (log_pushed show_float show_double s args lg lg1 Hlog)
      as (es1 & [Hfile Hp] & Hwt1 & Htxt1 & Hle1).
    specialize (Hp N pending Hq ltac:(lia)).
    destruct (IH lg1 N (pending ++ es1) Hp Hm') as (lg2 & es2 & Hall & Hfile2 & Hq2 & Hwt2 & Htxt2).
    { rewrite length_app. lia. }
    exists lg2, (es1 ++ es2). split4.
    + cbn [log_all]. rewrite Hlog. exact Hall.
    + congruence.
    + rewrite app_assoc. exact Hq2.
    + split; [apply Forall_app; auto|].
      rewrite (text_app show_float show_double), Htxt1, Htxt2. reflexivity.
Qed.

(** X10. Log calls made before a round of the flush task come out in
    call order: when every call has as many arguments as placeholders
    and the queue, empty at the start, can take the elements pushed,
    all the calls return with the file untouched, the next round of the
    flush task appends the substituted texts of the calls one after the
    other, and leaves the queue empty, so that a further round writes
    nothing. *)
Theorem Logger_calls_flushed_in_order (calls : list (string * list arg)) (lg : Logger.t) :
  LFQueue_idle (queue_ lg) ->
  calls_match calls ->
  Z.of_nat (calls_elements calls) <= LFQueue.capacity (queue_ lg) ->
  exists lg1 lg2,
    log_all calls lg = Ok lg1 /\
    file_ lg1 = file_ lg /\
    flushQueue_round show_float show_double lg1 = Ok lg2 /\
    file_ lg2 = String.append (file_ lg) (calls_text show_float show_double calls) /\
    LFQueue.size (queue_ lg2) = 0 /\
    flushQueue_round show_float show_double lg2 = Ok lg2.
Proof.
  intros Hidle Hm Hfit.
  pose proof (idle_holds _ Hidle) as Hq.
  destruct (log_all_holds calls lg _ [] Hq Hm ltac:(simpl; lia))
    as (lg1 & es & Hall & Hfile & Hq1 & Hwt & Htxt).
  simpl in Hq1.
  destruct (flushQueue_round_holds show_float show_double _ es lg1 Hq1 Hwt)
    as (lg2 & Hfl & Hf2 & Hq2).
  exists lg1, lg2. split; [exact Hall|]. split; [exact Hfile|]. split; [exact Hfl|].
  split; [rewrite Hf2, Hfile, Htxt; reflexivity|].
  split; [exact (holds_count _ _ _ Hq2)|].
  unfold flushQueue_round, LFQueue.size. rewrite (holds_count _ _ _ Hq2).
  simpl. unfold LFQueue.getNextToRead, LFQueue.size.
  rewrite (holds_count _ _ _ Hq2). reflexivity.
Qed.

(** *** The time string *)

Lemma c_str_replace_last (body : string) (c : ascii) :
  c_str (TimeUtils.replace_last_by_NUL (String.append body (String c EmptyString)))
  = c_str body.
Proof.
  induction body as [|a body IH].
  - reflexivity.
  - change (String.append (String a body) (String c EmptyString))
      with (String a (String.append body (String c EmptyString))).
    assert (Hne : exists a' rest, String.append body (String c EmptyString) = String a' rest).
    { destruct body; simpl; eauto. }
    destruct Hne as (a' & rest & Heq).
    cbn [TimeUtils.replace_last_by_NUL]. rewrite Heq. rewrite <- Heq.
    cbn [c_str]. rewrite IH. reflexivity.
Qed.

Lemma c_str_no_NUL (body : string) :
  Forall (fun c => c <> TimeUtils.NUL) (list_ascii_of_string body) -> c_str body = body.
Proof.
  induction body as [|a body IH]; intros H; [reflexivity|].
  cbn [list_ascii_of_string] in H. inversion H as [|? ? Ha Hb]; subst.
  rewrite c_str_char by exact Ha. rewrite IH by exact Hb. reflexivity.
Qed.

(** X11. The time string is logged without the newline of [ctime]:
    [getCurrentTimeStr] overwrites the last character of the text of
    [ctime] with NUL, and [pushValue(const string &)] goes through
    [c_str()] and stops at that NUL; so pushing the time string and
    running a round of the flush task appends the text of [ctime]
    without its last character (all of it when it holds no NUL), and an
    empty text of [ctime] is left empty. *)
Theorem Logger_time_string_drops_newline (body : string) (c : ascii) (lg : Logger.t) :
  LFQueue_idle (queue_ lg) ->
  Z.of_nat (S (String.length body)) <= LFQueue.capacity (queue_ lg) ->
  Forall (fun c => c <> TimeUtils.NUL) (list_ascii_of_string body) ->
  TimeUtils.getCurrentTimeStr EmptyString = EmptyString /\
  String.length (TimeUtils.getCurrentTimeStr (String.append body (String c EmptyString)))
  = S (String.length body) /\
  exists lg1 lg2,
    pushValue_string lg
      (TimeUtils.getCurrentTimeStr (String.append body (String c EmptyString))) = Ok lg1 /\
    flushQueue_round show_float show_double lg1 = Ok lg2 /\
    file_ lg2 = String.append (file_ lg) body.
Proof.
  intros Hidle Hfit Hbody.
  set (now := String.append body (String c EmptyString)).
  assert (Hlen : String.length (TimeUtils.getCurrentTimeStr now) = S (String.length body)).
  { unfold now, TimeUtils.getCurrentTimeStr. clear. induction body as [|a body IH].
    - reflexivity.
    - change (String.append (String a body) (String c EmptyString))
        with (String a (String.append body (String c EmptyString))).
      assert (Hne : exists a' rest,
                 String.append body (String c EmptyString) = String a' rest).
      { destruct body; simpl; eauto. }
      destruct Hne as (a' & rest & Heq).
      cbn [TimeUtils.replace_last_by_NUL]. rewrite Heq. rewrite <- Heq.
      cbn [String.length]. rewrite IH. reflexivity. }
  split; [reflexivity|]. split; [exact Hlen|].
  destruct (push_then_flush show_float show_double
              (A_string (TimeUtils.getCurrentTimeStr now)) lg Hidle)
    as (lg1 & lg2 & Hpush & Hfl & Hfile & _).
  { cbn [arg_elements]. rewrite Hlen. exact Hfit. }
  exists lg1, lg2. split; [exact Hpush|]. split; [exact Hfl|].
  rewrite Hfile. cbn [arg_text]. unfold now, TimeUtils.getCurrentTimeStr.
  rewrite c_str_replace_last, (c_str_no_NUL body Hbody). reflexivity.
Qed.

End LoggerUseFacts.

Lemma Logger_calls_flushed_in_order_witness :
  exists lg1 lg2,
    LoggerUse.log_all
      [("a=% "%string, [Logger.A_scalar (Logger.S_int 1)]);
       ("b=%"%string, [Logger.A_cstr "x"%string])] Logger.create = Ok lg1 /\
    Logger.file_ lg1 = Logger.file_ Logger.create /\
    Logger.flushQueue_round (fun _ => EmptyString) (fun _ => EmptyString) lg1 = Ok lg2 /\
    Logger.file_ lg2
    = String.append (Logger.file_ Logger.create)
        (LoggerUse.calls_text (fun _ => EmptyString) (fun _ => EmptyString)
           [("a=% "%string, [Logger.A_scalar (Logger.S_int 1)]);
            ("b=%"%string, [Logger.A_cstr "x"%string])]) /\
    LFQueue.size (Logger.queue_ lg2) = 0 /\
    Logger.flushQueue_round (fun _ => EmptyString) (fun _ => EmptyString) lg2 = Ok lg2.
Proof.
  apply (Logger_calls_flushed_in_order (fun _ => EmptyString) (fun _ => EmptyString)
           [("a=% "%string, [Logger.A_scalar (Logger.S_int 1)]);
            ("b=%"%string, [Logger.A_cstr "x"%string])] Logger.create).
  - exact create_idle.
  - repeat constructor.
  - rewrite create_capacity. apply Z.leb_le. vm_compute. reflexivity.
Defined.

Lemma Logger_time_string_drops_newline_witness :
  TimeUtils.getCurrentTimeStr EmptyString = EmptyString /\
  String.length (TimeUtils.getCurrentTimeStr
                   (String.append "Thu Sep 20 14:55:02 2023"
                      (String "010"%char EmptyString)))
  = S (String.length "Thu Sep 20 14:55:02 2023") /\
  exists lg1 lg2,
    Logger.pushValue_string Logger.create
      (TimeUtils.getCurrentTimeStr
         (String.append "Thu Sep 20 14:55:02 2023" (String "010"%char EmptyString)))
    = Ok lg1 /\
    Logger.flushQueue_round (fun _ => EmptyString) (fun _ => EmptyString) lg1 = Ok lg2 /\
    Logger.file_ lg2
    = String.append (Logger.file_ Logger.create) "Thu Sep 20 14:55:02 2023".
Proof.
  apply (Logger_time_string_drops_newline (fun _ => EmptyString) (fun _ => EmptyString)
           "Thu Sep 20 14:55:02 2023" "010"%char Logger.create).
  - exact create_idle.
  - rewrite create_capacity. apply Z.leb_le. vm_compute. reflexivity.
  - repeat constructor; discriminate.
Defined.

(* ====================================================================== *)
(** * Socket set up and the answers of the operating system *)

Section SocketCallsFacts.
Import SocketUtils SyscallTrace.
Variable source_file : string.
Variable source_line : Z.

Lemma land_lor_same (a b : Z) : Z.land (Z.lor a b) b = b.
Proof.
  apply Z.bits_inj'. intros n Hn.
  rewrite Z.land_spec, Z.lor_spec. destruct (Z.testbit a n), (Z.testbit b n); reflexivity.
Qed.

Lemma land_lor_keep (a b : Z) : Z.land (Z.lor a b) a = a.
Proof.
  apply Z.bits_inj'. intros n Hn.
  rewrite Z.land_spec, Z.lor_spec. destruct (Z.testbit a n), (Z.testbit b n); reflexivity.
Qed.

(** X12. [setNonBlocking]: when [O_NONBLOCK] is among the flags
    [F_GETFL] returns, nothing is changed and the result is success;
    otherwise [F_SETFL] is called once, with the old flags kept and
    [O_NONBLOCK] added, and the result is whether that call did not
    return -1. A failure of [F_GETFL] itself (-1, all bits set) is
    taken for flags with [O_NONBLOCK] and reported as success, with no
    [F_SETFL] made. *)
Theorem setNonBlocking_outcomes (os : OS) (fd : Z) (tr : list syscall) :
  let flags := sys_ret os tr (Sys_fcntl_getfl fd) in
  let new_flags := Z.lor flags (O_NONBLOCK os) in
  (Z.land flags (O_NONBLOCK os) <> 0 ->
   setNonBlocking os fd tr = (true, tr ++ [Sys_fcntl_getfl fd])) /\
  (Z.land flags (O_NONBLOCK os) = 0 ->
   setNonBlocking os fd tr
   = (negb (sys_ret os (tr ++ [Sys_fcntl_getfl fd]) (Sys_fcntl_setfl fd new_flags) =? -1),
      tr ++ [Sys_fcntl_getfl fd; Sys_fcntl_setfl fd new_flags]) /\
   Z.land new_flags (O_NONBLOCK os) = O_NONBLOCK os /\
   Z.land new_flags flags = flags) /\
  (flags = -1 -> O_NONBLOCK os <> 0 ->
   setNonBlocking os fd tr = (true, tr ++ [Sys_fcntl_getfl fd])).
Proof.
  intros flags new_flags.
  assert (Hset : Z.land flags (O_NONBLOCK os) <> 0 ->
                 setNonBlocking os fd tr = (true, tr ++ [Sys_fcntl_getfl fd])).
  { intros Hne. unfold setNonBlocking, sys. fold flags.
    destruct (Z.eqb_spec (Z.land flags (O_NONBLOCK os)) 0) as [?|_]; [contradiction|].
    reflexivity. }
  split; [exact Hset|]. split.
  - intros H0. split; [|split].
    + unfold setNonBlocking, sys. fold flags. rewrite H0. simpl.
      rewrite <- app_assoc. reflexivity.
    + apply land_lor_same.
    + apply land_lor_keep.
  - intros Hfail Hnb. apply Hset. rewrite Hfail.
    change (-1) with (Z.opp 1). rewrite Z.land_m1_l. exact Hnb.
Qed.

Ltac split_tests H :=
  repeat match type of H with
         | context [if ?b then _ else _] => destruct b eqn:?; simpl in H
         end.

Lemma createSocket_body_calls (os : OS) (cfg : SocketCfg) (rp : addrinfo)
  (tr : list syscall) (fd : Z) (tr' : list syscall) :
  createSocket_body os cfg rp tr = Ok (fd, tr') ->
  exists made,
    tr' = tr ++ Sys_socket (ai_family rp) (ai_socktype rp) (ai_protocol rp) :: made /\
    fd = sys_ret os tr (Sys_socket (ai_family rp) (ai_socktype rp) (ai_protocol rp)) /\
    Forall (fun c => descriptor c = Some fd) made /\
    calls is_socket made = 0%nat /\
    calls is_getaddrinfo made = 0%nat /\
    calls is_nodelay made = (if is_udp_ cfg then 0 else 1)%nat /\
    calls is_connect made = (if is_listening_ cfg then 0 else 1)%nat /\
    calls is_reuseaddr made = (if is_listening_ cfg then 1 else 0)%nat /\
    calls is_listen made
    = (if is_listening_ cfg then if is_udp_ cfg then 1 else 2 else 0)%nat /\
    calls is_timestamp made = (if needs_so_timestamp_ cfg then 1 else 0)%nat.
Proof.
  unfold createSocket_body, setNonBlocking, disableNagle, setSOTimestamp, sys, ASSERT.
  intros H.
  destruct cfg as [ip iface port udp listening ts]; simpl in H.
  destruct udp, listening, ts; simpl in H; split_tests H; try discriminate;
    injection H as <- <-; eexists;
    (split; [repeat rewrite <- app_assoc; reflexivity|]);
    (split; [reflexivity|]);
    (split; [repeat constructor|]);
    repeat split.
Qed.

(** X13. The calls [createSocket] makes follow the configuration: when
    it returns, the descriptor is the one [socket] returned, made once
    for the first address found, and is not -1; every later call acts
    on that descriptor; [getaddrinfo] was called once, before [socket];
    [TCP_NODELAY] is set exactly for a stream socket, [connect] is
    called exactly when the socket is not listening, [SO_REUSEADDR] is
    set exactly when it is, [listen] is called once for a listening
    datagram socket and twice for a listening stream socket, and
    [SO_TIMESTAMP] is set exactly when receive timestamps are asked
    for. *)
Theorem createSocket_calls_follow_cfg (os : OS) (lg : Logger.t) (cfg : SocketCfg)
    (fd : Z) (lg' : Logger.t) (tr : list syscall) :
  createSocket source_file source_line os lg cfg [] = Ok (fd, lg', tr) ->
  fd <> -1 /\
  exists (rp : addrinfo) (before made : list syscall),
    head (gai_result os) = Some rp /\
    tr = before ++ Sys_socket (ai_family rp) (ai_socktype rp) (ai_protocol rp) :: made /\
    fd = sys_ret os before (Sys_socket (ai_family rp) (ai_socktype rp) (ai_protocol rp)) /\
    calls is_getaddrinfo before = 1%nat /\
    calls is_getaddrinfo made = 0%nat /\
    calls is_socket before = 0%nat /\
    calls is_socket made = 0%nat /\
    Forall (fun c => descriptor c = Some fd) made /\
    calls is_nodelay made = (if is_udp_ cfg then 0 else 1)%nat /\
    calls is_connect made = (if is_listening_ cfg then 0 else 1)%nat /\
    calls is_reuseaddr made = (if is_listening_ cfg then 1 else 0)%nat /\
    calls is_listen made
    = (if is_listening_ cfg then if is_udp_ cfg then 1 else 2 else 0)%nat /\
    calls is_timestamp made = (if needs_so_timestamp_ cfg then 1 else 0)%nat.
Proof.
  unfold createSocket, getIfaceIP, sys, ASSERT. intros H.
  assert (Hbody : forall (before : list syscall) (rp : addrinfo) (fd1 : Z) (tr1 : list syscall),
             createSocket_body os cfg rp before = Ok (fd1, tr1) ->
             fd1 <> -1).
  { intros before rp fd1 tr1 Hb.
    pose proof (createSocket_body_calls _ _ _ _ _ _ Hb) as (made & _ & -> & _).
    unfold createSocket_body, sys, ASSERT in Hb. cbv beta iota zeta in Hb.
    destruct (Z.eqb_spec (sys_ret os before
                (Sys_socket (ai_family rp) (ai_socktype rp) (ai_protocol rp))) (-1))
      as [?|Hne]; [discriminate | exact Hne]. }
  destruct (String.eqb (ip_ cfg) EmptyString).
  - apply bind_Ok_inv in H as (lg1 & _ & H).
    destruct (_ =? 0) in H; simpl in H; [|discriminate].
    destruct (gai_result os) as [|rp rest]; [discriminate|].
    apply bind_Ok_inv in H as ([fd1 tr1] & Hb & H). injection H as <- _ <-.
    split; [exact (Hbody _ _ _ _ Hb)|].
    apply createSocket_body_calls in Hb
      as (made & -> & -> & Hfd & Hs & Hg & Hn & Hc & Hr & Hl & Ht).
    exists rp. eexists. exists made. split; [reflexivity|]. split; [reflexivity|].
    split; [reflexivity|]. split; [reflexivity|]. split; [exact Hg|].
    split; [reflexivity|]. split; [exact Hs|]. split; [exact Hfd|]. auto.
  - apply bind_Ok_inv in H as (lg1 & _ & H).
    destruct (_ =? 0) in H; simpl in H; [|discriminate].
    destruct (gai_result os) as [|rp rest]; [discriminate|].
    apply bind_Ok_inv in H as ([fd1 tr1] & Hb & H). injection H as <- _ <-.
    split; [exact (Hbody _ _ _ _ Hb)|].
    apply createSocket_body_calls in Hb
      as (made & -> & -> & Hfd & Hs & Hg & Hn & Hc & Hr & Hl & Ht).
    exists rp. eexists. exists made. split; [reflexivity|]. split; [reflexivity|].
    split; [reflexivity|]. split; [reflexivity|]. split; [exact Hg|].
    split; [reflexivity|]. split; [exact Hs|]. split; [exact Hfd|]. auto.
Qed.

End SocketCallsFacts.

Section SocketAnswersFacts.
Import SocketUtils SyscallTrace.
Local Opaque Logger.log.

Lemma createSocket_log_returns (file : string) (line : Z) (time_str cfg_str : string)
    (lg : Logger.t) :
  LFQueue_writable (Logger.queue_ lg) ->
  exists lg1,
    Logger.log "%:% %() % cfg:%
"
      [ Logger.A_cstr file;
        Logger.A_scalar (Logger.S_int line);
        Logger.A_cstr "createSocket";
        Logger.A_string time_str;
        Logger.A_string cfg_str ] lg = Ok lg1 /\
    LFQueue_writable (Logger.queue_ lg1).
Proof.
  intros Hw.
  match goal with |- context [Logger.log ?f ?a lg] =>
    exact (proj1 (log_outcome f a lg Hw) eq_refl)
  end.
Qed.

(** X14. A failed [connect] goes unnoticed: the assertion after
    [connect] compares its result with 1, not with -1. On an operating
    system where every other call succeeds, [createSocket] for a socket
    that is not listening returns the descriptor whatever [connect]
    returns, -1 included, having called [connect] on it; it exits the
    process only if [connect] returns 1. *)
Theorem createSocket_connect_failure_unnoticed (file : string) (line : Z)
    (connect_ret kevent_ret : Z) (cfg : SocketCfg) (lg : Logger.t) :
  is_listening_ cfg = false ->
  LFQueue_writable (Logger.queue_ lg) ->
  (connect_ret <> 1 ->
   exists lg' tr,
     createSocket file line (os_answering connect_ret kevent_ret) lg cfg []
     = Ok (7, lg', tr) /\
     last tr = Some (if needs_so_timestamp_ cfg then Sys_setsockopt 7 SO_TIMESTAMP
                     else Sys_connect 7 100 16) /\
     calls is_connect tr = 1%nat) /\
  (connect_ret = 1 ->
   createSocket file line (os_answering connect_ret kevent_ret) lg cfg [] = Aborted).
Proof.
  intros Hl Hw. destruct cfg as [ip iface port udp listening ts].
  cbn [is_listening_] in Hl. subst listening.
  unfold createSocket. cbn [ip_ iface_ port_ is_udp_ is_listening_ needs_so_timestamp_].
  split.
  - intros Hne.
    destruct (String.eqb ip EmptyString); cbn [getIfaceIP sys];
      match goal with |- context [Logger.log ?f [?a1; ?a2; ?a3; Logger.A_string ?t; Logger.A_string ?c] lg] =>
        destruct (createSocket_log_returns file line t c lg Hw) as (lg1 & Hlog & _);
        rewrite Hlog
      end;
      unfold createSocket_body, setNonBlocking, disableNagle, setSOTimestamp, sys, ASSERT;
      cbn; destruct (Z.eqb_spec connect_ret 1) as [?|_]; try contradiction;
      destruct udp, ts; cbn; exists lg1; eexists; (split; [reflexivity|]);
      split; reflexivity.
  - intros ->.
    destruct (String.eqb ip EmptyString); cbn [getIfaceIP sys];
      match goal with |- context [Logger.log ?f [?a1; ?a2; ?a3; Logger.A_string ?t; Logger.A_string ?c] lg] =>
        destruct (createSocket_log_returns file line t c lg Hw) as (lg1 & Hlog & _);
        rewrite Hlog
      end;
      unfold createSocket_body, setNonBlocking, disableNagle, setSOTimestamp, sys, ASSERT;
      cbn; destruct udp, ts; reflexivity.
Qed.

(** X15. A failed registration of the listener goes unnoticed:
    [addToEpollList] returns whether [kevent] did not return 1, and
    [listen] asserts that result. On an operating system where every
    other call succeeds, [listen] returns whatever [kevent] returns, -1
    included, with the kernel queue and the listener descriptor stored,
    the two socket lists untouched and the registration as its last
    call; it exits the process only if [kevent] returns 1. *)
Theorem TCPServer_listen_registration_unchecked (file : string) (line : Z)
    (needs_so_timestamp : bool) (connect_ret kevent_ret : Z) (srv : TCPServer.t)
    (lg : Logger.t) (iface : string) (port : Z) :
  LFQueue_writable (Logger.queue_ lg) ->
  (kevent_ret <> 1 ->
   exists srv' lg' tr,
     TCPServer.listen file line needs_so_timestamp (os_answering connect_ret kevent_ret)
       lg srv iface port [] = Ok (srv', lg', tr) /\
     TCPServer.kqueue_fd_ srv' = 5 /\
     TCPServer.listener_socket_fd_ srv' = 7 /\
     TCPServer.receive_sockets_ srv' = TCPServer.receive_sockets_ srv /\
     TCPServer.send_sockets_ srv' = TCPServer.send_sockets_ srv /\
     last tr = Some (Sys_kevent_add_read 5 7)) /\
  (kevent_ret = 1 ->
   TCPServer.listen file line needs_so_timestamp (os_answering connect_ret kevent_ret)
     lg srv iface port [] = Aborted).
Proof.
  intros Hw.
  unfold TCPServer.listen, TCPServer.TCPSocket_connect, createSocket.
  cbn [ip_ iface_ port_ is_udp_ is_listening_ needs_so_timestamp_ sys String.eqb
       getIfaceIP].
  match goal with |- context [Logger.log ?f [?a1; ?a2; ?a3; Logger.A_string ?t; Logger.A_string ?c] lg] =>
    destruct (createSocket_log_returns file line t c lg Hw) as (lg1 & Hlog & _)
  end.
  rewrite Hlog. split.
  - intros Hne. cbn.
    unfold createSocket_body, setNonBlocking, disableNagle, setSOTimestamp,
      TCPServer.addToEpollList, sys, ASSERT.
    cbn. destruct (Z.eqb_spec kevent_ret 1) as [?|_]; [contradiction|].
    destruct needs_so_timestamp; cbn; eexists _, lg1, _;
      (split; [reflexivity|]); repeat split.
  - intros ->. cbn.
    unfold createSocket_body, setNonBlocking, disableNagle, setSOTimestamp,
      TCPServer.addToEpollList, sys, ASSERT.
    cbn. destruct needs_so_timestamp; reflexivity.
Qed.

End SocketAnswersFacts.

Lemma setNonBlocking_outcomes_witness :
  let os_failing :=
    SocketUtils.mkOS (fun _ _ => -1) [] (fun _ => EmptyString) EmptyString 4 in
  SocketUtils.setNonBlocking os_failing 7 [] = (true, [SocketUtils.Sys_fcntl_getfl 7]) /\
  SocketUtils.setNonBlocking os_failing 7 [SocketUtils.Sys_kqueue]
  = (true, [SocketUtils.Sys_kqueue; SocketUtils.Sys_fcntl_getfl 7]) /\
  (SocketUtils.setNonBlocking os_all_succeed 7 []
   = (true, [SocketUtils.Sys_fcntl_getfl 7; SocketUtils.Sys_fcntl_setfl 7 4]) /\
   Z.land 4 4 = 4 /\ Z.land 4 0 = 0).
Proof.
  intros os_failing. split; [|split].
  - apply (proj1 (setNonBlocking_outcomes os_failing 7 [])). vm_compute. discriminate.
  - apply (proj2 (proj2 (setNonBlocking_outcomes os_failing 7 [SocketUtils.Sys_kqueue]))).
    + reflexivity.
    + vm_compute. discriminate.
  - apply (proj1 (proj2 (setNonBlocking_outcomes os_all_succeed 7 []))). reflexivity.
Defined.

Lemma createSocket_calls_follow_cfg_witness :
  exists lg' tr,
    SocketUtils.createSocket "socket_utils.h" 333 os_all_succeed Logger.create
      listening_cfg [] = Ok (7, lg', tr) /\
    7 <> -1 /\
    exists (rp : SocketUtils.addrinfo) (before made : list SocketUtils.syscall),
      head (SocketUtils.gai_result os_all_succeed) = Some rp /\
      tr = before ++ SocketUtils.Sys_socket (SocketUtils.ai_family rp)
                       (SocketUtils.ai_socktype rp) (SocketUtils.ai_protocol rp) :: made /\
      7 = SocketUtils.sys_ret os_all_succeed before
            (SocketUtils.Sys_socket (SocketUtils.ai_family rp)
               (SocketUtils.ai_socktype rp) (SocketUtils.ai_protocol rp)) /\
      SyscallTrace.calls SyscallTrace.is_getaddrinfo before = 1%nat /\
      SyscallTrace.calls SyscallTrace.is_getaddrinfo made = 0%nat /\
      SyscallTrace.calls SyscallTrace.is_socket before = 0%nat /\
      SyscallTrace.calls SyscallTrace.is_socket made = 0%nat /\
      Forall (fun c => SyscallTrace.descriptor c = Some 7) made /\
      SyscallTrace.calls SyscallTrace.is_nodelay made = 1%nat /\
      SyscallTrace.calls SyscallTrace.is_connect made = 0%nat /\
      SyscallTrace.calls SyscallTrace.is_reuseaddr made = 1%nat /\
      SyscallTrace.calls SyscallTrace.is_listen made = 2%nat /\
      SyscallTrace.calls SyscallTrace.is_timestamp made = 0%nat.
Proof.
  destruct (createSocket_listening_trace "socket_utils.h" 333 Logger.create create_writable)
    as [lg' H].
  exists lg'. eexists. split; [exact H|].
  exact (createSocket_calls_follow_cfg _ _ _ _ _ _ _ _ H).
Defined.

Lemma createSocket_connect_failure_unnoticed_witness :
  let cfg := SocketUtils.mkCfg "10.0.0.1" "lo" 9000 false false false in
  (exists lg' tr,
     SocketUtils.createSocket "socket_utils.h" 333 (SyscallTrace.os_answering (-1) 0)
       Logger.create cfg [] = Ok (7, lg', tr) /\
     last tr = Some (SocketUtils.Sys_connect 7 100 16) /\
     SyscallTrace.calls SyscallTrace.is_connect tr = 1%nat) /\
  SocketUtils.createSocket "socket_utils.h" 333 (SyscallTrace.os_answering 1 0)
    Logger.create cfg [] = Aborted.
Proof.
  intros cfg. split.
  - apply (proj1 (createSocket_connect_failure_unnoticed "socket_utils.h" 333 (-1) 0 cfg
                    Logger.create eq_refl create_writable)).
    lia.
  - apply (proj2 (createSocket_connect_failure_unnoticed "socket_utils.h" 333 1 0 cfg
                    Logger.create eq_refl create_writable)).
    reflexivity.
Defined.

Lemma TCPServer_listen_registration_unchecked_witness :
  let srv := TCPServer.mk 0 0 [] [] in
  (exists srv' lg' tr,
     TCPServer.listen "socket_utils.h" 333 false (SyscallTrace.os_answering 0 (-1))
       Logger.create srv "lo" 8080 [] = Ok (srv', lg', tr) /\
     TCPServer.kqueue_fd_ srv' = 5 /\
     TCPServer.listener_socket_fd_ srv' = 7 /\
     TCPServer.receive_sockets_ srv' = TCPServer.receive_sockets_ srv /\
     TCPServer.send_sockets_ srv' = TCPServer.send_sockets_ srv /\
     last tr = Some (SocketUtils.Sys_kevent_add_read 5 7)) /\
  TCPServer.listen "socket_utils.h" 333 false (SyscallTrace.os_answering 0 1)
    Logger.create srv "lo" 8080 [] = Aborted.
Proof.
  intros srv. split.
  - apply (proj1 (TCPServer_listen_registration_unchecked "socket_utils.h" 333 false 0 (-1)
                    srv Logger.create "lo" 8080 create_writable)).
    lia.
  - apply (proj2 (TCPServer_listen_registration_unchecked "socket_utils.h" 333 false 0 1
                    srv Logger.create "lo" 8080 create_writable)).
    reflexivity.
Defined.

(* ====================================================================== *)
(** * TCPServer::poll *)

Section TCPServerPollFacts.
Import SocketUtils TCPServerPoll.
Variable source_file : string.
Variable os : OS.
Variable listener : TCPServer.socket_ptr.
Variable new_socket : heap -> TCPServer.socket_ptr.

Local Abbreviation receive st := (TCPServer.receive_sockets_ (server st)).
Local Abbreviation sending st := (TCPServer.send_sockets_ (server st)).
Local Abbreviation push_all := (fold_left (fun v s => push_back_if_absent s v)).

Lemma push_back_if_absent_elem (s x : TCPServer.socket_ptr) (v : list TCPServer.socket_ptr) :
  x ∈ push_back_if_absent s v <-> x ∈ v \/ x = s.
Proof.
  unfold push_back_if_absent. destruct (bool_decide_reflect (s ∈ v)) as [Hin|Hout].
  - split; [auto|]. intros [?| ->]; assumption.
  - rewrite elem_of_app, list_elem_of_singleton. tauto.
Qed.

Lemma push_back_if_absent_NoDup (s : TCPServer.socket_ptr) (v : list TCPServer.socket_ptr) :
  NoDup v -> NoDup (push_back_if_absent s v).
Proof.
  intros Hv. unfold push_back_if_absent.
  destruct (bool_decide_reflect (s ∈ v)) as [Hin|Hout]; [exact Hv|].
  apply NoDup_app. split; [exact Hv|]. split.
  - intros x Hx Hs. apply list_elem_of_singleton in Hs. subst x. contradiction.
  - apply NoDup_singleton.
Qed.

Lemma push_back_if_absent_prefix (s : TCPServer.socket_ptr) (v : list TCPServer.socket_ptr) :
  v `prefix_of` push_back_if_absent s v.
Proof.
  unfold push_back_if_absent. destruct (bool_decide (s ∈ v)).
  - reflexivity.
  - apply prefix_app_r. reflexivity.
Qed.

Lemma push_back_if_absent_twice (s : TCPServer.socket_ptr) (v : list TCPServer.socket_ptr) :
  push_back_if_absent s (push_back_if_absent s v) = push_back_if_absent s v.
Proof.
  unfold push_back_if_absent at 1.
  rewrite bool_decide_eq_true_2; [reflexivity|].
  apply push_back_if_absent_elem. auto.
Qed.

Lemma push_all_prefix (ss : list TCPServer.socket_ptr) : forall v, v `prefix_of` push_all ss v.
Proof.
  induction ss as [|s ss IH]; intros v; simpl; [reflexivity|].
  etransitivity; [apply (push_back_if_absent_prefix s)|apply IH].
Qed.

Lemma push_all_NoDup (ss : list TCPServer.socket_ptr) : forall v, NoDup v -> NoDup (push_all ss v).
Proof.
  induction ss as [|s ss IH]; intros v Hv; simpl; [exact Hv|].
  apply IH, push_back_if_absent_NoDup, Hv.
Qed.

Lemma push_all_elem (ss : list TCPServer.socket_ptr) : forall v x,
  x ∈ push_all ss v <-> x ∈ v \/ x ∈ ss.
Proof.
  induction ss as [|s ss IH]; intros v x; simpl.
  - rewrite elem_of_nil. tauto.
  - rewrite IH, push_back_if_absent_elem, elem_of_cons. tauto.
Qed.

(** *** The loop over the events *)

Lemma log_fd_Ok (fmt : string) (line fd : Z) (st st' : state) :
  log_fd source_file os fmt line fd st = Ok st' ->
  exists lg, st' = set_logger st lg.
Proof.
  unfold log_fd. intros H. apply bind_Ok_inv in H as (lg & _ & H).
  injection H as <-. eauto.
Qed.

(** What a returning round of the loop has done to the two lists. *)
Lemma poll_event_Ok (event : kevent_t) (st st' : state) (have have' : bool) :
  poll_event source_file os listener event st have = Ok (st', have') ->
  let continues := is_read (filter event) && (udata event =? listener) in
  receive st'
  = (if (is_read (filter event) || ev_error event) && negb continues
     then push_back_if_absent (udata event) (receive st) else receive st) /\
  sending st'
  = (if is_write (filter event) && negb continues
     then push_back_if_absent (udata event) (sending st) else sending st) /\
  have' = have || continues /\
  TCPServer.kqueue_fd_ (server st') = TCPServer.kqueue_fd_ (server st) /\
  TCPServer.listener_socket_fd_ (server st')
  = TCPServer.listener_socket_fd_ (server st) /\
  socket_fd_ st' = socket_fd_ st /\
  trace st' = trace st.
Proof.
  intros H. cbv zeta. unfold poll_event in H.
  destruct (is_read (filter event) && (udata event =? listener)) eqn:Hc.
  - apply bind_Ok_inv in H as (fd & _ & H).
    apply bind_Ok_inv in H as (st1 & Hl & H). injection H as <- <-.
    apply log_fd_Ok in Hl as (lg & ->).
    rewrite !andb_false_r, orb_true_r. repeat split.
  - rewrite !andb_true_r, orb_false_r.
    apply bind_Ok_inv in H as (st1 & H1 & H).
    apply bind_Ok_inv in H as (st2 & H2 & H).
    apply bind_Ok_inv in H as (st3 & H3 & H). injection H as <- <-.
    assert (E1 : st1 = (if is_read (filter event)
                        then add_receive (udata event) st else st)
                 \/ exists lg, st1 = (if is_read (filter event)
                                      then add_receive (udata event) (set_logger st lg)
                                      else st)).
    { destruct (is_read (filter event)); [right|left; congruence].
      apply bind_Ok_inv in H1 as (fd & _ & H1).
      apply bind_Ok_inv in H1 as (st0 & Hl & H1). injection H1 as <-.
      apply log_fd_Ok in Hl as (lg & ->). eauto. }
    assert (E2 : st2 = (if is_write (filter event)
                        then add_send (udata event) st1 else st1)
                 \/ exists lg, st2 = (if is_write (filter event)
                                      then add_send (udata event) (set_logger st1 lg)
                                      else st1)).
    { destruct (is_write (filter event)); [right|left; congruence].
      apply bind_Ok_inv in H2 as (fd & _ & H2).
      apply bind_Ok_inv in H2 as (st0 & Hl & H2). injection H2 as <-.
      apply log_fd_Ok in Hl as (lg & ->). eauto. }
    assert (E3 : st3 = (if ev_error event
                        then add_receive (udata event) st2 else st2)
                 \/ exists lg, st3 = (if ev_error event
                                      then add_receive (udata event) (set_logger st2 lg)
                                      else st2)).
    { destruct (ev_error event); [right|left; congruence].
      apply bind_Ok_inv in H3 as (fd & _ & H3).
      apply bind_Ok_inv in H3 as (st0 & Hl & H3). injection H3 as <-.
      apply log_fd_Ok in Hl as (lg & ->). eauto. }
    clear H1 H2 H3.
    destruct E1 as [->|(lg1 & ->)], E2 as [->|(lg2 & ->)], E3 as [->|(lg3 & ->)];
      destruct (is_read (filter event)), (is_write (filter event)), (ev_error event);
      cbn [orb andb receive sending server add_receive add_send set_logger
           TCPServer.receive_sockets_ TCPServer.send_sockets_ TCPServer.kqueue_fd_
           TCPServer.listener_socket_fd_ heap_ trace];
      rewrite ?push_back_if_absent_twice; repeat split.
Qed.

Lemma poll_events_Ok (events : list kevent_t) : forall (st st' : state) (have have' : bool),
  poll_events source_file os listener events st have = Ok (st', have') ->
  receive st' = push_all (receive_candidates listener events) (receive st) /\
  sending st' = push_all (send_candidates listener events) (sending st) /\
  have' = have || listener_readable listener events /\
  TCPServer.kqueue_fd_ (server st') = TCPServer.kqueue_fd_ (server st) /\
  TCPServer.listener_socket_fd_ (server st')
  = TCPServer.listener_socket_fd_ (server st) /\
  socket_fd_ st' = socket_fd_ st /\
  trace st' = trace st.
Proof.
  induction events as [|event events IH]; intros st st' have have' H.
  - injection H as <- <-. rewrite orb_false_r. repeat split.
  - cbn [poll_events] in H. apply bind_Ok_inv in H as ([st1 have1] & He & H).
    apply poll_event_Ok in He as (Hr & Hs & Hh & Hk & Hl & Hf & Ht).
    apply IH in H as (Hr' & Hs' & Hh' & Hk' & Hl' & Hf' & Ht').
    unfold receive_candidates, send_candidates, listener_readable in *.
    cbn [List.filter existsb].
    split; [|split; [|split; [|split; [|split; [|split]]]]]; try congruence.
    + rewrite Hr', Hr.
      destruct ((is_read (filter event) || ev_error event)
                && negb (is_read (filter event) && (udata event =? listener)));
        reflexivity.
    + rewrite Hs', Hs.
      destruct (is_write (filter event)
                && negb (is_read (filter event) && (udata event =? listener)));
        reflexivity.
    + rewrite Hh', Hh, orb_assoc. reflexivity.
Qed.

(** *** Accepting connections *)

Lemma accept_loop_nil (st : state) :
  accept_loop source_file os new_socket [] st
  = (lg ← Logger.log "%:% %() % have_new_connection
"
            [ Logger.A_cstr source_file;
              Logger.A_scalar (Logger.S_int 80);
              Logger.A_cstr "poll";
              Logger.A_string (TimeUtils.getCurrentTimeStr (ctime_now os)) ] (logger_ st);
         Ok (set_logger st lg)).
Proof. reflexivity. Qed.

Lemma accept_loop_cons (fd : Z) (accepts : list Z) (st : state) :
  accept_loop source_file os new_socket (fd :: accepts) st
  = (lg ← Logger.log "%:% %() % have_new_connection
"
            [ Logger.A_cstr source_file;
              Logger.A_scalar (Logger.S_int 80);
              Logger.A_cstr "poll";
              Logger.A_string (TimeUtils.getCurrentTimeStr (ctime_now os)) ] (logger_ st);
         let st := set_logger st lg in
         if fd =? -1 then Ok st
         else
           let '(ok, tr) := make_nonblocking_nodelay os fd (trace st) in
           _ ← ASSERT ok;
           let st := {| server := server st; heap_ := heap_ st;
                        logger_ := logger_ st; trace := tr |} in
           st ← log_fd source_file os "%:% %() % accepted socket:%
" 88 fd st;
               let socket := new_socket (heap_ st) in
               let '(r, tr) :=
                 sys os (Sys_kevent_add_read (TCPServer.kqueue_fd_ (server st)) fd)
                   (trace st) in
               _ ← ASSERT (negb (r =? -1));
               let st := {| server := server st;
                            heap_ := (socket, fd) :: heap_ st;
                            logger_ := logger_ st; trace := tr |} in
               accept_loop source_file os new_socket accepts (add_receive socket st)).
Proof. reflexivity. Qed.

Lemma accept_loop_Ok (accepts : list Z) : forall st st' : state,
  accept_loop source_file os new_socket accepts st = Ok st' ->
  exists news,
    receive st' = push_all news (receive st) /\
    sending st' = sending st /\
    TCPServer.kqueue_fd_ (server st') = TCPServer.kqueue_fd_ (server st) /\
    TCPServer.listener_socket_fd_ (server st')
    = TCPServer.listener_socket_fd_ (server st).
Proof.
  induction accepts as [|fd accepts IH]; intros st st' H.
  - rewrite accept_loop_nil in H. apply bind_Ok_inv in H as (lg & _ & H).
    injection H as <-. exists []. repeat split.
  - rewrite accept_loop_cons in H. apply bind_Ok_inv in H as (lg & _ & H).
    cbv zeta in H.
    destruct (fd =? -1); [injection H as <-; exists []; repeat split|].
    destruct (make_nonblocking_nodelay os fd (trace (set_logger st lg))) as [ok tr].
    apply bind_Ok_inv in H as ([] & _ & H).
    apply bind_Ok_inv in H as (st1 & Hl & H).
    apply log_fd_Ok in Hl as (lg1 & ->).
    unfold sys in H. apply bind_Ok_inv in H as ([] & _ & H).
    apply IH in H as (news & Hr & Hs & Hk & Hf).
    cbn [add_receive set_logger server TCPServer.receive_sockets_
         TCPServer.send_sockets_ TCPServer.kqueue_fd_ TCPServer.listener_socket_fd_
         heap_] in Hr, Hs, Hk, Hf.
    exists (new_socket (heap_ st) :: news). cbn [fold_left].
    split; [exact Hr|]. split; [exact Hs|]. split; [exact Hk | exact Hf].
Qed.

(** X16. [poll] only ever appends to the two socket lists and never
    appends a socket that is already there: when it returns, the old
    lists are prefixes of the new ones, a list without duplicates is
    still without duplicates, the kernel queue and listener descriptors
    are unchanged, every socket added to [send_sockets_] is the one
    named by a write event among the events waiting, and when [kevent]
    fails nothing changes at all. *)
Theorem TCPServer_poll_lists_grow (ready : option (list kevent_t)) (accepts : list Z)
    (st st' : state) :
  poll source_file os listener new_socket ready accepts st = Ok st' ->
  receive st `prefix_of` receive st' /\
  sending st `prefix_of` sending st' /\
  (NoDup (receive st) -> NoDup (receive st')) /\
  (NoDup (sending st) -> NoDup (sending st')) /\
  TCPServer.kqueue_fd_ (server st') = TCPServer.kqueue_fd_ (server st) /\
  TCPServer.listener_socket_fd_ (server st')
  = TCPServer.listener_socket_fd_ (server st) /\
  (forall p, p ∈ sending st' -> p ∈ sending st \/
     exists e, e ∈ default [] ready /\ filter e = EVFILT_WRITE /\ udata e = p) /\
  (ready = None -> st' = st).
Proof.
  unfold poll. intros H. destruct ready as [waiting|].
  2: { injection H as <-. repeat split; auto; reflexivity. }
  destruct (1024 <? _) in H; [discriminate|].
  apply bind_Ok_inv in H as ([st1 have] & He & H).
  apply poll_events_Ok in He as (Hr & Hs & _ & Hk & Hl & _ & _).
  assert (Ha : exists news,
             receive st' = push_all news (receive st1) /\ sending st' = sending st1 /\
             TCPServer.kqueue_fd_ (server st') = TCPServer.kqueue_fd_ (server st1) /\
             TCPServer.listener_socket_fd_ (server st')
             = TCPServer.listener_socket_fd_ (server st1)).
  { destruct have; [exact (accept_loop_Ok _ _ _ H)|].
    injection H as <-. exists []. repeat split. }
  destruct Ha as (news & Hr' & Hs' & Hk' & Hl').
  rewrite Hr', Hs', Hr, Hs, Hk', Hl', Hk, Hl.
  split; [etransitivity; apply push_all_prefix|]. split; [apply push_all_prefix|].
  split; [intros Hn; apply push_all_NoDup, push_all_NoDup, Hn|].
  split; [apply push_all_NoDup|]. split; [reflexivity|]. split; [reflexivity|].
  split; [|discriminate].
  intros p Hp. apply push_all_elem in Hp as [Hp|Hp]; [left; exact Hp|right].
  unfold send_candidates in Hp. apply list_elem_of_fmap in Hp as (e & -> & He).
  apply list_elem_of_In, filter_In in He as [He Hw].
  apply andb_true_iff in Hw as [Hw _].
  exists e. cbn [default]. split; [|split; [|reflexivity]].
  - apply list_elem_of_In in He. exact (subseteq_take _ _ _ He).
  - destruct (filter e); try discriminate. reflexivity.
Qed.

(** *** When the calls return *)

Lemma deref_fd_known (st : state) (socket : TCPServer.socket_ptr) :
  socket_known listener st socket -> exists fd, deref_fd listener st socket = Ok fd.
Proof.
  unfold deref_fd. intros [->|Hk].
  - rewrite Z.eqb_refl. eauto.
  - destruct (socket =? listener); [eauto|].
    destruct (socket_fd_ st socket) as [fd|]; [eauto | contradiction].
Qed.

Lemma deref_fd_same (st st1 : state) (socket : TCPServer.socket_ptr) :
  socket_fd_ st1 = socket_fd_ st ->
  TCPServer.listener_socket_fd_ (server st1) = TCPServer.listener_socket_fd_ (server st) ->
  deref_fd listener st1 socket = deref_fd listener st socket.
Proof. unfold deref_fd. intros -> ->. reflexivity. Qed.

Lemma log_fd_returns (fmt : string) (line fd : Z) (st : state) :
  Logger.spec_placeholders (Logger.c_str fmt) = 5%nat ->
  LFQueue_writable (Logger.queue_ (logger_ st)) ->
  exists lg, log_fd source_file os fmt line fd st = Ok (set_logger st lg) /\
             LFQueue_writable (Logger.queue_ lg).
Proof.
  intros Hfmt Hw. unfold log_fd.
  match goal with |- context [Logger.log fmt ?a (logger_ st)] =>
    destruct (proj1 (log_outcome fmt a (logger_ st) Hw) Hfmt) as (lg & Hl & Hw');
    rewrite Hl
  end.
  exists lg. split; [reflexivity | exact Hw'].
Qed.

(** One logged step of the loop: the descriptor is read through the
    pointer, the line is logged, and [k] goes on. *)
Lemma logged_step {B : Type} (fmt : string) (line : Z) (socket : TCPServer.socket_ptr)
    (st : state) (k : state -> outcome B) :
  Logger.spec_placeholders (Logger.c_str fmt) = 5%nat ->
  LFQueue_writable (Logger.queue_ (logger_ st)) ->
  socket_known listener st socket ->
  exists lg,
    (fd ← deref_fd listener st socket;
     st1 ← log_fd source_file os fmt line fd st;
     k st1) = k (set_logger st lg) /\
    LFQueue_writable (Logger.queue_ lg).
Proof.
  intros Hfmt Hw Hk. destruct (deref_fd_known st socket Hk) as (fd & Hfd).
  destruct (log_fd_returns fmt line fd st Hfmt Hw) as (lg & Hl & Hw').
  exists lg. rewrite Hfd, bind_Ok_l, Hl, bind_Ok_l. split; [reflexivity | exact Hw'].
Qed.

Lemma socket_known_same (st st1 : state) (socket : TCPServer.socket_ptr) :
  socket_fd_ st1 = socket_fd_ st ->
  socket_known listener st socket -> socket_known listener st1 socket.
Proof. unfold socket_known. intros ->. auto. Qed.

Lemma poll_event_returns (event : kevent_t) (st : state) (have : bool) :
  LFQueue_writable (Logger.queue_ (logger_ st)) ->
  socket_known listener st (udata event) ->
  exists st' have',
    poll_event source_file os listener event st have = Ok (st', have') /\
    LFQueue_writable (Logger.queue_ (logger_ st')).
Proof.
  intros Hw Hk. unfold poll_event.
  destruct (is_read (filter event) && (udata event =? listener)).
  - destruct (logged_step "%:% %() % EVFILT_READ listener_socket:%
" 47 (udata event) st (fun st1 => Ok (st1, true)) eq_refl Hw Hk) as (lg & E & Hw').
    rewrite E. eexists _, _. split; [reflexivity | exact Hw'].
  - assert (H1 : exists st1,
               (if is_read (filter event)
                then fd ← deref_fd listener st (udata event);
                     st0 ← log_fd source_file os "%:% %() % EVFILT_READ socket:%
" 53 fd st;
                         Ok (add_receive (udata event) st0)
                else Ok st) = Ok st1 /\
               LFQueue_writable (Logger.queue_ (logger_ st1)) /\
               socket_fd_ st1 = socket_fd_ st).
    { destruct (is_read (filter event)); [|eauto].
      destruct (logged_step "%:% %() % EVFILT_READ socket:%
" 53 (udata event) st (fun st0 => Ok (add_receive (udata event) st0)) eq_refl Hw Hk)
        as (lg & E & Hw').
      rewrite E. eexists. split; [reflexivity|]. split; [exact Hw' | reflexivity]. }
    destruct H1 as (st1 & E1 & Hw1 & Hf1). rewrite E1, bind_Ok_l.
    pose proof (socket_known_same st st1 _ Hf1 Hk) as Hk1.
    assert (H2 : exists st2,
               (if is_write (filter event)
                then fd ← deref_fd listener st1 (udata event);
                     st0 ← log_fd source_file os "%:% %() % EVFILT_WRITE socket:%
" 62 fd st1;
                         Ok (add_send (udata event) st0)
                else Ok st1) = Ok st2 /\
               LFQueue_writable (Logger.queue_ (logger_ st2)) /\
               socket_fd_ st2 = socket_fd_ st1).
    { destruct (is_write (filter event)); [|eauto].
      destruct (logged_step "%:% %() % EVFILT_WRITE socket:%
" 62 (udata event) st1 (fun st0 => Ok (add_send (udata event) st0)) eq_refl Hw1 Hk1)
        as (lg & E & Hw').
      rewrite E. eexists. split; [reflexivity|]. split; [exact Hw' | reflexivity]. }
    destruct H2 as (st2 & E2 & Hw2 & Hf2). rewrite E2, bind_Ok_l.
    pose proof (socket_known_same st1 st2 _ Hf2 Hk1) as Hk2.
    assert (H3 : exists st3,
               (if ev_error event
                then fd ← deref_fd listener st2 (udata event);
                     st0 ← log_fd source_file os "%:% %() % EV_ERROR socket:%
" 71 fd st2;
                         Ok (add_receive (udata event) st0)
                else Ok st2) = Ok st3 /\
               LFQueue_writable (Logger.queue_ (logger_ st3))).
    { destruct (ev_error event); [|eauto].
      destruct (logged_step "%:% %() % EV_ERROR socket:%
" 71 (udata event) st2 (fun st0 => Ok (add_receive (udata event) st0)) eq_refl Hw2 Hk2)
        as (lg & E & Hw').
      rewrite E. eexists. split; [reflexivity | exact Hw']. }
    destruct H3 as (st3 & E3 & Hw3). rewrite E3, bind_Ok_l.
    eexists _, _. split; [reflexivity | exact Hw3].
Qed.

Lemma poll_events_returns (events : list kevent_t) : forall (st : state) (have : bool),
  LFQueue_writable (Logger.queue_ (logger_ st)) ->
  Forall (fun e => socket_known listener st (udata e)) events ->
  exists st' have',
    poll_events source_file os listener events st have = Ok (st', have') /\
    LFQueue_writable (Logger.queue_ (logger_ st')).
Proof.
  induction events as [|event events IH]; intros st have Hw Hk.
  - exists st, have. split; [reflexivity | exact Hw].
  - inversion Hk as [|? ? Hk1 Hk2]; subst.
    destruct (poll_event_returns event st have Hw Hk1) as (st1 & have1 & E1 & Hw1).
    pose proof (poll_event_Ok _ _ _ _ _ E1) as (_ & _ & _ & _ & _ & Hf & _).
    destruct (IH st1 have1 Hw1) as (st' & have' & E & Hw').
    { eapply Forall_impl; [exact Hk2|]. intros e He.
      exact (socket_known_same st st1 _ Hf He). }
    exists st', have'. split; [|exact Hw'].
    cbn [poll_events]. rewrite E1, bind_Ok_l. exact E.
Qed.

(** X17. Events are dispatched by filter and flag. When the logger can
    be written to, the sockets the delivered events name exist, at most
    1024 events are delivered and none is a read event on the listener,
    [poll] returns without any system call made through the socket
    utilities and without accepting: the socket of each read event and
    of each event flagged [EV_ERROR] is appended to [receive_sockets_]
    unless already there, the socket of each write event to
    [send_sockets_] unless already there, in the order of the events;
    events beyond the first [1 + send_sockets_.size() +
    receive_sockets_.size()] waiting are left alone. *)
Theorem TCPServer_poll_dispatches_events (waiting : list kevent_t) (accepts : list Z)
    (st : state) :
  let events :=
    take (Z.to_nat (1 + Z.of_nat (length (sending st)) + Z.of_nat (length (receive st))))
      waiting in
  LFQueue_writable (Logger.queue_ (logger_ st)) ->
  Forall (fun e => socket_known listener st (udata e)) events ->
  Z.of_nat (length events) <= 1024 ->
  listener_readable listener events = false ->
  exists st',
    poll source_file os listener new_socket (Some waiting) accepts st = Ok st' /\
    receive st' = push_all (receive_candidates listener events) (receive st) /\
    sending st' = push_all (send_candidates listener events) (sending st) /\
    socket_fd_ st' = socket_fd_ st /\
    trace st' = trace st.
Proof.
  intros events Hw Hk Hn Hl. unfold poll. cbv zeta.
  change (take _ waiting) with events.
  destruct (Z.ltb_spec 1024 (Z.of_nat (length events))) as [?|_]; [lia|].
  destruct (poll_events_returns events st false Hw Hk) as (st1 & have1 & E & Hw1).
  rewrite E, bind_Ok_l.
  apply poll_events_Ok in E as (Hr & Hs & Hh & _ & _ & Hf & Ht).
  rewrite Hl in Hh. cbn [orb] in Hh. subst have1.
  exists st1. split; [reflexivity|]. auto.
Qed.

(** *** Accepting connections, when the calls succeed *)

Lemma make_nonblocking_nodelay_trace (fd : Z) (tr : list syscall) :
  exists made, snd (make_nonblocking_nodelay os fd tr) = tr ++ made /\
               List.filter SyscallTrace.is_kevent_add made = [].
Proof.
  unfold make_nonblocking_nodelay, setNonBlocking, disableNagle, sys.
  destruct (negb (Z.land _ _ =? 0)); cbn [fst snd].
  - eexists. rewrite <- app_assoc. split; reflexivity.
  - destruct (negb (_ =? -1)); cbn [fst snd]; eexists;
      repeat rewrite <- app_assoc; split; reflexivity.
Qed.

Section Accepting.
(** [new] returns the address of no socket made before, and not the
    address of the listener, a member of the server. *)
Hypothesis new_socket_fresh :
  forall h, heap_lookup h (new_socket h) = None /\ new_socket h <> listener.
(** The accepted descriptors can be made non-blocking and no-delay, and
    registered. *)
Hypothesis nonblocking_nodelay_succeed :
  forall fd tr, fst (make_nonblocking_nodelay os fd tr) = true.
Hypothesis registration_succeeds :
  forall tr kq fd, sys_ret os tr (Sys_kevent_add_read kq fd) <> -1.

Lemma accept_loop_returns (fds : list Z) : forall st : state,
  LFQueue_writable (Logger.queue_ (logger_ st)) ->
  Forall (socket_known listener st) (receive st) ->
  Forall (fun fd => fd <> -1) fds ->
  exists st' news,
    accept_loop source_file os new_socket fds st = Ok st' /\
    receive st' = receive st ++ news /\
    sending st' = sending st /\
    NoDup news /\
    (forall p, p ∈ news -> socket_fd_ st p = None /\ p <> listener) /\
    (forall p, socket_fd_ st p <> None -> socket_fd_ st' p = socket_fd_ st p) /\
    Forall2 (fun p fd => socket_fd_ st' p = Some fd) news fds /\
    List.filter SyscallTrace.is_kevent_add (trace st')
    = List.filter SyscallTrace.is_kevent_add (trace st)
      ++ map (Sys_kevent_add_read (TCPServer.kqueue_fd_ (server st))) fds.
Proof.
  induction fds as [|fd fds IH]; intros st Hw Hk Hfds.
  - rewrite accept_loop_nil.
    match goal with |- context [Logger.log ?f ?a (logger_ st)] =>
      destruct (proj1 (log_outcome f a (logger_ st) Hw) eq_refl) as (lg & Hl & Hw');
      rewrite Hl
    end.
    rewrite bind_Ok_l.
    exists (set_logger st lg), []. cbn [set_logger receive sending server heap_ trace map].
    rewrite !app_nil_r. split; [reflexivity|]. split; [reflexivity|].
    split; [reflexivity|]. split; [constructor|].
    split; [intros p Hp; apply elem_of_nil in Hp; contradiction|].
    split; [reflexivity|]. split; [constructor | reflexivity].
  - inversion Hfds as [|? ? Hfd Hfds']; subst.
    rewrite accept_loop_cons.
    match goal with |- context [Logger.log ?f ?a (logger_ st)] =>
      destruct (proj1 (log_outcome f a (logger_ st) Hw) eq_refl) as (lg & Hl & Hw');
      rewrite Hl
    end.
    rewrite bind_Ok_l. cbv zeta.
    destruct (Z.eqb_spec fd (-1)) as [?|_]; [contradiction|].
    cbn [set_logger trace server heap_ logger_].
    pose proof (nonblocking_nodelay_succeed fd (trace st)) as Hok.
    destruct (make_nonblocking_nodelay_trace fd (trace st)) as (made & Htr & Hmade).
    destruct (make_nonblocking_nodelay os fd (trace st)) as [ok tr].
    cbn [fst snd] in Hok, Htr. subst ok tr. cbn [ASSERT]. rewrite bind_Ok_l.
    match goal with |- context [log_fd source_file os ?f ?l fd ?s] =>
      destruct (log_fd_returns f l fd s eq_refl Hw') as (lg1 & Hl1 & Hw1); rewrite Hl1
    end.
    rewrite bind_Ok_l. cbn [set_logger trace server heap_ logger_ sys].
    destruct (Z.eqb_spec (sys_ret os (trace st ++ made)
                (Sys_kevent_add_read (TCPServer.kqueue_fd_ (server st)) fd)) (-1))
      as [Hbad|_]; [exfalso; exact (registration_succeeds _ _ _ Hbad)|].
    cbn [negb ASSERT]. rewrite bind_Ok_l.
    destruct (new_socket_fresh (heap_ st)) as [Hnone Hnl].
    change (heap_lookup (heap_ st) (new_socket (heap_ st)))
      with (socket_fd_ st (new_socket (heap_ st))) in Hnone.
    set (socket := new_socket (heap_ st)) in *.
    set (st2 := add_receive socket _).
    assert (Hpush : receive st2 = receive st ++ [socket]).
    { subst st2. cbn [add_receive server TCPServer.receive_sockets_].
      unfold push_back_if_absent. rewrite bool_decide_eq_false_2; [reflexivity|].
      intros Hin. rewrite Forall_forall in Hk. destruct (Hk _ Hin) as [?|Hsome];
        [contradiction | apply Hsome; exact Hnone]. }
    assert (Hheap : forall p, socket_fd_ st2 p
                              = if p =? socket then Some fd else socket_fd_ st p)
      by reflexivity.
    destruct (IH st2) as (st' & news & E & Hr & Hs & Hnd & Hnew & Hkeep & Hfds2 & Htrace).
    { exact Hw1. }
    { rewrite Hpush. apply Forall_app. split.
      - eapply Forall_impl; [exact Hk|]. intros p [->|Hp]; [left; reflexivity|].
        right. rewrite Hheap. destruct (p =? socket); [discriminate | exact Hp].
      - constructor; [|constructor]. right. rewrite Hheap, Z.eqb_refl. discriminate. }
    { exact Hfds'. }
    exists st', (socket :: news). split; [exact E|].
    split; [rewrite Hr, Hpush, <- app_assoc; reflexivity|].
    split; [rewrite Hs; reflexivity|].
    assert (Hsock : socket_fd_ st2 socket = Some fd) by (rewrite Hheap, Z.eqb_refl; reflexivity).
    split; [|split; [|split; [|split]]].
    + constructor; [|exact Hnd]. intros Hin. destruct (Hnew _ Hin) as [Hn _]. congruence.
    + intros p Hp. apply elem_of_cons in Hp as [->|Hp]; [auto|].
      destruct (Hnew _ Hp) as [Hn Hl']. split; [|exact Hl'].
      rewrite Hheap in Hn. destruct (p =? socket); [discriminate | exact Hn].
    + intros p Hp. rewrite Hkeep; rewrite Hheap;
        (destruct (Z.eqb_spec p socket) as [->|_]; [contradiction | auto]).
    + constructor; [|exact Hfds2]. rewrite Hkeep; [exact Hsock | congruence].
    + rewrite Htrace. subst st2.
      cbn [add_receive trace server TCPServer.kqueue_fd_ map].
      rewrite !List.filter_app, Hmade. cbn [List.filter SyscallTrace.is_kevent_add].
      rewrite app_nil_r, <- app_assoc. reflexivity.
Qed.

(** X18. Accepting connections. When a read event on the listener is
    among the events delivered, the logger can be written to, the
    sockets of the lists and of the events exist and the system calls
    succeed, [poll] returns after accepting every connection waiting:
    each accepted descriptor gets a socket of its own, new and distinct
    from the others, that holds the descriptor; these sockets are
    appended to [receive_sockets_] in the order of acceptance, after
    the sockets the events added; each descriptor is registered with
    the kernel queue for reading, in the same order; and
    [send_sockets_] gets the sockets of the write events only. *)
Theorem TCPServer_poll_accepts (waiting : list kevent_t) (fds : list Z) (st : state) :
  let events :=
    take (Z.to_nat (1 + Z.of_nat (length (sending st)) + Z.of_nat (length (receive st))))
      waiting in
  LFQueue_writable (Logger.queue_ (logger_ st)) ->
  Forall (socket_known listener st) (receive st) ->
  Forall (fun e => socket_known listener st (udata e)) events ->
  Z.of_nat (length events) <= 1024 ->
  listener_readable listener events = true ->
  Forall (fun fd => fd <> -1) fds ->
  exists st' news,
    poll source_file os listener new_socket (Some waiting) fds st = Ok st' /\
    receive st'
    = push_all (receive_candidates listener events) (receive st) ++ news /\
    sending st' = push_all (send_candidates listener events) (sending st) /\
    NoDup news /\
    (forall p, p ∈ news -> ~ (p ∈ receive st) /\ p <> listener /\ socket_fd_ st p = None) /\
    Forall2 (fun p fd => socket_fd_ st' p = Some fd) news fds /\
    (forall p, socket_fd_ st p <> None -> socket_fd_ st' p = socket_fd_ st p) /\
    List.filter SyscallTrace.is_kevent_add (trace st')
    = List.filter SyscallTrace.is_kevent_add (trace st)
      ++ map (Sys_kevent_add_read (TCPServer.kqueue_fd_ (server st))) fds.
Proof.
  intros events Hw Hkr Hk Hn Hl Hfds. unfold poll. cbv zeta.
  change (take _ waiting) with events.
  destruct (Z.ltb_spec 1024 (Z.of_nat (length events))) as [?|_]; [lia|].
  destruct (poll_events_returns events st false Hw Hk) as (st1 & have1 & E & Hw1).
  rewrite E, bind_Ok_l.
  apply poll_events_Ok in E as (Hr & Hs & Hh & Hkq & _ & Hf & Ht).
  rewrite Hl in Hh. cbn [orb] in Hh. subst have1.
  destruct (accept_loop_returns fds st1 Hw1) as
    (st' & news & E' & Hr' & Hs' & Hnd & Hnew & Hkeep & Hfds' & Htrace).
  { rewrite Hr. apply Forall_forall. intros p Hp.
    apply push_all_elem in Hp as [Hp|Hp].
    - rewrite Forall_forall in Hkr. apply (socket_known_same st st1 _ Hf), Hkr, Hp.
    - unfold receive_candidates in Hp. apply list_elem_of_fmap in Hp as (e & -> & He).
      apply list_elem_of_In, filter_In in He as [He _]. apply list_elem_of_In in He.
      rewrite Forall_forall in Hk. apply (socket_known_same st st1 _ Hf), Hk, He. }
  { exact Hfds. }
  exists st', news. split; [exact E'|]. rewrite Hf, Ht, Hkq in *.
  split; [rewrite Hr', Hr; reflexivity|]. split; [rewrite Hs', Hs; reflexivity|].
  split; [exact Hnd|]. split; [|split; [exact Hfds'|split; [exact Hkeep | exact Htrace]]].
  intros p Hp. destruct (Hnew _ Hp) as [Hnone Hnl].
  split; [|split; [exact Hnl | exact Hnone]].
  intros Hin. rewrite Forall_forall in Hkr.
  destruct (Hkr _ Hin) as [?|Hsome]; [contradiction | apply Hsome; exact Hnone].
Qed.

End Accepting.

End TCPServerPollFacts.

Lemma fresh_socket_fresh (listener : TCPServer.socket_ptr) (h : TCPServerPoll.heap) :
  TCPServerPoll.heap_lookup h (fresh_socket listener h) = None /\
  fresh_socket listener h <> listener.
Proof.
  unfold fresh_socket.
  assert (Hl : listener <= fold_right Z.max listener (map fst h)).
  { induction h as [|[p fd] h IH]; simpl; lia. }
  split; [|lia].
  assert (Hgen : forall q, fold_right Z.max listener (map fst h) < q ->
                           TCPServerPoll.heap_lookup h q = None).
  { induction h as [|[p fd] h IH]; intros q Hq; [reflexivity|].
    simpl in Hq, Hl |- *.
    destruct (Z.eqb_spec q p) as [->|_]; [lia|].
    apply IH; [|lia].
    clear. induction h as [|[p' fd'] h IH]; simpl; lia. }
  apply Hgen. lia.
Qed.

Lemma TCPServer_poll_lists_grow_witness :
  let st := TCPServerPoll.mkState (TCPServer.mk 5 7 [3] []) [(3, 9)] Logger.create [] in
  let ready := Some [TCPServerPoll.mkEvent TCPServerPoll.EVFILT_WRITE false 3;
                     TCPServerPoll.mkEvent TCPServerPoll.EVFILT_other true 3] in
  exists st',
    TCPServerPoll.poll "tcp_server.cpp" os_all_succeed 1 (fresh_socket 1) ready [] st
    = Ok st' /\
    TCPServer.receive_sockets_ (TCPServerPoll.server st)
      `prefix_of` TCPServer.receive_sockets_ (TCPServerPoll.server st') /\
    TCPServer.send_sockets_ (TCPServerPoll.server st)
      `prefix_of` TCPServer.send_sockets_ (TCPServerPoll.server st') /\
    (NoDup (TCPServer.receive_sockets_ (TCPServerPoll.server st)) ->
     NoDup (TCPServer.receive_sockets_ (TCPServerPoll.server st'))) /\
    (NoDup (TCPServer.send_sockets_ (TCPServerPoll.server st)) ->
     NoDup (TCPServer.send_sockets_ (TCPServerPoll.server st'))) /\
    TCPServer.kqueue_fd_ (TCPServerPoll.server st')
    = TCPServer.kqueue_fd_ (TCPServerPoll.server st) /\
    TCPServer.listener_socket_fd_ (TCPServerPoll.server st')
    = TCPServer.listener_socket_fd_ (TCPServerPoll.server st) /\
    (forall p, p ∈ TCPServer.send_sockets_ (TCPServerPoll.server st') ->
       p ∈ TCPServer.send_sockets_ (TCPServerPoll.server st) \/
       exists e, e ∈ default [] ready /\
                 TCPServerPoll.filter e = TCPServerPoll.EVFILT_WRITE /\
                 TCPServerPoll.udata e = p) /\
    (ready = None -> st' = st).
Proof.
  generalize create_writable. generalize Logger.create. intros lg Hw st ready.
  destruct (poll_events_returns "tcp_server.cpp" os_all_succeed 1
              [TCPServerPoll.mkEvent TCPServerPoll.EVFILT_WRITE false 3;
               TCPServerPoll.mkEvent TCPServerPoll.EVFILT_other true 3] st false Hw)
    as (st1 & have1 & E & _).
  { repeat (constructor; [right; cbv; discriminate|]). constructor. }
  pose proof (poll_events_Ok _ _ _ _ _ _ _ _ E) as (_ & _ & Hh & _).
  cbn in Hh. subst have1.
  assert (H : TCPServerPoll.poll "tcp_server.cpp" os_all_succeed 1 (fresh_socket 1)
                ready [] st = Ok st1).
  { unfold TCPServerPoll.poll, ready. cbn [TCPServerPoll.server st
      TCPServer.send_sockets_ TCPServer.receive_sockets_ length].
    change (take _ _) with [TCPServerPoll.mkEvent TCPServerPoll.EVFILT_WRITE false 3;
                            TCPServerPoll.mkEvent TCPServerPoll.EVFILT_other true 3].
    cbn [length Z.of_nat Z.ltb Z.compare Pos.of_succ_nat Pos.succ Pos.compare
         Pos.compare_cont].
    rewrite E. reflexivity. }
  exists st1. split; [exact H|].
  exact (TCPServer_poll_lists_grow "tcp_server.cpp" os_all_succeed 1 (fresh_socket 1)
           ready [] st st1 H).
Defined.

Lemma TCPServer_poll_dispatches_events_witness :
  let st := TCPServerPoll.mkState (TCPServer.mk 5 7 [3] []) [(3, 9); (4, 10)]
              Logger.create [] in
  let waiting := [TCPServerPoll.mkEvent TCPServerPoll.EVFILT_WRITE false 3;
                  TCPServerPoll.mkEvent TCPServerPoll.EVFILT_other true 4;
                  TCPServerPoll.mkEvent TCPServerPoll.EVFILT_READ false 4] in
  let events :=
    take (Z.to_nat (1 + Z.of_nat (length (TCPServer.send_sockets_ (TCPServerPoll.server st)))
                    + Z.of_nat (length (TCPServer.receive_sockets_
                                          (TCPServerPoll.server st)))))
      waiting in
  exists st',
    TCPServerPoll.poll "tcp_server.cpp" os_all_succeed 1 (fresh_socket 1)
      (Some waiting) [8] st = Ok st' /\
    TCPServer.receive_sockets_ (TCPServerPoll.server st')
    = fold_left (fun v s => TCPServerPoll.push_back_if_absent s v)
        (TCPServerPoll.receive_candidates 1 events)
        (TCPServer.receive_sockets_ (TCPServerPoll.server st)) /\
    TCPServer.send_sockets_ (TCPServerPoll.server st')
    = fold_left (fun v s => TCPServerPoll.push_back_if_absent s v)
        (TCPServerPoll.send_candidates 1 events)
        (TCPServer.send_sockets_ (TCPServerPoll.server st)) /\
    TCPServerPoll.socket_fd_ st' = TCPServerPoll.socket_fd_ st /\
    TCPServerPoll.trace st' = TCPServerPoll.trace st.
Proof.
  generalize create_writable. generalize Logger.create. intros lg Hw st waiting.
  apply (TCPServer_poll_dispatches_events "tcp_server.cpp" os_all_succeed 1
           (fresh_socket 1) waiting [8] st).
  - exact Hw.
  - repeat (constructor; [right; cbv; discriminate|]). constructor.
  - simpl. lia.
  - reflexivity.
Defined.

Lemma TCPServer_poll_accepts_witness :
  let st := TCPServerPoll.mkState (TCPServer.mk 5 7 [3] []) [(3, 9)] Logger.create [] in
  let waiting := [TCPServerPoll.mkEvent TCPServerPoll.EVFILT_READ false 1;
                  TCPServerPoll.mkEvent TCPServerPoll.EVFILT_WRITE false 3] in
  let events :=
    take (Z.to_nat (1 + Z.of_nat (length (TCPServer.send_sockets_ (TCPServerPoll.server st)))
                    + Z.of_nat (length (TCPServer.receive_sockets_
                                          (TCPServerPoll.server st)))))
      waiting in
  exists st' news,
    TCPServerPoll.poll "tcp_server.cpp" os_all_succeed 1 (fresh_socket 1)
      (Some waiting) [8; 11] st = Ok st' /\
    TCPServer.receive_sockets_ (TCPServerPoll.server st')
    = fold_left (fun v s => TCPServerPoll.push_back_if_absent s v)
        (TCPServerPoll.receive_candidates 1 events)
        (TCPServer.receive_sockets_ (TCPServerPoll.server st)) ++ news /\
    TCPServer.send_sockets_ (TCPServerPoll.server st')
    = fold_left (fun v s => TCPServerPoll.push_back_if_absent s v)
        (TCPServerPoll.send_candidates 1 events)
        (TCPServer.send_sockets_ (TCPServerPoll.server st)) /\
    NoDup news /\
    (forall p, p ∈ news ->
       ~ (p ∈ TCPServer.receive_sockets_ (TCPServerPoll.server st)) /\ p <> 1 /\
       TCPServerPoll.socket_fd_ st p = None) /\
    Forall2 (fun p fd => TCPServerPoll.socket_fd_ st' p = Some fd) news [8; 11] /\
    (forall p, TCPServerPoll.socket_fd_ st p <> None ->
       TCPServerPoll.socket_fd_ st' p = TCPServerPoll.socket_fd_ st p) /\
    List.filter SyscallTrace.is_kevent_add (TCPServerPoll.trace st')
    = List.filter SyscallTrace.is_kevent_add (TCPServerPoll.trace st)
      ++ map (SocketUtils.Sys_kevent_add_read
                (TCPServer.kqueue_fd_ (TCPServerPoll.server st))) [8; 11].
Proof.
  generalize create_writable. generalize Logger.create. intros lg Hw st waiting.
  assert (Hreg : forall (tr : list SocketUtils.syscall) (kq fd : Z),
             SocketUtils.sys_ret os_all_succeed tr (SocketUtils.Sys_kevent_add_read kq fd)
             <> -1) by (intros tr kq fd; simpl; lia).
  apply (TCPServer_poll_accepts "tcp_server.cpp" os_all_succeed 1 (fresh_socket 1)
           (fresh_socket_fresh 1) (fun fd tr => eq_refl) Hreg waiting [8; 11] st).
  - exact Hw.
  - repeat (constructor; [right; cbv; discriminate|]). constructor.
  - constructor; [left; reflexivity|].
    constructor; [right; cbv; discriminate | constructor].
  - simpl. lia.
  - reflexivity.
  - repeat constructor; lia.
Defined.

(* ====================================================================== *)
(** * The buffers of the multicast socket *)

Section McastSocketUseFacts.
Import McastSocket McastSocketUse.
Variable source_file : string.

Lemma store_bytes_prefix (buf src : list Byte.byte) (at_ : Z) :
  0 <= at_ <= Z.of_nat (length buf) ->
  take (Z.to_nat (at_ + Z.of_nat (length src))) (store_bytes buf at_ src)
  = take (Z.to_nat at_) buf ++ src.
Proof.
  intros Hat. unfold store_bytes. rewrite app_assoc.
  apply take_app_length'. rewrite length_app, length_take. lia.
Qed.

Lemma store_bytes_length (buf src : list Byte.byte) (at_ : Z) :
  0 <= at_ -> at_ + Z.of_nat (length src) <= Z.of_nat (length buf) ->
  length (store_bytes buf at_ src) = length buf.
Proof.
  intros Hat Hfit. unfold store_bytes.
  rewrite !length_app, length_take, length_drop. lia.
Qed.

Lemma send_whole (s : McastSocket.t) (d : list Byte.byte) :
  0 <= next_send_valid_index_ s ->
  Z.of_nat (length (outbound_data_ s)) = McastBufferSize ->
  next_send_valid_index_ s + Z.of_nat (length d) < McastBufferSize ->
  exists s',
    send s d (Z.of_nat (length d)) = Ok s' /\
    next_send_valid_index_ s' = next_send_valid_index_ s + Z.of_nat (length d) /\
    Z.of_nat (length (outbound_data_ s')) = McastBufferSize /\
    outbound_pending s' = outbound_pending s ++ d /\
    inbound_data_ s' = inbound_data_ s /\
    next_rcv_valid_index_ s' = next_rcv_valid_index_ s /\
    socket_fd_ s' = socket_fd_ s.
Proof.
  intros Hidx Hbuf Hfit.
  rewrite (send_in_bounds s d (Z.of_nat (length d)) Hidx Hbuf) by lia.
  destruct (Z.ltb_spec (next_send_valid_index_ s + Z.of_nat (length d)) McastBufferSize)
    as [_|?]; [|lia].
  eexists. split; [reflexivity|].
  unfold outbound_pending.
  cbn [next_send_valid_index_ outbound_data_ inbound_data_ next_rcv_valid_index_ socket_fd_].
  rewrite Nat2Z.id, firstn_all.
  split; [reflexivity|]. split; [|split; [|repeat split]].
  - rewrite store_bytes_length by lia. exact Hbuf.
  - apply store_bytes_prefix. lia.
Qed.

Lemma send_Ok_inv (s s' : McastSocket.t) (d : list Byte.byte) :
  0 <= next_send_valid_index_ s ->
  Z.of_nat (length (outbound_data_ s)) = McastBufferSize ->
  send s d (Z.of_nat (length d)) = Ok s' ->
  next_send_valid_index_ s + Z.of_nat (length d) < McastBufferSize.
Proof.
  intros Hidx Hbuf H. pose proof McastBufferSize_range as HM.
  unfold send, memcpy_at in H.
  destruct ((0 <=? next_send_valid_index_ s) && (0 <=? Z.of_nat (length d))
            && (Z.of_nat (length d) <=? Z.of_nat (length d))
            && (next_send_valid_index_ s + Z.of_nat (length d)
                <=? Z.of_nat (length (outbound_data_ s)))) eqn:Hc; [|discriminate].
  rewrite !andb_true_iff, !Z.leb_le in Hc.
  rewrite bind_Ok_l in H. rewrite size_t_wrap_small in H by lia.
  unfold ASSERT in H.
  destruct (Z.ltb_spec (next_send_valid_index_ s + Z.of_nat (length d)) McastBufferSize)
    as [Hlt|_]; [exact Hlt | discriminate].
Qed.

Lemma send_all_pending (ds : list (list Byte.byte)) : forall s : McastSocket.t,
  0 <= next_send_valid_index_ s ->
  Z.of_nat (length (outbound_data_ s)) = McastBufferSize ->
  next_send_valid_index_ s + Z.of_nat (length (concat ds)) < McastBufferSize ->
  exists s',
    send_all ds s = Ok s' /\
    next_send_valid_index_ s' = next_send_valid_index_ s + Z.of_nat (length (concat ds)) /\
    Z.of_nat (length (outbound_data_ s')) = McastBufferSize /\
    outbound_pending s' = outbound_pending s ++ concat ds /\
    inbound_data_ s' = inbound_data_ s /\
    next_rcv_valid_index_ s' = next_rcv_valid_index_ s /\
    socket_fd_ s' = socket_fd_ s.
Proof.
  induction ds as [|d ds IH]; intros s Hidx Hbuf Hfit.
  - exists s. cbn [concat length send_all]. rewrite app_nil_r, Z.add_0_r. auto 10.
  - cbn [concat] in Hfit |- *. rewrite length_app in Hfit |- *.
    destruct (send_whole s d Hidx Hbuf ltac:(lia))
      as (s1 & E1 & Hm1 & Hb1 & Hp1 & Hi1 & Hr1 & Hf1).
    destruct (IH s1 ltac:(lia) Hb1 ltac:(lia))
      as (s' & E & Hm & Hb & Hp & Hi & Hr & Hf).
    exists s'. cbn [send_all]. rewrite E1, bind_Ok_l.
    split; [exact E|]. split; [lia|]. split; [exact Hb|].
    split; [rewrite Hp, Hp1, app_assoc; reflexivity|].
    split; [congruence|]. split; congruence.
Qed.

(** X19. Sends accumulate in order. On a socket whose outbound buffer
    has its [McastBufferSize] bytes and whose mark is below that size,
    consecutive calls [send(d, d.size())] all return as long as the
    mark plus the total length stays below [McastBufferSize]; the bytes
    the next [sendAndRecv] hands to [::send] are then the bytes pending
    before followed by the data of the calls, in call order, the mark
    has advanced by the total length and the receive side is untouched.
    When the total reaches the size of the buffer, the calls do not all
    return. *)
Theorem McastSocket_sends_accumulate (ds : list (list Byte.byte)) (s : McastSocket.t) :
  0 <= next_send_valid_index_ s < McastBufferSize ->
  Z.of_nat (length (outbound_data_ s)) = McastBufferSize ->
  (next_send_valid_index_ s + Z.of_nat (length (concat ds)) < McastBufferSize ->
   exists s',
     send_all ds s = Ok s' /\
     outbound_pending s' = outbound_pending s ++ concat ds /\
     next_send_valid_index_ s'
     = next_send_valid_index_ s + Z.of_nat (length (concat ds)) /\
     inbound_data_ s' = inbound_data_ s /\
     next_rcv_valid_index_ s' = next_rcv_valid_index_ s) /\
  (McastBufferSize <= next_send_valid_index_ s + Z.of_nat (length (concat ds)) ->
   forall s', send_all ds s <> Ok s').
Proof.
  intros Hidx Hbuf. split.
  - intros Hfit.
    destruct (send_all_pending ds s ltac:(lia) Hbuf Hfit)
      as (s' & E & Hm & _ & Hp & Hi & Hr & _).
    exists s'. auto.
  - revert s Hidx Hbuf. induction ds as [|d ds IH]; intros s Hidx Hbuf Hfull s' H.
    + cbn [concat length] in Hfull. lia.
    + cbn [send_all] in H. apply bind_Ok_inv in H as (s1 & E1 & H).
      pose proof (send_Ok_inv s s1 d ltac:(lia) Hbuf E1) as Hlt.
      destruct (send_whole s d ltac:(lia) Hbuf Hlt) as (s1' & E1' & Hm1 & Hb1 & _).
      rewrite E1 in E1'. injection E1' as <-.
      cbn [concat] in Hfull. rewrite length_app in Hfull.
      apply (IH s1 ltac:(lia) Hb1 ltac:(lia) s' H).
Qed.

End McastSocketUseFacts.

Lemma McastSocket_sends_accumulate_witness :
  (exists s',
     McastSocketUse.send_all [[Byte.x01; Byte.x02]; [Byte.x03]] McastSocket.create = Ok s' /\
     McastSocketUse.outbound_pending s'
     = McastSocketUse.outbound_pending McastSocket.create
       ++ concat [[Byte.x01; Byte.x02]; [Byte.x03]] /\
     McastSocket.next_send_valid_index_ s'
     = McastSocket.next_send_valid_index_ McastSocket.create
       + Z.of_nat (length (concat [[Byte.x01; Byte.x02]; [Byte.x03]])) /\
     McastSocket.inbound_data_ s' = McastSocket.inbound_data_ McastSocket.create /\
     McastSocket.next_rcv_valid_index_ s'
     = McastSocket.next_rcv_valid_index_ McastSocket.create) /\
  (forall s',
     McastSocketUse.send_all
       [[Byte.x01]; replicate (Z.to_nat McastSocket.McastBufferSize - 1) Byte.x00]
       McastSocket.create <> Ok s').
Proof.
  pose proof McastBufferSize_range as HM.
  assert (H0 : 0 <= McastSocket.next_send_valid_index_ McastSocket.create
               < McastSocket.McastBufferSize)
    by (cbn [McastSocket.create McastSocket.next_send_valid_index_]; lia).
  split.
  - apply (proj1 (McastSocket_sends_accumulate [[Byte.x01; Byte.x02]; [Byte.x03]]
                    McastSocket.create H0 create_outbound_length)).
    cbn [McastSocket.create McastSocket.next_send_valid_index_ concat length app].
    unfold McastSocket.McastBufferSize. lia.
  - apply (proj2 (McastSocket_sends_accumulate
                    [[Byte.x01]; replicate (Z.to_nat McastSocket.McastBufferSize - 1) Byte.x00]
                    McastSocket.create H0 create_outbound_length)).
    cbn [McastSocket.create McastSocket.next_send_valid_index_ concat].
    rewrite app_nil_r, length_app, length_replicate. cbn [length]. lia.
Defined.

Section McastReceiveFacts.
Import McastSocket McastSocketUse.
Variable source_file : string.

(** The socket as the receive callback finds it: the received bytes
    stored from the receive mark on, the mark advanced, the time string
    set. *)
Lemma sendAndRecv_received (env : io) (s : McastSocket.t) (lg : Logger.t) :
  0 < n_rcv env ->
  LFQueue_writable (Logger.queue_ lg) ->
  exists s1 lg1,
    LFQueue_writable (Logger.queue_ lg1) /\
    inbound_data_ s1
    = store_bytes (inbound_data_ s) (next_rcv_valid_index_ s)
        (take (Z.to_nat (n_rcv env)) (rcv_bytes env)) /\
    next_rcv_valid_index_ s1 = size_t_wrap (next_rcv_valid_index_ s + n_rcv env) /\
    outbound_data_ s1 = outbound_data_ s /\
    next_send_valid_index_ s1 = next_send_valid_index_ s /\
    socket_fd_ s1 = socket_fd_ s /\
    sendAndRecv source_file None env s lg = Aborted /\
    forall f : callback,
      (forall o, f s1 lg1 = o -> (forall r, o <> Ok r) ->
                 sendAndRecv source_file (Some f) env s lg = o ≫= fun _ => Aborted) /\
      (forall b s' lg',
          sendAndRecv source_file (Some f) env s lg = Ok (b, s', lg') ->
          exists s2 lg2,
            f s1 lg1 = Ok (s2, lg2) /\
            inbound_data_ s' = inbound_data_ s2 /\
            next_rcv_valid_index_ s' = next_rcv_valid_index_ s2 /\
            outbound_data_ s' = outbound_data_ s2).
Proof.
  intros Hn Hw. unfold sendAndRecv.
  destruct (Z.ltb_spec 0 (n_rcv env)) as [_|?]; [|lia]. cbv zeta.
  match goal with |- context [Logger.log ?f ?a lg] =>
    destruct (proj1 (log_outcome f a lg Hw) eq_refl) as (lg1 & Hl & Hw1); rewrite Hl
  end.
  rewrite !bind_Ok_l.
  exists {| socket_fd_ := socket_fd_ s;
            outbound_data_ := outbound_data_ s;
            next_send_valid_index_ := next_send_valid_index_ s;
            inbound_data_ :=
              store_bytes (inbound_data_ s) (next_rcv_valid_index_ s)
                (take (Z.to_nat (n_rcv env)) (rcv_bytes env));
            next_rcv_valid_index_ := size_t_wrap (next_rcv_valid_index_ s + n_rcv env);
            time_str_ := TimeUtils.getCurrentTimeStr (now_at_read env) |}, lg1.
  split; [exact Hw1|].
  do 5 (split; [reflexivity|]). split; [reflexivity|].
  intros f. split.
  - intros o Ho Hno. rewrite bind_Ok_l, Ho. destruct o as [r| | |]; [|reflexivity..].
    exfalso. exact (Hno r eq_refl).
  - intros b s' lg' H. rewrite bind_Ok_l in H.
    apply bind_Ok_inv in H as ([s2 lg2] & Hf & H).
    apply bind_Ok_inv in H as ([s3 lg3] & Hs & H).
    injection H as _ <- _.
    exists s2, lg2. split; [exact Hf|].
    cbn [inbound_data_ next_rcv_valid_index_ outbound_data_].
    destruct (0 <? next_send_valid_index_ s2).
    + apply bind_Ok_inv in Hs as (lg4 & _ & Hs). injection Hs as <- _.
      repeat split.
    + injection Hs as <- _. repeat split.
Qed.

(** X20. The receive side of [sendAndRecv]. When [recv] delivers
    nothing (a return value of 0 or less) the receive callback plays no
    part: the result is the same with and without a callback, false is
    returned and the inbound buffer and its mark are unchanged. When
    [recv] delivers bytes, a socket without a callback exits the
    process; with a callback, the callback is invoked on the socket with
    the received bytes stored from the former mark on and the mark
    advanced by their number, so that it finds them after the bytes
    already there; [sendAndRecv] itself never moves the mark back: the
    inbound buffer and mark it leaves are those the callback left. *)
Theorem McastSocket_sendAndRecv_receives (cb : option callback) (env : io)
    (s : McastSocket.t) (lg : Logger.t) :
  (n_rcv env <= 0 ->
   sendAndRecv source_file cb env s lg = sendAndRecv source_file None env s lg /\
   forall b s' lg',
     sendAndRecv source_file cb env s lg = Ok (b, s', lg') ->
     b = false /\ inbound_data_ s' = inbound_data_ s /\
     next_rcv_valid_index_ s' = next_rcv_valid_index_ s /\
     outbound_data_ s' = outbound_data_ s) /\
  (0 < n_rcv env -> LFQueue_writable (Logger.queue_ lg) ->
   sendAndRecv source_file None env s lg = Aborted /\
   exists s1 lg1,
     (0 <= next_rcv_valid_index_ s ->
      next_rcv_valid_index_ s + n_rcv env <= Z.of_nat (length (inbound_data_ s)) ->
      n_rcv env <= Z.of_nat (length (rcv_bytes env)) ->
      Z.of_nat (length (inbound_data_ s)) < 2 ^ 64 ->
      next_rcv_valid_index_ s1 = next_rcv_valid_index_ s + n_rcv env /\
      inbound_pending s1
      = inbound_pending s ++ take (Z.to_nat (n_rcv env)) (rcv_bytes env) /\
      length (inbound_data_ s1) = length (inbound_data_ s)) /\
     outbound_pending s1 = outbound_pending s /\
     forall (f : callback) b s' lg',
       sendAndRecv source_file (Some f) env s lg = Ok (b, s', lg') ->
       exists s2 lg2,
         f s1 lg1 = Ok (s2, lg2) /\
         b = true /\
         inbound_pending s' = inbound_pending s2 /\
         next_rcv_valid_index_ s' = next_rcv_valid_index_ s2).
Proof.
  split.
  - intros Hn. unfold sendAndRecv.
    destruct (Z.ltb_spec 0 (n_rcv env)) as [?|_]; [lia|].
    split; [reflexivity|]. intros b s' lg' H. rewrite bind_Ok_l in H.
    apply bind_Ok_inv in H as ([s3 lg3] & Hs & H). injection H as <- <- _.
    cbn [inbound_data_ next_rcv_valid_index_ outbound_data_].
    destruct (0 <? next_send_valid_index_ s).
    + apply bind_Ok_inv in Hs as (lg4 & _ & Hs). injection Hs as <- _. repeat split.
    + injection Hs as <- _. repeat split.
  - intros Hn Hw.
    destruct (sendAndRecv_received env s lg Hn Hw)
      as (s1 & lg1 & _ & Hin & Hmark & Hout & Hsend & _ & Hnone & Hcb).
    split; [exact Hnone|]. exists s1, lg1. split; [|split].
    + intros H0 Hfit Hbytes Hsize.
      assert (Hlen : length (take (Z.to_nat (n_rcv env)) (rcv_bytes env))
                     = Z.to_nat (n_rcv env)) by (rewrite length_take; lia).
      rewrite size_t_wrap_small in Hmark by lia.
      split; [exact Hmark|]. unfold inbound_pending. rewrite Hmark, Hin. split.
      * replace (n_rcv env)
          with (Z.of_nat (length (take (Z.to_nat (n_rcv env)) (rcv_bytes env)))) at 1
          by lia.
        apply store_bytes_prefix. lia.
      * apply store_bytes_length; lia.
    + unfold outbound_pending. rewrite Hout, Hsend. reflexivity.
    + intros f b s' lg' H.
      pose proof (sendAndRecv_Ok_inv source_file _ _ _ _ _ _ _ H) as [_ Hb].
      destruct (proj2 (Hcb f) b s' lg' H) as (s2 & lg2 & Hf & Hi & Hm & _).
      exists s2, lg2. split; [exact Hf|]. split.
      * rewrite Hb. apply Z.ltb_lt. exact Hn.
      * unfold inbound_pending. rewrite Hi, Hm. split; reflexivity.
Qed.

End McastReceiveFacts.

Lemma create_inbound_length :
  Z.of_nat (length (McastSocket.inbound_data_ McastSocket.create))
  = McastSocket.McastBufferSize.
Proof.
  unfold McastSocket.create. cbn [McastSocket.inbound_data_].
  rewrite length_replicate, Z2Nat.id by (unfold McastSocket.McastBufferSize; lia).
  reflexivity.
Qed.

Lemma McastSocket_sendAndRecv_receives_witness :
  let s := McastSocket.create in
  let nothing := McastSocket.mkIo 0 [] 0 "Thu Sep 20 14:55:02 2023
" "Thu Sep 20 14:55:02 2023
" in
  let two_bytes := McastSocket.mkIo 2 [Byte.x01; Byte.x02] 0 "Thu Sep 20 14:55:02 2023
" "Thu Sep 20 14:55:02 2023
" in
  let cb : McastSocket.callback := fun s1 lg1 => Ok (s1, lg1) in
  McastSocket.sendAndRecv "mcast_socket.cpp" (Some cb) nothing s Logger.create
  = McastSocket.sendAndRecv "mcast_socket.cpp" None nothing s Logger.create /\
  McastSocket.sendAndRecv "mcast_socket.cpp" None two_bytes s Logger.create = Aborted /\
  exists s1,
    McastSocket.next_rcv_valid_index_ s1 = McastSocket.next_rcv_valid_index_ s + 2 /\
    McastSocketUse.inbound_pending s1
    = McastSocketUse.inbound_pending s ++ [Byte.x01; Byte.x02] /\
    McastSocketUse.outbound_pending s1 = McastSocketUse.outbound_pending s /\
    forall b s' lg',
      McastSocket.sendAndRecv "mcast_socket.cpp" (Some cb) two_bytes s Logger.create
      = Ok (b, s', lg') ->
      b = true /\ McastSocket.next_rcv_valid_index_ s' = McastSocket.next_rcv_valid_index_ s1.
Proof.
  intros s nothing two_bytes cb. pose proof McastBufferSize_range as HM.
  split.
  - assert (Hle : McastSocket.n_rcv nothing <= 0) by (simpl; lia).
    exact (proj1 (proj1 (McastSocket_sendAndRecv_receives "mcast_socket.cpp" (Some cb)
                           nothing s Logger.create) Hle)).
  - destruct (proj2 (McastSocket_sendAndRecv_receives "mcast_socket.cpp" None two_bytes s
                       Logger.create) ltac:(simpl; lia) create_writable)
      as (Hnone & s1 & lg1 & Hin & Hout & Hcb).
    split; [exact Hnone|]. exists s1.
    destruct Hin as (Hmark & Hpending & _).
    + cbn [s McastSocket.create McastSocket.next_rcv_valid_index_]. lia.
    + unfold s. rewrite create_inbound_length.
      cbn [McastSocket.create McastSocket.next_rcv_valid_index_ McastSocket.n_rcv two_bytes].
      unfold McastSocket.McastBufferSize. lia.
    + simpl. lia.
    + unfold s. rewrite create_inbound_length. lia.
    + split; [exact Hmark|]. split; [exact Hpending|]. split; [exact Hout|].
      intros b s' lg' H. destruct (Hcb cb b s' lg' H) as (s2 & lg2 & Hf & Hb & _ & Hm).
      injection Hf as <- _. split; [exact Hb | exact Hm].
Defined.

(* ====================================================================== *)
(** * The logger and the timing of the flush task *)

Section LoggerStepsFacts.
Variable show_float : Z -> string.
Variable show_double : Z -> string.

Import Logger LoggerUse.

Local Abbreviation text := (elements_text show_float show_double).

Lemma calls_text_app (cs1 cs2 : list (string * list arg)) :
  calls_text show_float show_double (cs1 ++ cs2)
  = String.append (calls_text show_float show_double cs1)
                  (calls_text show_float show_double cs2).
Proof.
  induction cs1 as [|[s args] cs1 IH]; [reflexivity|].
  cbn [app calls_text]. rewrite IH, string_app_assoc. reflexivity.
Qed.

Lemma run_steps_holds (steps : list step) :
  forall (lg : Logger.t) (N : Z) (pending : list LogElement),
  holds N (queue_ lg) pending -> Forall well_tagged pending ->
  calls_match (calls_of steps) ->
  room_between_flushes N (length pending) steps ->
  exists lg1 pending1,
    run show_float show_double steps lg = Ok lg1 /\
    holds N (queue_ lg1) pending1 /\ Forall well_tagged pending1 /\
    String.append (file_ lg1) (text pending1)
    = String.append (String.append (file_ lg) (text pending))
        (calls_text show_float show_double (calls_of steps)).
Proof.
  induction steps as [|[s args|] steps IH]; intros lg N pending Hq Hwt Hm Hroom.
  - exists lg, pending. cbn [run calls_of calls_text]. rewrite string_app_nil_r. auto.
  - cbn [calls_of] in Hm. inversion Hm as [|? ? Hcount Hm']; subst.
    cbn [fst snd] in Hcount. destruct Hroom as [Hfit Hroom].
    destruct (log_outcome s args lg (holds_writable _ _ _ Hq)) as [Hok _].
    destruct (Hok Hcount) as (lg1 & Hlog & _).
    destruct (log_pushed show_float show_double s args lg lg1 Hlog)
      as (es & [Hfile Hp] & Hwt1 & Htxt & Hle).
    specialize (Hp N pending Hq ltac:(lia)).
    destruct (IH lg1 N (pending ++ es) Hp) as (lg2 & pending2 & E & Hq2 & Hwt2 & Hf2).
    { apply Forall_app. auto. }
    { exact Hm'. }
    { clear - Hroom Hle. rewrite length_app.
      revert Hroom. generalize (length pending). intros n.
      assert (Hmono : forall steps (a b : nat), (a <= b)%nat ->
                 room_between_flushes N b steps -> room_between_flushes N a steps).
      { clear. induction steps as [|[s args|] steps IH]; intros a b Hab H; cbn in *.
        - exact I.
        - destruct H as [H1 H2]. split; [lia|]. apply (IH _ (b + log_elements s args)%nat);
            [lia | exact H2].
        - exact H. }
      apply Hmono. lia. }
    exists lg2, pending2. cbn [run]. rewrite Hlog, bind_Ok_l.
    split; [exact E|]. split; [exact Hq2|]. split; [exact Hwt2|].
    rewrite Hf2. cbn [calls_of calls_text].
    rewrite Hfile, (text_app show_float show_double), Htxt, !string_app_assoc. reflexivity.
  - destruct (flushQueue_round_holds show_float show_double N pending lg Hq Hwt)
      as (lg1 & Hfl & Hfile & Hq1).
    destruct (IH lg1 N [] Hq1 ltac:(constructor) Hm Hroom)
      as (lg2 & pending2 & E & Hq2 & Hwt2 & Hf2).
    exists lg2, pending2. cbn [run]. rewrite Hfl, bind_Ok_l.
    split; [exact E|]. split; [exact Hq2|]. split; [exact Hwt2|].
    rewrite Hf2, Hfile. cbn [calls_of elements_text]. rewrite string_app_nil_r. reflexivity.
Qed.

(** X21. What the file holds does not depend on when the flush task
    runs. Take any sequence of [log] calls and rounds of the flush
    task, in any order, on a logger whose queue is empty, such that
    every call has as many arguments as placeholders and the queue can
    take what is pushed between two rounds. Every step returns, and
    after one more round the file holds what it held at the start
    followed by the substituted texts of all the calls, in call order,
    and the queue is empty. *)
Theorem Logger_flush_timing_irrelevant (steps : list step) (lg : Logger.t) :
  LFQueue_idle (queue_ lg) ->
  calls_match (calls_of steps) ->
  room_between_flushes (LFQueue.capacity (queue_ lg)) 0 steps ->
  exists lg1 lg2,
    run show_float show_double steps lg = Ok lg1 /\
    flushQueue_round show_float show_double lg1 = Ok lg2 /\
    file_ lg2
    = String.append (file_ lg) (calls_text show_float show_double (calls_of steps)) /\
    LFQueue.size (queue_ lg2) = 0.
Proof.
  intros Hidle Hm Hroom.
  pose proof (idle_holds _ Hidle) as Hq.
  destruct (run_steps_holds steps lg _ [] Hq ltac:(constructor) Hm Hroom)
    as (lg1 & pending1 & E & Hq1 & Hwt1 & Hf1).
  destruct (flushQueue_round_holds show_float show_double _ pending1 lg1 Hq1 Hwt1)
    as (lg2 & Hfl & Hfile & Hq2).
  exists lg1, lg2. split; [exact E|]. split; [exact Hfl|]. split.
  - rewrite Hfile, Hf1. cbn [elements_text]. rewrite string_app_nil_r. reflexivity.
  - exact (holds_count _ _ _ Hq2).
Qed.

End LoggerStepsFacts.

Lemma Logger_flush_timing_irrelevant_witness :
  let steps :=
    [LoggerUse.Log "a=% "%string [Logger.A_scalar (Logger.S_int 1)];
     LoggerUse.Flush;
     LoggerUse.Log "b=%"%string [Logger.A_cstr "x"%string];
     LoggerUse.Log "!"%string []] in
  exists lg1 lg2,
    LoggerUse.run (fun _ => EmptyString) (fun _ => EmptyString) steps Logger.create
    = Ok lg1 /\
    Logger.flushQueue_round (fun _ => EmptyString) (fun _ => EmptyString) lg1 = Ok lg2 /\
    Logger.file_ lg2
    = String.append (Logger.file_ Logger.create)
        (LoggerUse.calls_text (fun _ => EmptyString) (fun _ => EmptyString)
           (LoggerUse.calls_of steps)) /\
    LFQueue.size (Logger.queue_ lg2) = 0.
Proof.
  intros steps.
  apply (Logger_flush_timing_irrelevant (fun _ => EmptyString) (fun _ => EmptyString)
           steps Logger.create).
  - exact create_idle.
  - repeat constructor.
  - rewrite create_capacity. unfold Logger.LOG_QUEUE_SIZE.
    cbn [steps LoggerUse.room_between_flushes].
    repeat split; apply Z.leb_le; vm_compute; reflexivity.
Defined.
